(** * Workshop-1: the interactive ontology graph of [app.js]

    A shallow embedding of the scene builder, the particle pool, the pointer
    handlers, the reset handler and the per-frame updater of [src/app.js],
    and the properties of its specification proved (or refuted) on it.

    Modelling conventions.
    - JavaScript numbers are idealised as exact rationals ([Q]); the
      properties below are about the structure of the updates, not about
      the rounding of double arithmetic. The one place where the script
      narrows numbers on purpose, the [Float32Array] in which the geometry
      of a line keeps its points, is modelled: the host's [Math_fround].
    - Objects that the script creates once and then mutates (node meshes,
      lines, particles) live in lists held by the [World]; the index of an
      object in its list is its identity, so that two references to one mesh
      (from [nodeGroup] and from [nodeMap]) are two occurrences of one index.
    - What the browser and three.js compute (the ray cast, [Math.random],
      [Math.sin], [Vector3.distanceTo], the text measure of a canvas, the
      orbit controller) is taken from a [Host] or carried by the event.
    - Property keys of the plain objects [categoryStyle] and (in the CSV
      variant) [nodeMap] are looked up among their own keys. For a name
      inherited from [Object.prototype] ("constructor", "toString", ...)
      the script finds the inherited member instead; a property that
      depends on such a lookup is stated for keys that are not inherited
      names ([plain_key]). *)

From Stdlib Require Import QArith Qabs Qround Qpower Lqa ZArith String List.
From stdpp Require Import base list strings gmap.

Local Open Scope Q_scope.

(** ** Numbers *)

(** [Math.min] and [Math.max] on two arguments. *)
Definition Math_min (a b : Q) : Q := if Qle_bool a b then a else b.
Definition Math_max (a b : Q) : Q := if Qle_bool a b then b else a.

(** [a > b] *)
Definition Qgt_bool (a b : Q) : bool := negb (Qle_bool a b).

(** [a || b] on numbers: [0] is falsy. *)
Definition num_or (a b : Q) : Q := if Qeq_bool a 0 then b else a.

Module MathUtils.
(** [THREE.MathUtils.lerp(x, y, t)] *)
Definition lerp (x y t : Q) : Q := (1 - t) * x + t * y.
End MathUtils.

Module Vector3.
Record t := make { x : Q; y : Q; z : Q }.

Definition zero : t := make 0 0 0.
Definition setScalar (s : Q) : t := make s s s.
Definition add (a b : t) : t := make (x a + x b) (y a + y b) (z a + z b).
Definition sub (a b : t) : t := make (x a - x b) (y a - y b) (z a - z b).
Definition multiplyScalar (a : t) (s : Q) : t := make (x a * s) (y a * s) (z a * s).
(** [a.addScaledVector(v, s)] *)
Definition addScaledVector (a v : t) (s : Q) : t :=
  make (x a + x v * s) (y a + y v * s) (z a + z v * s).
(** [a.lerp(v, alpha)]: [a.x += (v.x - a.x) * alpha], componentwise. *)
Definition lerp (a v : t) (alpha : Q) : t :=
  make (x a + (x v - x a) * alpha) (y a + (y v - y a) * alpha) (z a + (z v - z a) * alpha).
End Vector3.

(** ** The host: browser and rendering library *)

Class Host := {
  (** the value returned by the [k]-th call of [Math.random()] *)
  Math_random : nat -> Q;
  Math_sin : Q -> Q;
  Math_PI : Q;
  (** [a.distanceTo(b)] *)
  distanceTo : Vector3.t -> Vector3.t -> Q;
  (** [ctx.measureText(text).width] at the label font *)
  measureText_width : string -> Q;
  (** [Math.fround(x)]: the number that a [Float32Array] stores for [x] *)
  Math_fround : Q -> Q
}.

(** ** Data *)

(** A node record of the [nodes] array; [position] is optional. *)
Record NodeRecord := mkNodeRecord {
  id : string;
  label : string;
  category : string;
  position : option Vector3.t
}.

Record Style := mkStyle { color : Z; size : Q }.

(** The [categoryStyle] object literal. *)
Definition categoryStyle : list (string * Style) :=
  [ ("core"%string,       mkStyle 0x60e6ff 2.4);
    ("light"%string,      mkStyle 0xffd17a 2.1);
    ("usage"%string,      mkStyle 0x9be76b 1.9);
    ("property"%string,   mkStyle 0xd78fff 1.8);
    ("constraint"%string, mkStyle 0xff8b8b 1.7);
    ("process"%string,    mkStyle 0xa7c0ff 1.6);
    ("default"%string,    mkStyle 0xffffff 1.6) ].

Definition categoryStyle_default : Style := mkStyle 0xffffff 1.6.

Fixpoint own_property {V} (o : list (string * V)) (k : string) : option V :=
  match o with
  | [] => None
  | (k', v) :: o' => if String.eqb k' k then Some v else own_property o' k
  end.

(** [categoryStyle[cat] || categoryStyle.default], for a category that is
    not the name of a member of [Object.prototype]: for such a name the
    script finds the inherited member, which has neither [color] nor
    [size]. *)
Definition style_of (cat : string) : Style :=
  match own_property categoryStyle cat with
  | Some s => s
  | None => categoryStyle_default
  end.

(** A [Map] with string keys, in insertion order. *)
Module JSMap.
Definition t (V : Type) := list (string * V).

Fixpoint get {V} (m : t V) (k : string) : option V :=
  match m with
  | [] => None
  | (k', v) :: m' => if String.eqb k' k then Some v else get m' k
  end.

(** [set] replaces the value of a key already present, in place, and
    appends a new key. *)
Fixpoint set {V} (m : t V) (k : string) (v : V) : t V :=
  match m with
  | [] => [(k, v)]
  | (k', v') :: m' =>
      if String.eqb k' k then (k', v) :: m' else (k', v') :: set m' k v
  end.

Definition values {V} (m : t V) : list V := snd <$> (m : list (string * V)).
Definition keys {V} (m : t V) : list string := fst <$> (m : list (string * V)).
End JSMap.

(** A label texture. [tex_uid] is the identity of the [CanvasTexture]
    object: the number of textures created before it. *)
Record Texture := mkTexture {
  tex_uid : nat;
  tex_text : string;
  tex_width : Z;
  tex_height : Z
}.

Record Sprite := mkSprite {
  sprite_map : Texture;
  sprite_scale : Vector3.t;
  sprite_position : Vector3.t
}.

(** [mesh.userData._pulse] *)
Record Pulse := mkPulse { pulse_t : Q; pulse_duration : Q; pulse_peak : Q }.

(** A node marker: the sphere mesh, its material, its [userData] and its
    child label sprite. *)
Record NodeMesh := mkNodeMesh {
  m_position : Vector3.t;
  m_scale : Vector3.t;
  m_color : Z;
  m_emissive : Z;
  m_emissiveIntensity : Q;
  ud_id : string;
  ud_label : string;
  ud_category : string;
  ud_baseScale : Q;
  ud_pulse : option Pulse;
  m_sprite : Sprite
}.

(** A value of [nodeMap]: [{ mesh, data }], the mesh by its index in
    [nodeGroup.children]. *)
Record NodeEntry := mkNodeEntry { mesh : nat; data : NodeRecord }.

(** An edge line: [userData = { a, b }] and the two points of its geometry. *)
Record Line := mkLine {
  line_a : string;
  line_b : string;
  line_geometry : Vector3.t * Vector3.t
}.

(** A pooled particle: [userData = { alive, life, velocity }], the
    transform, the material and the visibility flag. *)
Record Particle := mkParticle {
  alive : bool;
  life : Q;
  velocity : Vector3.t;
  p_position : Vector3.t;
  p_scale : Vector3.t;
  p_color : Z;
  p_opacity : Q;
  visible : bool
}.

(** An object a ray can hit: node mesh [i] or the label sprite of mesh [i]. *)
Inductive Object3D := NodeObj (i : nat) | LabelObj (i : nat).

(** An element of the array returned by [raycaster.intersectObjects]. *)
Record Intersection := mkIntersection { object : Object3D; point : Vector3.t }.

(** The module-level state of the script. *)
Record World := mkWorld {
  camera_position : Vector3.t;
  sunLight_intensity : Q;
  torchLight_intensity : Q;
  nodeGroup : list NodeMesh;
  nodeMap : JSMap.t NodeEntry;
  edgeGroup : list Line;
  particlePool : list Particle;
  dragging : option Object3D;
  dragOffset : Vector3.t;
  clock_elapsedTime : Q;
  labelCanvasCache : gmap string Texture;
  (** textures created so far *)
  textures : nat;
  (** calls of [Math.random()] so far *)
  randoms : nat
}.

Inductive Outcome := Returned | Threw (e : string).

Definition TypeError : Outcome := Threw "TypeError".

(** Field updates. *)
Definition set_nodeGroup (w : World) (g : list NodeMesh) : World :=
  mkWorld (camera_position w) (sunLight_intensity w) (torchLight_intensity w)
    g (nodeMap w) (edgeGroup w) (particlePool w) (dragging w) (dragOffset w)
    (clock_elapsedTime w) (labelCanvasCache w) (textures w) (randoms w).

Definition set_nodeMap (w : World) (m : JSMap.t NodeEntry) : World :=
  mkWorld (camera_position w) (sunLight_intensity w) (torchLight_intensity w)
    (nodeGroup w) m (edgeGroup w) (particlePool w) (dragging w) (dragOffset w)
    (clock_elapsedTime w) (labelCanvasCache w) (textures w) (randoms w).

Definition set_edgeGroup (w : World) (g : list Line) : World :=
  mkWorld (camera_position w) (sunLight_intensity w) (torchLight_intensity w)
    (nodeGroup w) (nodeMap w) g (particlePool w) (dragging w) (dragOffset w)
    (clock_elapsedTime w) (labelCanvasCache w) (textures w) (randoms w).

Definition set_particles (w : World) (pool : list Particle) (r : nat) : World :=
  mkWorld (camera_position w) (sunLight_intensity w) (torchLight_intensity w)
    (nodeGroup w) (nodeMap w) (edgeGroup w) pool (dragging w) (dragOffset w)
    (clock_elapsedTime w) (labelCanvasCache w) (textures w) r.

Definition set_lights (w : World) (sun torch : Q) : World :=
  mkWorld (camera_position w) sun torch
    (nodeGroup w) (nodeMap w) (edgeGroup w) (particlePool w) (dragging w) (dragOffset w)
    (clock_elapsedTime w) (labelCanvasCache w) (textures w) (randoms w).

Definition set_dragging (w : World) (d : option Object3D) : World :=
  mkWorld (camera_position w) (sunLight_intensity w) (torchLight_intensity w)
    (nodeGroup w) (nodeMap w) (edgeGroup w) (particlePool w) d (dragOffset w)
    (clock_elapsedTime w) (labelCanvasCache w) (textures w) (randoms w).

Definition set_dragOffset (w : World) (o : Vector3.t) : World :=
  mkWorld (camera_position w) (sunLight_intensity w) (torchLight_intensity w)
    (nodeGroup w) (nodeMap w) (edgeGroup w) (particlePool w) (dragging w) o
    (clock_elapsedTime w) (labelCanvasCache w) (textures w) (randoms w).

Definition set_camera (w : World) (c : Vector3.t) : World :=
  mkWorld c (sunLight_intensity w) (torchLight_intensity w)
    (nodeGroup w) (nodeMap w) (edgeGroup w) (particlePool w) (dragging w) (dragOffset w)
    (clock_elapsedTime w) (labelCanvasCache w) (textures w) (randoms w).

Definition set_clock (w : World) (e : Q) : World :=
  mkWorld (camera_position w) (sunLight_intensity w) (torchLight_intensity w)
    (nodeGroup w) (nodeMap w) (edgeGroup w) (particlePool w) (dragging w) (dragOffset w)
    e (labelCanvasCache w) (textures w) (randoms w).

Definition set_labelCache (w : World) (c : gmap string Texture) (n : nat) : World :=
  mkWorld (camera_position w) (sunLight_intensity w) (torchLight_intensity w)
    (nodeGroup w) (nodeMap w) (edgeGroup w) (particlePool w) (dragging w) (dragOffset w)
    (clock_elapsedTime w) c n (randoms w).

Definition set_randoms (w : World) (r : nat) : World :=
  mkWorld (camera_position w) (sunLight_intensity w) (torchLight_intensity w)
    (nodeGroup w) (nodeMap w) (edgeGroup w) (particlePool w) (dragging w) (dragOffset w)
    (clock_elapsedTime w) (labelCanvasCache w) (textures w) r.

(** ** The script *)

Section Script.
Context `{Host}.

(** *** Scene builder *)

(** [makeLabelTexture(text)]: the texture cached for [text], or a new one,
    entered in the cache. *)
Definition makeLabelTexture (w : World) (text : string) : Texture * World :=
  match labelCanvasCache w !! text with
  | Some texture => (texture, w)
  | None =>
      let fontSize := 48%Z in
      let padding := 12%Z in
      let cw := (Qceiling (measureText_width text) + padding * 2)%Z in
      let ch := (fontSize + padding * 2)%Z in
      let texture := mkTexture (textures w) text cw ch in
      (texture, set_labelCache w (<[text := texture]> (labelCanvasCache w)) (S (textures w)))
  end.

(** [n.position || new THREE.Vector3(...)]: three calls of [Math.random()]
    when the record has no position. *)
Definition node_position (w : World) (n : NodeRecord) : Vector3.t * World :=
  match position n with
  | Some p => (p, w)
  | None =>
      let r := randoms w in
      (Vector3.make ((Math_random r - 0.5) * 40)
                    ((Math_random (r + 1) - 0.5) * 20)
                    ((Math_random (r + 2) - 0.5) * 40),
       set_randoms w (r + 3))
  end.

(** One turn of [for (const n of nodes)]. *)
Definition create_node (w : World) (n : NodeRecord) : World :=
  let style := style_of (category n) in
  let '(pos, w1) := node_position w n in
  let '(labelTex, w2) := makeLabelTexture w1 (label n) in
  let sprite := mkSprite labelTex (Vector3.make 12 3.6 1)
                         (Vector3.make 0 (size style + 1.4) 0) in
  let m := mkNodeMesh pos (Vector3.setScalar (size style)) (color style)
                      0x000000 0.0
                      (id n) (label n) (category n) (size style) None sprite in
  let i := length (nodeGroup w2) in
  set_nodeMap (set_nodeGroup w2 (nodeGroup w2 ++ [m]))
              (JSMap.set (nodeMap w2) (id n) (mkNodeEntry i n)).

Definition create_nodes (w : World) (nodes : list NodeRecord) : World :=
  fold_left create_node nodes w.

(** [nodeMap.get(k).mesh.position]; reading [.mesh] of [undefined] throws. *)
Definition endpoint_position (w : World) (k : string) : option Vector3.t :=
  match JSMap.get (nodeMap w) k with
  | None => None
  | Some e => m_position <$> nodeGroup w !! mesh e
  end.

(** [geometry.setFromPoints([a, b])]: the position attribute of the
    geometry is a [Float32Array] of the six coordinates, so each coordinate
    is narrowed to a 32-bit float. *)
Definition Vector3_fround (p : Vector3.t) : Vector3.t :=
  Vector3.make (Math_fround (Vector3.x p)) (Math_fround (Vector3.y p))
               (Math_fround (Vector3.z p)).

Definition setFromPoints (a b : Vector3.t) : Vector3.t * Vector3.t :=
  (Vector3_fround a, Vector3_fround b).

(** [for (const [a,b] of edges)]: the loop stops at the first edge one of
    whose ids is not a key of [nodeMap]. *)
Fixpoint create_edges (w : World) (edges : list (string * string)) : Outcome * World :=
  match edges with
  | [] => (Returned, w)
  | (a, b) :: rest =>
      match endpoint_position w a with
      | None => (TypeError, w)
      | Some pa =>
          match endpoint_position w b with
          | None => (TypeError, w)
          | Some pb =>
              create_edges
                (set_edgeGroup w (edgeGroup w ++ [mkLine a b (setFromPoints pa pb)])) rest
          end
      end
  end.

(** *** Particle pool *)

Definition PARTICLE_MAX : nat := 200.

Definition new_particle : Particle :=
  mkParticle false 0 Vector3.zero Vector3.zero (Vector3.setScalar 1) 0xffffff 0 false.

Definition create_particles (w : World) : World :=
  set_particles w (particlePool w ++ replicate PARTICLE_MAX new_particle) (randoms w).

(** The first particle of the pool that is not alive, by its index. *)
Fixpoint first_idle (pool : list Particle) : option nat :=
  match pool with
  | [] => None
  | p :: rest => if alive p then S <$> first_idle rest else Some 0%nat
  end.

(** The body of the [if (!p.userData.alive)] branch: five calls of
    [Math.random()], in the order of the source. *)
Definition claim_particle (r : nat) (origin : Vector3.t) (c : Z) (p : Particle) : Particle :=
  mkParticle true
             (0.7 + Math_random r * 0.6)
             (Vector3.make ((Math_random (r + 2) - 0.5) * 6)
                           (Math_random (r + 3) * 6)
                           ((Math_random (r + 4) - 0.5) * 6))
             origin
             (Vector3.setScalar (0.6 + Math_random (r + 1) * 0.6))
             c
             1.0
             true.

(** [spawnParticles(origin, color=0xffffff)] *)
Definition spawnParticles (w : World) (origin : Vector3.t) (c : option Z) : World :=
  let c := default 0xffffff%Z c in
  match first_idle (particlePool w) with
  | Some i =>
      set_particles w
        (alter (claim_particle (randoms w) origin c) i (particlePool w))
        (randoms w + 5)
  | None => w
  end.

(** The state before the loops: the camera at (0, 30, 80), the sun light
    at 0.8, the torch light off, the groups, the map and the cache empty. *)
Definition initial_world : World :=
  mkWorld (Vector3.make 0 30 80) 0.8 0.0 [] [] [] [] None Vector3.zero 0 ∅ 0 0.

(** The script up to the registration of the handlers: the node loop, the
    edge loop, the particle pool. An exception in the edge loop ends the
    script: nothing after it runs. *)
Definition build (nodes : list NodeRecord) (edges : list (string * string))
  : Outcome * World :=
  match create_edges (create_nodes initial_world nodes) edges with
  | (Returned, w) => (Returned, create_particles w)
  | (Threw e, w) => (Threw e, w)
  end.

(** *** Activation *)

Definition activate_mesh (m : NodeMesh) : NodeMesh :=
  let base := num_or (ud_baseScale m) 1.0 in
  let c := color (style_of (ud_category m)) in
  mkNodeMesh (m_position m) (m_scale m) (m_color m)
             c 0.9
             (ud_id m) (ud_label m) (ud_category m) (ud_baseScale m)
             (Some (mkPulse 0 0.6 (base * 1.6)))
             (m_sprite m).

(** [onNodeActivate(nodeEntry)]; [None] is [undefined], whose [.mesh]
    cannot be read. *)
Definition onNodeActivate (w : World) (nodeEntry : option NodeEntry) : Outcome * World :=
  match nodeEntry with
  | None => (TypeError, w)
  | Some e =>
      match nodeGroup w !! mesh e with
      | None => (TypeError, w)
      | Some m =>
          let c := color (style_of (ud_category m)) in
          let w1 := set_nodeGroup w (<[mesh e := activate_mesh m]> (nodeGroup w)) in
          let w2 := Nat.iter 8 (fun w' => spawnParticles w' (m_position m) (Some c)) w1 in
          let w3 :=
            if String.eqb (ud_id m) "Sun" then
              set_lights w2 (Math_min 2.2 (sunLight_intensity w2 + 0.9))
                            (torchLight_intensity w2)
            else if String.eqb (ud_id m) "Torch" then
              set_lights w2 (sunLight_intensity w2)
                            (Math_min 3.0 (torchLight_intensity w2 + 1.6))
            else w2 in
          (Returned, w3)
      end
  end.

(** *** Pointer handlers *)

(** [obj.position] of a hit object: of the mesh, or of the sprite within
    its mesh. *)
Definition object_position (w : World) (o : Object3D) : option Vector3.t :=
  match o with
  | NodeObj i => m_position <$> nodeGroup w !! i
  | LabelObj i => (fun m => sprite_position (m_sprite m)) <$> nodeGroup w !! i
  end.

Definition move_mesh (p : Vector3.t) (m : NodeMesh) : NodeMesh :=
  mkNodeMesh p (m_scale m) (m_color m) (m_emissive m) (m_emissiveIntensity m)
             (ud_id m) (ud_label m) (ud_category m) (ud_baseScale m) (ud_pulse m)
             (m_sprite m).

Definition move_sprite (p : Vector3.t) (m : NodeMesh) : NodeMesh :=
  mkNodeMesh (m_position m) (m_scale m) (m_color m) (m_emissive m) (m_emissiveIntensity m)
             (ud_id m) (ud_label m) (ud_category m) (ud_baseScale m) (ud_pulse m)
             (mkSprite (sprite_map (m_sprite m)) (sprite_scale (m_sprite m)) p).

Definition set_object_position (w : World) (o : Object3D) (p : Vector3.t) : World :=
  match o with
  | NodeObj i => set_nodeGroup w (alter (move_mesh p) i (nodeGroup w))
  | LabelObj i => set_nodeGroup w (alter (move_sprite p) i (nodeGroup w))
  end.

(** [obj.userData.id]: a label sprite has none. *)
Definition object_id (w : World) (o : Object3D) : option string :=
  match o with
  | NodeObj i => ud_id <$> nodeGroup w !! i
  | LabelObj _ => None
  end.

(** [nodeMap.get(mesh.userData.id)] *)
Definition entry_of_object (w : World) (o : Object3D) : option NodeEntry :=
  match object_id w o with
  | Some k => JSMap.get (nodeMap w) k
  | None => None
  end.

(** [onPointerDown(ev)], given the array [intersects] that the ray cast
    against the meshes of [nodeMap] (children included) returns. *)
Definition onPointerDown (w : World) (intersects : list Intersection) : Outcome * World :=
  match intersects with
  | hit :: _ =>
      let w1 := set_dragging w (Some (object hit)) in
      match object_position w1 (object hit) with
      | None => (TypeError, w1)
      | Some pos =>
          let w2 := set_dragOffset w1 (Vector3.sub (point hit) pos) in
          onNodeActivate w2 (entry_of_object w2 (object hit))
      end
  | [] => (Returned, set_dragging w None)
  end.

(** [line.userData.a === id || line.userData.b === id] *)
Definition touches (k : option string) (l : Line) : bool :=
  match k with
  | Some k => String.eqb (line_a l) k || String.eqb (line_b l) k
  | None => false
  end.

(** [for (const line of edgeGroup.children)] of [onPointerMove]. *)
Fixpoint update_lines (w : World) (k : option string) (lines : list Line)
  : Outcome * list Line :=
  match lines with
  | [] => (Returned, [])
  | l :: rest =>
      if touches k l then
        match endpoint_position w (line_a l), endpoint_position w (line_b l) with
        | Some aPos, Some bPos =>
            let '(o, rest') := update_lines w k rest in
            (o, mkLine (line_a l) (line_b l) (setFromPoints aPos bPos) :: rest')
        | _, _ => (TypeError, l :: rest)
        end
      else
        let '(o, rest') := update_lines w k rest in (o, l :: rest')
  end.

(** [onPointerMove(ev)], given the ray that [raycaster.setFromCamera] sets. *)
Definition onPointerMove (w : World) (origin dir : Vector3.t) : Outcome * World :=
  match dragging w with
  | None => (Returned, w)
  | Some d =>
      match object_position w d with
      | None => (TypeError, w)
      | Some pos =>
          let depth := distanceTo pos (camera_position w) in
          let target := Vector3.add (Vector3.multiplyScalar dir depth) origin in
          let w1 := set_object_position w d (Vector3.sub target (dragOffset w)) in
          let '(o, lines) := update_lines w1 (object_id w1 d) (edgeGroup w1) in
          (o, set_edgeGroup w1 lines)
      end
  end.

Definition onPointerUp (w : World) : Outcome * World :=
  (Returned, set_dragging w None).

(** *** Reset *)

Definition reset_mesh (m : NodeMesh) : NodeMesh :=
  mkNodeMesh (m_position m) (Vector3.setScalar (num_or (ud_baseScale m) 1.6))
             (m_color m) 0x000000 0.0
             (ud_id m) (ud_label m) (ud_category m) (ud_baseScale m) (ud_pulse m)
             (m_sprite m).

(** [nodeMap.forEach(({mesh}) => f(mesh))]: the values in insertion order,
    each mesh updated in place. *)
Definition nodeMap_forEach (f : NodeMesh -> NodeMesh) (w : World) : World :=
  set_nodeGroup w
    (fold_left (fun g e => alter f (mesh e) g) (JSMap.values (nodeMap w)) (nodeGroup w)).

(** The click handler of [resetBtn]. [controls.reset()] restores the state
    the controller saved; the camera position is then set explicitly. *)
Definition reset (w : World) : Outcome * World :=
  let w1 := set_camera w (Vector3.make 0 30 80) in
  let w2 := set_lights w1 0.8 0.0 in
  (Returned, nodeMap_forEach reset_mesh w2).

(** *** Animation loop *)

Definition animate_mesh (dt : Q) (m : NodeMesh) : NodeMesh :=
  let base := ud_baseScale m in
  match ud_pulse m with
  | Some pulse =>
      let t := pulse_t pulse + dt in
      let p := Math_sin ((t / pulse_duration pulse) * Math_PI) * 0.6 + 0.4 in
      let targetScale := MathUtils.lerp base (pulse_peak pulse) p in
      let scale1 := Vector3.lerp (m_scale m) (Vector3.setScalar targetScale) 0.18 in
      let ei := Math_max 0 (m_emissiveIntensity m - dt * 1.2) in
      if Qgt_bool t (pulse_duration pulse + 0.2) then
        mkNodeMesh (m_position m) (Vector3.lerp scale1 (Vector3.setScalar base) 0.2)
                   (m_color m) (m_emissive m) ei
                   (ud_id m) (ud_label m) (ud_category m) base
                   None
                   (m_sprite m)
      else
        mkNodeMesh (m_position m) scale1 (m_color m) (m_emissive m) ei
                   (ud_id m) (ud_label m) (ud_category m) base
                   (Some (mkPulse t (pulse_duration pulse) (pulse_peak pulse)))
                   (m_sprite m)
  | None =>
      let s := m_scale m in
      let scale1 := Vector3.make (MathUtils.lerp (Vector3.x s) base 0.04)
                                 (MathUtils.lerp (Vector3.y s) base 0.04)
                                 (MathUtils.lerp (Vector3.z s) base 0.04) in
      let ei := Math_max 0 (m_emissiveIntensity m - dt * 0.2) in
      mkNodeMesh (m_position m) scale1 (m_color m)
                 (if Qeq_bool ei 0 then 0x000000%Z else m_emissive m) ei
                 (ud_id m) (ud_label m) (ud_category m) base None (m_sprite m)
  end.

(** The body of [for (const p of particlePool)] in [animate]. *)
Definition update_particle (dt : Q) (p : Particle) : Particle :=
  if negb (alive p) then p
  else
    let life' := life p - dt in
    if Qle_bool life' 0 then
      mkParticle false life' (velocity p) (p_position p) (p_scale p)
                 (p_color p) (p_opacity p) false
    else
      mkParticle (alive p) life'
                 (Vector3.multiplyScalar (velocity p) 0.98)
                 (Vector3.addScaledVector (p_position p) (velocity p) dt)
                 (p_scale p) (p_color p)
                 (Math_max 0 (life' / 1.2))
                 (visible p).

(** [nodeGroup.children.forEach((m, idx) => ...)]: the idle oscillation. *)
Definition breathe (elapsed dt : Q) (idx : nat) (m : NodeMesh) : NodeMesh :=
  let off := Math_sin (elapsed * 0.3 + inject_Z (Z.of_nat idx)) * 0.08 in
  let p := m_position m in
  move_mesh (Vector3.make (Vector3.x p) (Vector3.y p + off * dt) (Vector3.z p)) m.

(** One frame: [animate()] with [dt] the value of [clock.getDelta()], which
    has added [dt] to [clock.elapsedTime], and [cam] the camera position
    that [controls.update()] leaves. *)
Definition animate (w : World) (dt : Q) (cam : Vector3.t) : Outcome * World :=
  let w0 := set_clock w (clock_elapsedTime w + dt) in
  let w1 := nodeMap_forEach (animate_mesh dt) w0 in
  let w2 := set_particles w1 (map (update_particle dt) (particlePool w1)) (randoms w1) in
  let w3 := set_lights w2 (MathUtils.lerp (sunLight_intensity w2) 0.8 (dt * 0.6))
                          (MathUtils.lerp (torchLight_intensity w2) 0.0 (dt * 1.2)) in
  let w4 := set_nodeGroup w3 (imap (breathe (clock_elapsedTime w3) dt) (nodeGroup w3)) in
  (Returned, set_camera w4 cam).

(** *** The session *)

Inductive Event :=
| PointerDown (intersects : list Intersection)
| PointerMove (origin dir : Vector3.t)
| PointerUp
| ResetClick
| Frame (dt : Q) (cam : Vector3.t).

Definition handle (w : World) (ev : Event) : Outcome * World :=
  match ev with
  | PointerDown intersects => onPointerDown w intersects
  | PointerMove origin dir => onPointerMove w origin dir
  | PointerUp => onPointerUp w
  | ResetClick => reset w
  | Frame dt cam => animate w dt cam
  end.

(** A handler that throws leaves the state as it was at the throw; the
    page goes on with the next event. *)
Definition step (w : World) (ev : Event) : World := snd (handle w ev).

Definition run (w : World) (evs : list Event) : World := fold_left step evs w.

(** The ray is cast against the meshes held by [nodeMap] and their
    children: every object of [intersects] is such a mesh or its label. *)
Definition is_nodeMap_mesh (w : World) (i : nat) : Prop :=
  exists e, e ∈ JSMap.values (nodeMap w) /\ mesh e = i.

Definition object_index (o : Object3D) : nat :=
  match o with NodeObj i => i | LabelObj i => i end.

Definition event_ok (w : World) (ev : Event) : Prop :=
  match ev with
  | PointerDown intersects =>
      Forall (fun hit => is_nodeMap_mesh w (object_index (object hit))) intersects
  | _ => True
  end.

(** The states of a session that starts in [w0]. *)
Inductive reachable (w0 : World) : World -> Prop :=
| reach_start : reachable w0 w0
| reach_step w ev : reachable w0 w -> event_ok w ev -> reachable w0 (step w ev).

(** *** Vocabulary of the properties *)

(** The number of particles that are alive. *)
Definition alive_count (pool : list Particle) : nat :=
  length (filter (fun p => alive p = true) pool).

(** A mesh as the builder and the reset handler leave it: at its base
    scale, without emissive highlight. *)
Definition at_rest (m : NodeMesh) : Prop :=
  m_scale m = Vector3.setScalar (ud_baseScale m)
  /\ m_emissive m = 0%Z
  /\ m_emissiveIntensity m == 0.

(** What the script keeps true of its state once it is built. *)
Record well_formed (w : World) : Prop := {
  wf_pool : length (particlePool w) = PARTICLE_MAX;
  wf_base : forall i m, nodeGroup w !! i = Some m ->
            ud_baseScale m = size (style_of (ud_category m));
  wf_keys : NoDup (JSMap.keys (nodeMap w));
  wf_map : forall k e, (k, e) ∈ nodeMap w ->
           exists m, nodeGroup w !! mesh e = Some m /\ ud_id m = k;
  wf_rest : forall i m, nodeGroup w !! i = Some m -> is_nodeMap_mesh w i \/ at_rest m;
  wf_lines : forall l, l ∈ edgeGroup w ->
             is_Some (JSMap.get (nodeMap w) (line_a l))
             /\ is_Some (JSMap.get (nodeMap w) (line_b l));
  wf_drag : forall o, dragging w = Some o -> is_nodeMap_mesh w (object_index o)
}.

(** The state during the node loop. *)
Record nodes_built (w : World) : Prop := {
  nb_base : forall i m, nodeGroup w !! i = Some m ->
            ud_baseScale m = size (style_of (ud_category m));
  nb_keys : NoDup (JSMap.keys (nodeMap w));
  nb_map : forall k e, (k, e) ∈ nodeMap w ->
           exists m, nodeGroup w !! mesh e = Some m /\ ud_id m = k;
  nb_rest : forall i m, nodeGroup w !! i = Some m -> at_rest m;
  nb_label : forall i m, nodeGroup w !! i = Some m ->
             labelCanvasCache w !! ud_label m = Some (sprite_map (m_sprite m));
  nb_edges : edgeGroup w = [];
  nb_pool : particlePool w = [];
  nb_drag : dragging w = None
}.

(** Both ids of an edge are keys of [nodeMap]. *)
Definition edge_present (w : World) (ab : string * string) : Prop :=
  is_Some (endpoint_position w ab.1) /\ is_Some (endpoint_position w ab.2).

(** An edge record both of whose ids are ids of node records. *)
Definition edge_resolves (nodes : list NodeRecord) (ab : string * string) : Prop :=
  ab.1 ∈ id <$> nodes /\ ab.2 ∈ id <$> nodes.

#[global] Instance edge_resolves_dec nodes ab : Decision (edge_resolves nodes ab).
Proof. unfold edge_resolves. apply _. Defined.

(** The identity of a mesh: what no handler writes. *)
Definition mesh_kept (m m' : NodeMesh) : Prop :=
  ud_id m' = ud_id m /\ ud_category m' = ud_category m
  /\ ud_baseScale m' = ud_baseScale m /\ ud_label m' = ud_label m
  /\ sprite_map (m_sprite m') = sprite_map (m_sprite m).

(** The look of a mesh: what activation, animation and reset write. *)
Definition look_kept (m m' : NodeMesh) : Prop :=
  m_scale m' = m_scale m /\ m_emissive m' = m_emissive m
  /\ m_emissiveIntensity m' = m_emissiveIntensity m.

(** [g'] has the meshes of [g], each with its identity, and with its look
    unless its index satisfies [P]. *)
Definition evolves (P : nat -> Prop) (g g' : list NodeMesh) : Prop :=
  forall i, match g !! i, g' !! i with
            | Some m, Some m' => mesh_kept m m' /\ (P i \/ look_kept m m')
            | None, None => True
            | _, _ => False
            end.

Definition topology (lines : list Line) : list (string * string) :=
  (fun l => (line_a l, line_b l)) <$> lines.

(** The successor relation of the session on well-formed states. *)
Record follows (w w' : World) : Prop := {
  fo_map : nodeMap w' = nodeMap w;
  fo_nodes : evolves (is_nodeMap_mesh w) (nodeGroup w) (nodeGroup w');
  fo_pool : length (particlePool w') = length (particlePool w);
  fo_lines : topology (edgeGroup w') = topology (edgeGroup w);
  fo_drag : forall o, dragging w' = Some o ->
            dragging w = Some o \/ is_nodeMap_mesh w (object_index o)
}.

(** A frame short enough for the two light decays to be interpolations:
    [dt * 1.2] is at most 1. *)
Definition short_frame (ev : Event) : Prop :=
  match ev with
  | Frame dt _ => 0 <= dt /\ dt * 1.2 <= 1
  | _ => True
  end.

(** [spawnParticles] writes the pool and draws random numbers; the rest of
    the state is as before. *)
Record pool_only (w w' : World) : Prop := {
  po_camera : camera_position w' = camera_position w;
  po_sun : sunLight_intensity w' = sunLight_intensity w;
  po_torch : torchLight_intensity w' = torchLight_intensity w;
  po_nodes : nodeGroup w' = nodeGroup w;
  po_map : nodeMap w' = nodeMap w;
  po_lines : edgeGroup w' = edgeGroup w;
  po_drag : dragging w' = dragging w;
  po_offset : dragOffset w' = dragOffset w;
  po_length : length (particlePool w') = length (particlePool w)
}.

End Script.

(** ** The CSV variant

    The first version of the script loads [nodes.csv] and [edges.csv] and
    keeps [nodeMap] as a plain object from id to mesh. A cell of a parsed
    row is whatever the parser made of it; [truthy] is its truth value and
    [to_key] the property key it converts to. *)

Module Csv.
Section Csv.
Context {cell : Type} (truthy : cell -> bool) (to_key : cell -> string).

Record NodeRow := mkNodeRow {
  n_id : cell; n_category : cell; n_x : cell; n_y : cell; n_z : cell
}.

Record EdgeRow := mkEdgeRow { source : cell; target : cell }.

Record Mesh := mkMesh {
  mesh_color : Z;
  mesh_position : cell * cell * cell;
  mesh_id : cell
}.

Record Scene := mkScene {
  nodeGroup : list Mesh;
  (** id to the index of its mesh in [nodeGroup] *)
  nodeMap : gmap string nat;
  edgeGroup : list ((cell * cell * cell) * (cell * cell * cell))
}.

Definition categoryStyle : list (string * Z) :=
  [ ("core"%string, 0x60e6ff%Z); ("light"%string, 0xffd17a%Z);
    ("usage"%string, 0x9be76b%Z); ("property"%string, 0xd78fff%Z);
    ("constraint"%string, 0xff8b8b%Z); ("process"%string, 0xa7c0ff%Z) ].

(** The callback of [nodeData.forEach], for ids and categories that are
    not names of members of [Object.prototype] ([nodeMap] and
    [categoryStyle] are plain objects). *)
Definition add_node (s : Scene) (n : NodeRow) : Scene :=
  if negb (truthy (n_id n)) then s
  else
    let c := default 0xffffff%Z (own_property categoryStyle (to_key (n_category n))) in
    let m := mkMesh c (n_x n, n_y n, n_z n) (n_id n) in
    mkScene (nodeGroup s ++ [m])
            (<[to_key (n_id n) := length (nodeGroup s)]> (nodeMap s))
            (edgeGroup s).

(** The callback of [edgeData.forEach]: a row without source or target, or
    whose source or target is not in [nodeMap], adds nothing. As
    [add_node], for ids that are not names of members of
    [Object.prototype]. *)
Definition add_edge (s : Scene) (e : EdgeRow) : Scene :=
  if negb (truthy (source e)) || negb (truthy (target e)) then s
  else
    match nodeMap s !! to_key (source e), nodeMap s !! to_key (target e) with
    | Some i, Some j =>
        match nodeGroup s !! i, nodeGroup s !! j with
        | Some a, Some b =>
            mkScene (nodeGroup s) (nodeMap s)
                    (edgeGroup s ++ [(mesh_position a, mesh_position b)])
        | _, _ => s
        end
    | _, _ => s
    end.

Definition load (nodeData : list NodeRow) (edgeData : list EdgeRow) : Scene :=
  fold_left add_edge edgeData (fold_left add_node nodeData (mkScene [] ∅ [])).

(** An edge row both of whose ids are ids of loaded nodes. *)
Definition edge_ok (s : Scene) (e : EdgeRow) : bool :=
  truthy (source e) && truthy (target e)
  && bool_decide (is_Some (nodeMap s !! to_key (source e)))
  && bool_decide (is_Some (nodeMap s !! to_key (target e))).

(** Every index held by [nodeMap] is the index of a mesh. *)
Definition meshes_exist (s : Scene) : Prop :=
  forall k i, nodeMap s !! k = Some i -> (i < length (nodeGroup s))%nat.

End Csv.
End Csv.

(** ** The scene of the script *)

(** A host to run the script on: every random value is 0.5, and a label
    is 24 pixels wide for each character. *)
(** Rounding to the nearest integer, ties to even. *)
Definition round_half_even (q : Q) : Z :=
  let f := Qfloor q in
  match Qcompare (q - inject_Z f) (1 # 2) with
  | Lt => f
  | Gt => (f + 1)%Z
  | Eq => if Z.even f then f else (f + 1)%Z
  end.

(** The exponent [e] with [2 ^ e <= |q| < 2 ^ (e + 1)], for [q] other
    than 0. *)
Definition binary_exponent (q : Q) : Z :=
  let a := Qabs q in
  let e0 := (Z.log2 (Qnum a) - Z.log2 (Z.pos (Qden a)))%Z in
  if Qle_bool (2 ^ e0) a then e0 else (e0 - 1)%Z.

(** [Math.fround] on a number of magnitude below [2 ^ 128] (above, the
    32-bit float is an infinity): the nearest number with a significand of
    24 bits, ties to even; below [2 ^ (-126)] the spacing is that of the
    subnormal numbers. *)
Definition fround32 (q : Q) : Q :=
  if Qeq_bool q 0 then 0
  else
    let ulp := 2 ^ (Z.max (binary_exponent q) (-126) - 23) in
    inject_Z (round_half_even (q / ulp)) * ulp.

Definition demo_host : Host :=
  {| Math_random := fun _ => 0.5;
     Math_sin := fun _ => 0;
     Math_PI := 3.14159;
     distanceTo := fun _ _ => 1;
     measureText_width := fun s => inject_Z (Z.of_nat (String.length s)) * 24;
     Math_fround := fround32 |}.

(** The [nodes] and [edges] arrays of the script. *)
Definition nodes : list NodeRecord :=
  [ mkNodeRecord "Material" "Responsive Material" "core" (Some (Vector3.make 0 0 0));
    mkNodeRecord "Sun" "Sun (ambient light)" "light" (Some (Vector3.make 50 40 (-20)));
    mkNodeRecord "Torch" "Torch / Lamp" "light" (Some (Vector3.make (-50) 18 8));
    mkNodeRecord "Wrapping" "Wrapping / Cover" "usage" (Some (Vector3.make 24 (-10) 12));
    mkNodeRecord "Body" "Product Body" "usage" (Some (Vector3.make (-28) (-12) 14));
    mkNodeRecord "Feeding" "Pet Feeding Use" "usecase" (Some (Vector3.make 0 (-28) 0));
    mkNodeRecord "Responsivity" "Responsivity Modes" "property"
                 (Some (Vector3.make 0 20 (-20)));
    mkNodeRecord "Thermo" "Thermochromic" "property" (Some (Vector3.make 18 28 (-5)));
    mkNodeRecord "Hydro" "Hydrochromic" "property" (Some (Vector3.make (-18) 28 (-5)));
    mkNodeRecord "Safety" "Safety / Non-toxic" "constraint"
                 (Some (Vector3.make (-48) (-28) (-10)));
    mkNodeRecord "Cleaning" "Cleaning / Durability" "constraint"
                 (Some (Vector3.make 48 (-28) (-10)));
    mkNodeRecord "Manufacture" "Manufacturability" "process"
                 (Some (Vector3.make 0 40 18)) ].

Definition edges : list (string * string) :=
  [ ("Material"%string, "Sun"%string);
    ("Material"%string, "Torch"%string);
    ("Material"%string, "Wrapping"%string);
    ("Material"%string, "Body"%string);
    ("Material"%string, "Responsivity"%string);
    ("Responsivity"%string, "Thermo"%string);
    ("Responsivity"%string, "Hydro"%string);
    ("Body"%string, "Feeding"%string);
    ("Wrapping"%string, "Feeding"%string);
    ("Material"%string, "Safety"%string);
    ("Material"%string, "Cleaning"%string);
    ("Material"%string, "Manufacture"%string) ].

(** The state in which the session of the script starts. *)
Definition demo_world : World := snd (@build demo_host nodes edges).

(** The node "Sun" as the builder leaves it, and its entry in [nodeMap]. *)
Definition demo_sun_mesh : NodeMesh :=
  mkNodeMesh (Vector3.make 50 40 (-20)) (Vector3.setScalar 2.1) 0xffd17a 0x000000 0.0
             "Sun" "Sun (ambient light)" "light" 2.1 None
             (mkSprite (mkTexture 1 "Sun (ambient light)" 480 72)
                       (Vector3.make 12 3.6 1) (Vector3.make 0 (2.1 + 1.4) 0)).

Definition demo_sun_entry : NodeEntry :=
  mkNodeEntry 1 (mkNodeRecord "Sun" "Sun (ambient light)" "light"
                              (Some (Vector3.make 50 40 (-20)))).

(** A pointer-down on the sphere of "Sun", and the state it leaves: "Sun"
    is dragged, pulsing, and eight particles are alive. *)
Definition demo_hit_sun : Event :=
  PointerDown [mkIntersection (NodeObj 1) (Vector3.make 50 41 (-20))].

Definition demo_dragging_world : World := @step demo_host demo_world demo_hit_sun.

(** One activation of "Sun", and a drag of it along the ray from the camera. *)
Definition demo_activate_sun (w : World) : World :=
  snd (@onNodeActivate demo_host w (Some demo_sun_entry)).

Definition demo_dragged_world : World :=
  @step demo_host demo_dragging_world
        (PointerMove (Vector3.make 0 30 80) (Vector3.make 1 0 0)).

(** Two nodes with one label. *)
Definition shared_label_nodes : list NodeRecord :=
  [ mkNodeRecord "A" "Same" "core" (Some (Vector3.make 0 0 0));
    mkNodeRecord "B" "Same" "light" (Some (Vector3.make 1 1 1)) ].

Definition shared_label_world : World := snd (@build demo_host shared_label_nodes []).

(** Cells of a parsed CSV row as optional strings: an empty cell is
    [null], and [null] and the empty string are falsy. *)
Definition cell_truthy (c : option string) : bool :=
  match c with
  | Some s => negb (String.eqb s EmptyString)
  | None => false
  end.

Definition cell_key (c : option string) : string := default "null"%string c.

Definition csv_nodes : list (@Csv.NodeRow (option string)) :=
  [ Csv.mkNodeRow (Some "Sun"%string) (Some "light"%string)
                  (Some "50"%string) (Some "40"%string) (Some "-20"%string);
    Csv.mkNodeRow None (Some "core"%string) None None None;
    Csv.mkNodeRow (Some "Torch"%string) (Some "light"%string)
                  (Some "-50"%string) (Some "18"%string) (Some "8"%string) ].

Definition csv_edges : list (@Csv.EdgeRow (option string)) :=
  [ Csv.mkEdgeRow (Some "Sun"%string) (Some "Torch"%string);
    Csv.mkEdgeRow (Some "Sun"%string) (Some "Moon"%string);
    Csv.mkEdgeRow (Some "Sun"%string) None ].

(** A scene with an edge to a node that does not exist. *)
Definition dangling_nodes : list NodeRecord :=
  [ mkNodeRecord "A" "A" "core" (Some (Vector3.make 0 0 0)) ].

Definition dangling_edges : list (string * string) := [ ("A"%string, "B"%string) ].

(** ** More of the script *)





(** Equality of vectors as numbers. *)
Definition vec_eq (a b : Vector3.t) : Prop :=
  Vector3.x a == Vector3.x b /\ Vector3.y a == Vector3.y b /\ Vector3.z a == Vector3.z b.

(** A run of frames, each with its elapsed time and the camera position the
    controller leaves. *)
Definition frames (fs : list (Q * Vector3.t)) : list Event :=
  (fun f => Frame f.1 f.2) <$> fs.

Definition Qsum (l : list Q) : Q := fold_right Qplus 0 l.

(** A frame whose elapsed time is not negative. *)
Definition forward_frame (ev : Event) : Prop :=
  match ev with
  | Frame dt _ => 0 <= dt
  | _ => True
  end.

(** [p] after the particle loops of the frames [dts]. *)
Definition age_particle (dts : list Q) (p : Particle) : Particle :=
  fold_left (fun q dt => update_particle dt q) dts p.

(** The pulse of a mesh after the animation step of a frame: advanced by
    [dt], and deleted once it is more than 0.2 past its duration. *)
Definition age_pulse (dt : Q) (o : option Pulse) : option Pulse :=
  match o with
  | Some pulse =>
      let t := pulse_t pulse + dt in
      if Qgt_bool t (pulse_duration pulse + 0.2) then None
      else Some (mkPulse t (pulse_duration pulse) (pulse_peak pulse))
  | None => None
  end.

(** The label cache maps every string to a texture of that string; the
    textures are as many as the strings, and no two have one identity. *)
Record cache_inv (w : World) : Prop := {
  ci_text : forall k t, labelCanvasCache w !! k = Some t -> tex_text t = k;
  ci_fresh : forall k t, labelCanvasCache w !! k = Some t -> (tex_uid t < textures w)%nat;
  ci_count : textures w = base.size (labelCanvasCache w);
  ci_inj : forall k1 k2 t1 t2,
             labelCanvasCache w !! k1 = Some t1 -> labelCanvasCache w !! k2 = Some t2 ->
             tex_uid t1 = tex_uid t2 -> k1 = k2
}.

(** The emissive highlight of a mesh is within what the activation sets,
    its colours are those of its category, and its pulse, if any, is the
    one the activation starts, some time on and not yet over. *)
Definition look_ok (m : NodeMesh) : Prop :=
  0 <= m_emissiveIntensity m /\ m_emissiveIntensity m <= 0.9
  /\ (m_emissive m = 0%Z \/ m_emissive m = color (style_of (ud_category m)))
  /\ m_color m = color (style_of (ud_category m))
  /\ match ud_pulse m with
     | Some pulse => pulse_duration pulse = 0.6
                     /\ pulse_peak pulse = num_or (ud_baseScale m) 1.0 * 1.6
                     /\ pulse_t pulse <= pulse_duration pulse + 0.2
     | None => True
     end.

Section MoreVocabulary.
Context `{Host}.

(** The mesh that the node loop makes of the record [n]. *)
Definition mesh_of_record (n : NodeRecord) (m : NodeMesh) : Prop :=
  let st := style_of (category n) in
  ud_id m = id n /\ ud_label m = label n /\ ud_category m = category n
  /\ ud_baseScale m = size st
  /\ m_scale m = Vector3.setScalar (size st)
  /\ m_color m = color st
  /\ m_emissive m = 0%Z /\ m_emissiveIntensity m = 0.0
  /\ ud_pulse m = None
  /\ sprite_scale (m_sprite m) = Vector3.make 12 3.6 1
  /\ sprite_position (m_sprite m) = Vector3.make 0 (size st + 1.4) 0
  /\ tex_text (sprite_map (m_sprite m)) = label n
  /\ (forall p, position n = Some p -> m_position m = p)
  /\ (position n = None ->
      exists r, m_position m = Vector3.make ((Math_random r - 0.5) * 40)
                                            ((Math_random (r + 1) - 0.5) * 20)
                                            ((Math_random (r + 2) - 0.5) * 40)).

(** One frame for the mesh of index [idx]: the animation step when
    [nodeMap] holds the mesh, then the idle oscillation. *)
Definition frame_mesh (w : World) (dt : Q) (idx : nat) (m : NodeMesh) : NodeMesh :=
  breathe (clock_elapsedTime w + dt) dt idx
          (if bool_decide (idx ∈ mesh <$> JSMap.values (nodeMap w))
           then animate_mesh dt m else m).

End MoreVocabulary.

(** ** The handlers of the CSV variant

    A click scales the sphere it hits to 3 and starts a timer of 400 ms that
    scales it to 2; timers of one delay fire in the order they were
    started. [is_string c s] is [c === s]. *)

Module CsvView.
Section CsvView.
Context {cell : Type} (is_string : cell -> string -> bool).

Record Page := mkPage {
  scene : @Csv.Scene cell;
  (** [mesh.scale] of the meshes of [nodeGroup], by index *)
  scales : list Vector3.t;
  sunLight : Q;
  torchLight : Q;
  camera : Vector3.t;
  (** the meshes of the pending timers, oldest first *)
  timers : list nat
}.

(** The page once the two files are loaded: a new mesh has scale 1. *)
Definition loaded (s : @Csv.Scene cell) : Page :=
  mkPage s (replicate (length (Csv.nodeGroup s)) (Vector3.setScalar 1))
         0.8 0 (Vector3.make 0 30 80) [].

(** [onPointerDown(ev)], given the indices of the meshes the ray hits. *)
Definition onPointerDown (pg : Page) (intersects : list nat) : Page :=
  match intersects with
  | i :: _ =>
      match Csv.nodeGroup (scene pg) !! i with
      | Some m =>
          mkPage (scene pg)
                 (<[i := Vector3.make 3 3 3]> (scales pg))
                 (if is_string (Csv.mesh_id m) "Sun" then 2 else sunLight pg)
                 (if is_string (Csv.mesh_id m) "Torch" then 2 else torchLight pg)
                 (camera pg)
                 (timers pg ++ [i])
      | None => pg
      end
  | [] => pg
  end.

(** The oldest pending timer fires: [mesh.scale.set(2,2,2)]. *)
Definition onTimeout (pg : Page) : Page :=
  match timers pg with
  | i :: rest =>
      mkPage (scene pg) (<[i := Vector3.make 2 2 2]> (scales pg))
             (sunLight pg) (torchLight pg) (camera pg) rest
  | [] => pg
  end.

(** [resetBtn.onclick] *)
Definition onReset (pg : Page) : Page :=
  mkPage (scene pg) (scales pg) 0.8 0 (Vector3.make 0 30 80) (timers pg).

Inductive Event := Click (intersects : list nat) | Timeout | Reset.

Definition step (pg : Page) (ev : Event) : Page :=
  match ev with
  | Click intersects => onPointerDown pg intersects
  | Timeout => onTimeout pg
  | Reset => onReset pg
  end.

Definition run (pg : Page) (evs : list Event) : Page := fold_left step evs pg.

(** Some click of [evs] had the mesh of index [i] as its first hit. *)
Definition clicked (i : nat) (evs : list Event) : Prop :=
  exists rest, Click (i :: rest) ∈ evs.

End CsvView.
End CsvView.

(** The CSV variant keeps [nodeMap] and [categoryStyle] in plain objects,
    where a key such as "constructor" or "__proto__" reaches
    [Object.prototype] and not an entry of the object.  The properties of
    the loader are stated for the other keys. *)
Definition Object_prototype_keys : list string :=
  [ "constructor"; "__defineGetter__"; "__defineSetter__"; "hasOwnProperty";
    "__lookupGetter__"; "__lookupSetter__"; "isPrototypeOf";
    "propertyIsEnumerable"; "toString"; "valueOf"; "__proto__";
    "toLocaleString" ]%string.

Definition plain_key (k : string) : Prop := k ∉ Object_prototype_keys.

Section CsvVocabulary.
Context {cell : Type} (to_key : cell -> string).

(** [nodeMap] holds, for a key, the last mesh of [nodeGroup] with that
    key. *)
Definition csv_last_index (s : @Csv.Scene cell) : Prop :=
  forall k i,
    Csv.nodeMap s !! k = Some i
    <-> (exists m, Csv.nodeGroup s !! i = Some m /\ to_key (Csv.mesh_id m) = k)
        /\ (forall j m', (i < j)%nat -> Csv.nodeGroup s !! j = Some m' ->
              to_key (Csv.mesh_id m') <> k).

End CsvVocabulary.

(** The product of a list of numbers. *)
Definition Qprod (l : list Q) : Q := fold_right Qmult 1 l.

(** A particle as the session keeps it: drawn exactly when alive, alive
    with a life between 0 and the 1.3 a spawn gives at most, and with an
    opacity that is not negative. *)
Definition particle_ok (p : Particle) : Prop :=
  visible p = alive p
  /\ (alive p = true -> 0 < life p /\ life p <= 1.3)
  /\ 0 <= p_opacity p.

(** ** More sample data *)

(** A node whose position the script draws at random. *)
Definition unplaced_nodes : list NodeRecord := [ mkNodeRecord "A" "A" "core" None ].

(** Two frames of a quarter of a second each, and a short session: a
    pointer-down on "Sun", a frame, a reset. *)
Definition demo_frames : list (Q * Vector3.t) :=
  [ (0.25, Vector3.make 0 30 80); (0.25, Vector3.make 0 30 80) ].

Definition demo_session : list Event :=
  [ demo_hit_sun; Frame 0.25 (Vector3.make 0 30 80); ResetClick ].

(** The first particle of the burst of the pointer-down on "Sun". *)
Definition demo_first_particle : Particle :=
  default new_particle (particlePool demo_dragging_world !! 0%nat).

(** The scene after a pointer-down on the sphere of "Torch": the torch
    light is at 1.6. *)
Definition demo_torch_world : World :=
  @step demo_host demo_world
        (PointerDown [mkIntersection (NodeObj 2) (Vector3.make (-50) 19 8)]).

(** "Sun" dragged to x = 58.1, which is not a 32-bit float. *)
Definition demo_fine_dragged_world : World :=
  @step demo_host demo_dragging_world
        (PointerMove (Vector3.make 57.1 30 80) (Vector3.make 1 0 0)).

(** [c === s] on the cells of the sample rows, and the page of the first
    variant once the sample rows are loaded. *)
Definition cell_is (c : option string) (s : string) : bool :=
  match c with
  | Some t => String.eqb t s
  | None => false
  end.

Definition csv_page : @CsvView.Page (option string) :=
  CsvView.loaded (Csv.load cell_truthy cell_key csv_nodes csv_edges).



(** * Properties *)

(** ** Numbers *)

Lemma Math_min_le_l (a b : Q) : Math_min a b <= a.
Proof.
  unfold Math_min. destruct (Qle_bool a b) eqn:E; [lra|].
  destruct (Qlt_le_dec a b) as [Hlt|Hle]; [|exact Hle].
  apply Qlt_le_weak, Qle_bool_iff in Hlt. congruence.
Qed.

Lemma Math_min_r (a b : Q) : b <= a -> Math_min a b == b.
Proof.
  intros Hle. unfold Math_min. destruct (Qle_bool a b) eqn:E; [|reflexivity].
  apply Qle_bool_iff in E. lra.
Qed.

Lemma Math_max_pos (b : Q) : 0 < b -> Math_max 0 b = b.
Proof.
  intros Hb. unfold Math_max. destruct (Qle_bool 0 b) eqn:E; [reflexivity|].
  apply Qlt_le_weak, Qle_bool_iff in Hb. congruence.
Qed.

Lemma Qle_bool_false (a b : Q) : Qle_bool a b = false <-> b < a.
Proof.
  split.
  - intros E. destruct (Qlt_le_dec b a) as [Hlt|Hle]; [exact Hlt|].
    apply Qle_bool_iff in Hle. congruence.
  - intros Hlt. destruct (Qle_bool a b) eqn:E; [|reflexivity].
    apply Qle_bool_iff in E. lra.
Qed.

(** ** The particle pool *)

Section Pool.
Context `{Host}.

Lemma first_idle_spec (pool : list Particle) (i : nat) :
  first_idle pool = Some i <->
  (exists p, pool !! i = Some p /\ alive p = false) /\
  (forall j q, (j < i)%nat -> pool !! j = Some q -> alive q = true).
Proof.
  revert i. induction pool as [|p pool IH]; intros i; simpl.
  - split; [discriminate|]. intros [[q [Hq _]] _]. discriminate.
  - destruct (alive p) eqn:Ep.
    + split.
      * intros Hi. destruct (first_idle pool) as [k|] eqn:Ek; [|discriminate].
        simpl in Hi. injection Hi as <-. destruct (proj1 (IH k) eq_refl) as [Hk Hbefore].
        split; [exact Hk|]. intros [|j] q Hj Hq; simpl in Hq.
        -- congruence.
        -- apply (Hbefore j); [lia|exact Hq].
      * intros [[q [Hq Hidle]] Hbefore]. destruct i as [|i]; simpl in Hq.
        -- congruence.
        -- rewrite (proj2 (IH i)); [reflexivity|]. split; [eauto|].
           intros j r Hj Hr. apply (Hbefore (S j)); [lia|exact Hr].
    + split.
      * intros Hi. injection Hi as <-. split; [eauto|]. intros j q Hj. lia.
      * intros [_ Hbefore]. destruct i as [|i]; [reflexivity|].
        specialize (Hbefore 0%nat p). simpl in Hbefore.
        rewrite Hbefore in Ep; [discriminate|lia|reflexivity].
Qed.

Lemma first_idle_None (pool : list Particle) :
  first_idle pool = None <-> (forall i p, pool !! i = Some p -> alive p = true).
Proof.
  induction pool as [|p pool IH]; simpl.
  - split; [|reflexivity]. intros _ i p Hp. discriminate.
  - destruct (alive p) eqn:Ep.
    + destruct (first_idle pool) as [k|]; simpl.
      * split; [discriminate|]. intros Hall.
        enough (Hn : Some k = None) by discriminate. apply IH.
        intros i q Hq. apply (Hall (S i)). exact Hq.
      * split; [|reflexivity]. intros _ [|i] q Hq; simpl in Hq.
        -- congruence.
        -- apply (proj1 IH eq_refl i). exact Hq.
    + split; [discriminate|]. intros Hall. specialize (Hall 0%nat p eq_refl). congruence.
Qed.

Lemma spawnParticles_length (w : World) origin c :
  length (particlePool (spawnParticles w origin c)) = length (particlePool w).
Proof.
  unfold spawnParticles. destruct (first_idle (particlePool w)); simpl; [|reflexivity].
  apply length_alter.
Qed.

Lemma spawnParticles_iter_length (n : nat) (w : World) origin c :
  length (particlePool (Nat.iter n (fun w' => spawnParticles w' origin c) w))
  = length (particlePool w).
Proof.
  induction n as [|n IH]; simpl; [reflexivity|]. now rewrite spawnParticles_length.
Qed.

Lemma alive_count_le (pool : list Particle) : (alive_count pool <= length pool)%nat.
Proof. apply length_filter. Qed.

End Pool.

Section ParticleClaims.
Context `{Host}.

Lemma first_idle_le (pool : list Particle) (i : nat) (p : Particle) :
  pool !! i = Some p -> alive p = false ->
  exists j, (j <= i)%nat /\ first_idle pool = Some j.
Proof.
  revert i. induction pool as [|q pool IH]; intros i Hp Hidle; [discriminate|].
  simpl. destruct (alive q) eqn:Eq.
  - destruct i as [|i]; simpl in Hp; [congruence|].
    destruct (IH i Hp Hidle) as [j [Hj Hf]]. exists (S j). rewrite Hf. split; [lia|reflexivity].
  - exists 0%nat. split; [lia|reflexivity].
Qed.

(** C10. A call of [spawnParticles] changes at most one particle of the
    pool: every particle other than the first idle one, which the call
    claims, is after the call what it was before it (alive flag, life,
    velocity, position, scale, colour, opacity and visibility), and the
    pool keeps its length. *)
Theorem spawnParticles_touches_one_slot (w : World) (origin : Vector3.t) (c : option Z) :
  (forall j, first_idle (particlePool w) <> Some j ->
             particlePool (spawnParticles w origin c) !! j = particlePool w !! j)
  /\ length (particlePool (spawnParticles w origin c)) = length (particlePool w).
Proof.
  split; [|apply spawnParticles_length].
  intros j Hj. unfold spawnParticles.
  destruct (first_idle (particlePool w)) as [i|]; simpl; [|reflexivity].
  apply list_lookup_alter_ne. congruence.
Qed.

(** C7. When [Math.random()] returns values of [0, 1): a call of
    [spawnParticles(origin, color)] on a pool whose first idle particle is
    at slot [i] makes that slot alive, with a life between 0.7 and 1.3, the
    velocity drawn from three random values (upward, within 3 of the origin
    sideways), the position [origin], the given colour, opacity 1 and
    visible, and changes no other slot; on a pool without an idle particle
    the call changes nothing. *)
Theorem spawnParticles_claims_first_idle
    (Hrand : forall k, 0 <= Math_random k /\ Math_random k < 1)
    (w : World) (origin : Vector3.t) (c : Z) :
  (forall i p,
      particlePool w !! i = Some p -> alive p = false ->
      (forall j q, (j < i)%nat -> particlePool w !! j = Some q -> alive q = true) ->
      exists p',
        particlePool (spawnParticles w origin (Some c)) !! i = Some p'
        /\ alive p' = true
        /\ 0.7 <= life p' /\ life p' <= 1.3
        /\ velocity p' = Vector3.make ((Math_random (randoms w + 2) - 0.5) * 6)
                                      (Math_random (randoms w + 3) * 6)
                                      ((Math_random (randoms w + 4) - 0.5) * 6)
        /\ -3 <= Vector3.x (velocity p') /\ Vector3.x (velocity p') < 3
        /\ 0 <= Vector3.y (velocity p') /\ Vector3.y (velocity p') < 6
        /\ -3 <= Vector3.z (velocity p') /\ Vector3.z (velocity p') < 3
        /\ p_position p' = origin
        /\ p_color p' = c
        /\ p_opacity p' == 1
        /\ visible p' = true
        /\ (forall j, j <> i ->
              particlePool (spawnParticles w origin (Some c)) !! j = particlePool w !! j))
  /\ ((forall i p, particlePool w !! i = Some p -> alive p = true) ->
      spawnParticles w origin (Some c) = w).
Proof.
  split.
  - intros i p Hp Hidle Hbefore.
    assert (Hfirst : first_idle (particlePool w) = Some i).
    { apply first_idle_spec. split; [eauto|exact Hbefore]. }
    unfold spawnParticles. rewrite Hfirst. simpl.
    exists (claim_particle (randoms w) origin c p).
    split; [rewrite list_lookup_alter_eq, Hp; reflexivity|].
    pose proof (Hrand (randoms w)) as [H0a H0b].
    pose proof (Hrand (randoms w + 2)%nat) as [H2a H2b].
    pose proof (Hrand (randoms w + 3)%nat) as [H3a H3b].
    pose proof (Hrand (randoms w + 4)%nat) as [H4a H4b].
    simpl. repeat split; try reflexivity; try lra.
    intros j Hj. apply list_lookup_alter_ne. congruence.
  - intros Hall. apply first_idle_None in Hall.
    unfold spawnParticles. rewrite Hall. reflexivity.
Qed.

Lemma update_particle_lookup (w : World) (dt : Q) (cam : Vector3.t) (i : nat) :
  particlePool (snd (animate w dt cam)) !! i = update_particle dt <$> particlePool w !! i.
Proof. simpl. apply list_lookup_fmap. Qed.

(** C6. In a frame with elapsed time [dt], a particle that is alive has its
    life decreased by [dt]. If the new life is at most 0 the particle is
    idle and invisible, and a later spawn finds an idle slot at or before
    it. Otherwise it stays alive, its position advances by [dt] times the
    velocity it had, its velocity is multiplied by 0.98 whatever [dt] is,
    and its opacity is the new life divided by 1.2. A particle that is not
    alive is left as it is. *)
Theorem animate_updates_particles (w : World) (dt : Q) (cam : Vector3.t)
    (i : nat) (p : Particle) :
  particlePool w !! i = Some p ->
  exists p',
    particlePool (snd (animate w dt cam)) !! i = Some p'
    /\ (alive p = false -> p' = p)
    /\ (alive p = true ->
        life p' = life p - dt
        /\ (life p - dt <= 0 ->
            alive p' = false /\ visible p' = false
            /\ exists j, (j <= i)%nat
                 /\ first_idle (particlePool (snd (animate w dt cam))) = Some j)
        /\ (0 < life p - dt ->
            alive p' = true
            /\ p_position p' = Vector3.addScaledVector (p_position p) (velocity p) dt
            /\ velocity p' = Vector3.multiplyScalar (velocity p) 0.98
            /\ p_opacity p' = life p' / 1.2
            /\ visible p' = visible p)).
Proof.
  intros Hp. exists (update_particle dt p).
  assert (Hlook : particlePool (snd (animate w dt cam)) !! i = Some (update_particle dt p)).
  { rewrite update_particle_lookup, Hp. reflexivity. }
  split; [exact Hlook|]. split.
  - intros Hidle. unfold update_particle. rewrite Hidle. reflexivity.
  - intros Halive. unfold update_particle. rewrite Halive. simpl.
    destruct (Qle_bool (life p - dt) 0) eqn:E; simpl.
    + split; [reflexivity|]. split.
      * intros _. split; [reflexivity|]. split; [reflexivity|].
        apply (first_idle_le _ i (update_particle dt p)); [exact Hlook|].
        unfold update_particle. rewrite Halive. simpl. rewrite E. reflexivity.
      * intros Hpos. apply Qle_bool_iff in E. lra.
    + split; [reflexivity|]. apply Qle_bool_false in E. split.
      * intros Hle. lra.
      * intros _. repeat split; try assumption.
        apply Math_max_pos. apply Qlt_shift_div_l; lra.
Qed.

End ParticleClaims.

(** ** The node map *)

Section NodeMap.
Context {V : Type}.
Implicit Types (m : JSMap.t V) (k : string) (v : V).

Lemma JSMap_get_elem m k v : JSMap.get m k = Some v -> (k, v) ∈ m.
Proof.
  induction m as [|[k' v'] m IH]; simpl; [discriminate|].
  destruct (String.eqb_spec k' k) as [->|Hne].
  - intros [= ->]. apply list_elem_of_here.
  - intros Hg. apply list_elem_of_further, IH, Hg.
Qed.

Lemma JSMap_elem_key m k v : (k, v) ∈ m -> k ∈ JSMap.keys m.
Proof. intros Hin. apply (list_elem_of_fmap_2 fst) in Hin. exact Hin. Qed.

Lemma JSMap_elem_value m k v : (k, v) ∈ m -> v ∈ JSMap.values m.
Proof. intros Hin. apply (list_elem_of_fmap_2 snd) in Hin. exact Hin. Qed.

Lemma JSMap_value_elem m v : v ∈ JSMap.values m -> exists k, (k, v) ∈ m.
Proof.
  intros Hin. apply list_elem_of_fmap in Hin as [[k v'] [-> Hin]]. exists k. exact Hin.
Qed.

Lemma JSMap_elem_get m k v : NoDup (JSMap.keys m) -> (k, v) ∈ m -> JSMap.get m k = Some v.
Proof.
  induction m as [|[k' v'] m IH]; simpl; intros Hnd Hin.
  - inversion Hin.
  - apply NoDup_cons in Hnd as [Hk' Hnd].
    apply elem_of_cons in Hin as [[= -> ->]|Hin].
    + rewrite String.eqb_refl. reflexivity.
    + destruct (String.eqb_spec k' k) as [->|Hne]; [|apply IH; assumption].
      exfalso. apply Hk'. apply (JSMap_elem_key _ _ _ Hin).
Qed.

Lemma JSMap_get_value m k v : JSMap.get m k = Some v -> v ∈ JSMap.values m.
Proof. intros Hg. eapply JSMap_elem_value, JSMap_get_elem, Hg. Qed.

Lemma JSMap_get_set_eq m k v : JSMap.get (JSMap.set m k v) k = Some v.
Proof.
  induction m as [|[k0 v0] m IH]; simpl.
  - rewrite String.eqb_refl. reflexivity.
  - destruct (String.eqb_spec k0 k) as [->|Hne]; simpl.
    + rewrite String.eqb_refl. reflexivity.
    + destruct (String.eqb_spec k0 k); [contradiction|exact IH].
Qed.

Lemma JSMap_get_set_ne m k v k' : k' <> k -> JSMap.get (JSMap.set m k v) k' = JSMap.get m k'.
Proof.
  intros Hne. induction m as [|[k0 v0] m IH]; simpl.
  - destruct (String.eqb_spec k k'); [congruence|reflexivity].
  - destruct (String.eqb_spec k0 k) as [->|Hne0]; simpl.
    + destruct (String.eqb_spec k k'); [congruence|reflexivity].
    + destruct (String.eqb_spec k0 k'); [reflexivity|exact IH].
Qed.

Lemma JSMap_set_key m k v k' : k' ∈ JSMap.keys (JSMap.set m k v) -> k' = k \/ k' ∈ JSMap.keys m.
Proof.
  induction m as [|[k0 v0] m IH]; simpl.
  - intros Hin. apply list_elem_of_singleton in Hin. left. exact Hin.
  - destruct (String.eqb_spec k0 k) as [->|Hne]; simpl; intros Hin.
    + right. exact Hin.
    + apply elem_of_cons in Hin as [->|Hin].
      * right. apply list_elem_of_here.
      * destruct (IH Hin) as [->|Hin']; [left; reflexivity|].
        right. apply list_elem_of_further, Hin'.
Qed.

Lemma JSMap_set_NoDup m k v : NoDup (JSMap.keys m) -> NoDup (JSMap.keys (JSMap.set m k v)).
Proof.
  induction m as [|[k0 v0] m IH]; simpl; intros Hnd.
  - apply NoDup_singleton.
  - destruct (String.eqb_spec k0 k) as [->|Hne]; simpl; [exact Hnd|].
    apply NoDup_cons in Hnd as [Hk0 Hnd]. apply NoDup_cons. split; [|apply IH, Hnd].
    intros Hin. apply JSMap_set_key in Hin as [->|Hin]; [congruence|contradiction].
Qed.

(** An entry of the map after [set]: the new one, or an old one under
    another key. *)
Lemma JSMap_set_elem m k v k' v' :
  NoDup (JSMap.keys m) ->
  (k', v') ∈ JSMap.set m k v -> (k' = k /\ v' = v) \/ (k' <> k /\ (k', v') ∈ m).
Proof.
  intros Hnd Hin.
  pose proof (JSMap_elem_get _ _ _ (JSMap_set_NoDup m k v Hnd) Hin) as Hg.
  destruct (String.eqb_spec k' k) as [->|Hne].
  - rewrite JSMap_get_set_eq in Hg. injection Hg as <-. left. split; reflexivity.
  - rewrite JSMap_get_set_ne in Hg by exact Hne. right. split; [exact Hne|].
    apply JSMap_get_elem, Hg.
Qed.

End NodeMap.

(** ** The scene builder *)

Section Builder.
Context `{Host}.

Lemma makeLabelTexture_spec (w : World) (text : string) :
  let '(t, w') := makeLabelTexture w text in
  labelCanvasCache w' !! text = Some t
  /\ (forall k t0, labelCanvasCache w !! k = Some t0 -> labelCanvasCache w' !! k = Some t0)
  /\ nodeGroup w' = nodeGroup w /\ nodeMap w' = nodeMap w /\ edgeGroup w' = edgeGroup w
  /\ particlePool w' = particlePool w /\ dragging w' = dragging w.
Proof.
  unfold makeLabelTexture. destruct (labelCanvasCache w !! text) as [t|] eqn:E.
  - repeat split; auto.
  - simpl. repeat split; auto.
    + apply lookup_insert_eq.
    + intros k t0 Hk. rewrite lookup_insert_ne; [exact Hk|]. congruence.
Qed.

Lemma node_position_spec (w : World) (n : NodeRecord) :
  let '(p, w') := node_position w n in
  labelCanvasCache w' = labelCanvasCache w
  /\ nodeGroup w' = nodeGroup w /\ nodeMap w' = nodeMap w /\ edgeGroup w' = edgeGroup w
  /\ particlePool w' = particlePool w /\ dragging w' = dragging w.
Proof. unfold node_position. destruct (position n); simpl; repeat split. Qed.

(** What one turn of the node loop adds. *)
Lemma create_node_spec (w : World) (n : NodeRecord) :
  exists pos tex,
    let st := style_of (category n) in
    nodeGroup (create_node w n)
    = nodeGroup w ++ [mkNodeMesh pos (Vector3.setScalar (size st)) (color st) 0x000000 0.0
                                 (id n) (label n) (category n) (size st) None
                                 (mkSprite tex (Vector3.make 12 3.6 1)
                                           (Vector3.make 0 (size st + 1.4) 0))]
    /\ nodeMap (create_node w n)
       = JSMap.set (nodeMap w) (id n) (mkNodeEntry (length (nodeGroup w)) n)
    /\ labelCanvasCache (create_node w n) !! label n = Some tex
    /\ (forall k t0, labelCanvasCache w !! k = Some t0 ->
                     labelCanvasCache (create_node w n) !! k = Some t0)
    /\ edgeGroup (create_node w n) = edgeGroup w
    /\ particlePool (create_node w n) = particlePool w
    /\ dragging (create_node w n) = dragging w.
Proof.
  unfold create_node.
  pose proof (node_position_spec w n) as Hp.
  destruct (node_position w n) as [pos w1].
  destruct Hp as (Hc1 & Hg1 & Hm1 & He1 & Hpp1 & Hd1).
  pose proof (makeLabelTexture_spec w1 (label n)) as Ht.
  destruct (makeLabelTexture w1 (label n)) as [tex w2].
  destruct Ht as (Hc2 & Hkeep & Hg2 & Hm2 & He2 & Hpp2 & Hd2).
  exists pos, tex. simpl.
  rewrite Hg2, Hg1, Hm2, Hm1, He2, He1, Hpp2, Hpp1, Hd2, Hd1.
  repeat split; auto.
  intros k t0 Hk. apply Hkeep. rewrite Hc1. exact Hk.
Qed.

Lemma initial_world_nodes_built : nodes_built initial_world.
Proof.
  split; simpl; try reflexivity; try (intros; discriminate).
  - apply NoDup_nil_2.
  - intros k e Hin. inversion Hin.
Qed.

Lemma create_node_nodes_built (w : World) (n : NodeRecord) :
  nodes_built w -> nodes_built (create_node w n).
Proof.
  intros [Hbase Hkeys Hmap Hrest Hlabel Hedges Hpool Hdrag].
  destruct (create_node_spec w n) as (pos & tex & Hg & Hm & Hc & Hkeep & He & Hp & Hd).
  simpl in Hg.
  split.
  - intros i m. rewrite Hg. intros Hi. apply lookup_snoc_Some in Hi as [[_ Hi]|[_ <-]].
    + eapply Hbase, Hi.
    + reflexivity.
  - rewrite Hm. apply JSMap_set_NoDup, Hkeys.
  - intros k e. rewrite Hm, Hg. intros Hin.
    apply JSMap_set_elem in Hin as [[-> ->]|[_ Hin]]; [| |exact Hkeys].
    + simpl. eexists. split; [apply list_lookup_middle; reflexivity|reflexivity].
    + destruct (Hmap k e Hin) as (m & Hlook & Hid). exists m. split; [|exact Hid].
      rewrite lookup_app_l; [exact Hlook|]. eapply lookup_lt_Some, Hlook.
  - intros i m. rewrite Hg. intros Hi. apply lookup_snoc_Some in Hi as [[_ Hi]|[_ <-]].
    + eapply Hrest, Hi.
    + repeat split.
  - intros i m. rewrite Hg. intros Hi. apply lookup_snoc_Some in Hi as [[_ Hi]|[_ <-]].
    + apply Hkeep. eapply Hlabel, Hi.
    + exact Hc.
  - congruence.
  - congruence.
  - congruence.
Qed.

Lemma create_nodes_nodes_built (nodes : list NodeRecord) (w : World) :
  nodes_built w -> nodes_built (create_nodes w nodes).
Proof.
  revert w. induction nodes as [|n nodes IH]; intros w Hw; simpl; [exact Hw|].
  apply IH, create_node_nodes_built, Hw.
Qed.

(** The keys of [nodeMap] after the node loop are the ids of the records. *)
Lemma create_nodes_keys (nodes : list NodeRecord) (w : World) (k : string) :
  is_Some (JSMap.get (nodeMap (create_nodes w nodes)) k)
  <-> is_Some (JSMap.get (nodeMap w) k) \/ k ∈ id <$> nodes.
Proof.
  revert w. induction nodes as [|n nodes IH]; intros w; simpl.
  - split; [auto|]. intros [Hk|Hk]; [exact Hk|inversion Hk].
  - rewrite IH. destruct (create_node_spec w n) as (_ & _ & _ & Hm & _). rewrite Hm.
    rewrite elem_of_cons.
    destruct (String.eqb_spec k (id n)) as [->|Hne].
    + rewrite JSMap_get_set_eq. split; [auto|]. intros _. left. eauto.
    + rewrite JSMap_get_set_ne by exact Hne. tauto.
Qed.

End Builder.

Section EdgeLoop.
Context `{Host}.

Lemma endpoint_position_ext (w w' : World) (k : string) :
  nodeGroup w' = nodeGroup w -> nodeMap w' = nodeMap w ->
  endpoint_position w' k = endpoint_position w k.
Proof. intros Hg Hm. unfold endpoint_position. rewrite Hg, Hm. reflexivity. Qed.

Lemma endpoint_position_key (w : World) (k : string) :
  is_Some (endpoint_position w k) -> is_Some (JSMap.get (nodeMap w) k).
Proof.
  unfold endpoint_position. destruct (JSMap.get (nodeMap w) k); [eauto|].
  intros [p Hp]. discriminate.
Qed.

Lemma nodes_built_endpoint (w : World) (k : string) :
  nodes_built w ->
  is_Some (JSMap.get (nodeMap w) k) -> is_Some (endpoint_position w k).
Proof.
  intros Hw [e He]. unfold endpoint_position. rewrite He.
  destruct (nb_map w Hw k e (JSMap_get_elem _ _ _ He)) as (m & Hm & _).
  rewrite Hm. simpl. eauto.
Qed.

Lemma create_edges_frame (edges : list (string * string)) (w : World) :
  let '(o, w') := create_edges w edges in
  nodeGroup w' = nodeGroup w /\ nodeMap w' = nodeMap w
  /\ particlePool w' = particlePool w /\ dragging w' = dragging w
  /\ labelCanvasCache w' = labelCanvasCache w
  /\ (forall l, l ∈ edgeGroup w' ->
        l ∈ edgeGroup w
        \/ (is_Some (JSMap.get (nodeMap w) (line_a l))
            /\ is_Some (JSMap.get (nodeMap w) (line_b l)))).
Proof.
  revert w. induction edges as [|[a b] edges IH]; intros w; simpl.
  - repeat split; auto.
  - destruct (endpoint_position w a) as [pa|] eqn:Ea; [|repeat split; auto].
    destruct (endpoint_position w b) as [pb|] eqn:Eb; [|repeat split; auto].
    specialize (IH (set_edgeGroup w (edgeGroup w ++ [mkLine a b (setFromPoints pa pb)]))).
    destruct (create_edges _ edges) as [o w']. simpl in IH.
    destruct IH as (Hg & Hm & Hp & Hd & Hc & Hl). repeat split; auto.
    intros l Hin. destruct (Hl l Hin) as [Hold|Hnew]; [|right; exact Hnew].
    apply elem_of_app in Hold as [Hold|Hold]; [left; exact Hold|].
    apply list_elem_of_singleton in Hold as ->. right. simpl.
    split; apply endpoint_position_key; [rewrite Ea|rewrite Eb]; eauto.
Qed.

(** The loop returns when every edge has both its nodes, with one line
    more for each edge. *)
Lemma create_edges_returned (edges : list (string * string)) (w : World) :
  Forall (edge_present w) edges ->
  exists w', create_edges w edges = (Returned, w')
             /\ length (edgeGroup w') = (length (edgeGroup w) + length edges)%nat.
Proof.
  revert w. induction edges as [|[a b] edges IH]; intros w Hall; simpl.
  - exists w. split; [reflexivity|lia].
  - apply Forall_cons in Hall as [[[pa Ha] [pb Hb]] Hall]. simpl in Ha, Hb.
    rewrite Ha, Hb.
    destruct (IH (set_edgeGroup w (edgeGroup w ++ [mkLine a b (setFromPoints pa pb)]))) as (w' & Hw' & Hlen).
    + eapply Forall_impl; [exact Hall|]. intros [a' b'] [Ha' Hb']. split; simpl in *.
      * erewrite endpoint_position_ext; [exact Ha'|reflexivity|reflexivity].
      * erewrite endpoint_position_ext; [exact Hb'|reflexivity|reflexivity].
    + exists w'. split; [exact Hw'|]. rewrite Hlen. simpl. rewrite length_app. simpl. lia.
Qed.

(** The loop throws at the first edge one of whose nodes is missing; the
    edges after it get no line. *)
Lemma create_edges_threw (edges : list (string * string)) (w : World) :
  Exists (fun ab => ~ edge_present w ab) edges ->
  exists w', create_edges w edges = (TypeError, w')
             /\ (length (edgeGroup w') < length (edgeGroup w) + length edges)%nat.
Proof.
  revert w. induction edges as [|[a b] edges IH]; intros w Hex; simpl.
  - inversion Hex.
  - destruct (endpoint_position w a) as [pa|] eqn:Ea; [|exists w; split; [reflexivity|lia]].
    destruct (endpoint_position w b) as [pb|] eqn:Eb; [|exists w; split; [reflexivity|lia]].
    apply Exists_cons in Hex as [Hhere|Hex].
    + exfalso. apply Hhere. split; simpl; [rewrite Ea|rewrite Eb]; eauto.
    + destruct (IH (set_edgeGroup w (edgeGroup w ++ [mkLine a b (setFromPoints pa pb)]))) as (w' & Hw' & Hlen).
      * eapply Exists_impl; [exact Hex|]. intros [a' b'] Hn [Ha' Hb']. apply Hn.
        split; simpl in *.
        -- erewrite <- endpoint_position_ext; [exact Ha'|reflexivity|reflexivity].
        -- erewrite <- endpoint_position_ext; [exact Hb'|reflexivity|reflexivity].
      * exists w'. split; [exact Hw'|]. simpl in Hlen. rewrite length_app in Hlen.
        simpl in Hlen. lia.
Qed.

(** After the node loop an id has an endpoint exactly when it is the id of
    a node record. *)
Lemma built_endpoint_iff (nodes : list NodeRecord) (k : string) :
  is_Some (endpoint_position (create_nodes initial_world nodes) k) <-> k ∈ id <$> nodes.
Proof.
  pose proof (create_nodes_nodes_built nodes _ initial_world_nodes_built) as Hw.
  split.
  - intros Hk. apply endpoint_position_key, create_nodes_keys in Hk as [[e He]|Hk].
    + discriminate.
    + exact Hk.
  - intros Hk. apply nodes_built_endpoint; [exact Hw|].
    apply create_nodes_keys. right. exact Hk.
Qed.

(** When the build returns, every edge record resolves and has its line:
    the number of lines is the number of edge records whose two ids exist. *)
Lemma build_returned_edge_count (nodes : list NodeRecord) (edges : list (string * string))
    (w : World) :
  build nodes edges = (Returned, w) ->
  Forall (edge_resolves nodes) edges
  /\ length (edgeGroup w) = length (filter (edge_resolves nodes) edges)
  /\ length (edgeGroup w) = length edges.
Proof.
  unfold build. intros Hb.
  set (w0 := create_nodes initial_world nodes) in *.
  assert (Hall : Forall (edge_resolves nodes) edges).
  { apply Forall_forall. intros [a b] Hin.
    destruct (decide (edge_resolves nodes (a, b))) as [Hok|Hno]; [exact Hok|].
    exfalso.
    destruct (create_edges_threw edges w0) as (w' & Hw' & _).
    - apply Exists_exists. exists (a, b). split; [exact Hin|].
      intros [Ha Hb']. apply Hno. split; simpl in *; apply built_endpoint_iff; assumption.
    - rewrite Hw' in Hb. discriminate. }
  destruct (create_edges_returned edges w0) as (w' & Hw' & Hlen).
  { eapply Forall_impl; [exact Hall|]. intros [a b] [Ha Hb'].
    split; simpl in *; apply built_endpoint_iff; assumption. }
  rewrite Hw' in Hb. injection Hb as <-.
  pose proof (create_nodes_nodes_built nodes _ initial_world_nodes_built) as Hnb.
  fold w0 in Hnb. rewrite (nb_edges _ Hnb) in Hlen. simpl in Hlen.
  split; [exact Hall|]. split; [|simpl; exact Hlen].
  simpl. rewrite Hlen.
  clear -Hall. induction Hall as [|ab edges Hab Hall IH]; [reflexivity|].
  rewrite filter_cons_True by exact Hab. simpl. congruence.
Qed.

(** C1. The edge loop of the module script reads [nodeMap.get(a).mesh]
    without a guard: when an edge record names an id that no node record
    has, the build does not skip it. It throws a [TypeError], gives the
    edges from that one on no line, and never reaches the creation of the
    particle pool. *)
Theorem build_throws_on_dangling_edge (nodes : list NodeRecord)
    (edges : list (string * string)) (a b : string) :
  (a, b) ∈ edges ->
  a ∉ id <$> nodes \/ b ∉ id <$> nodes ->
  exists w, build nodes edges = (TypeError, w)
            /\ (length (edgeGroup w) < length edges)%nat
            /\ particlePool w = [].
Proof.
  intros Hin Hmiss. unfold build.
  pose proof (create_nodes_nodes_built nodes _ initial_world_nodes_built) as Hnb.
  set (w0 := create_nodes initial_world nodes) in *.
  destruct (create_edges_threw edges w0) as (w' & Hw' & Hlen).
  - apply Exists_exists. exists (a, b). split; [exact Hin|].
    intros [Ha Hb]. simpl in Ha, Hb. apply built_endpoint_iff in Ha, Hb. tauto.
  - rewrite Hw'. exists w'. split; [reflexivity|].
    rewrite (nb_edges _ Hnb) in Hlen. simpl in Hlen. split; [exact Hlen|].
    pose proof (create_edges_frame edges w0) as Hf. rewrite Hw' in Hf.
    destruct Hf as (_ & _ & Hp & _). rewrite Hp. apply (nb_pool _ Hnb).
Qed.

End EdgeLoop.

(** ** How the handlers change the scene *)

Section Evolution.
Context `{Host}.

Lemma mesh_kept_refl m : mesh_kept m m.
Proof. repeat split. Qed.

Lemma look_kept_refl m : look_kept m m.
Proof. repeat split. Qed.

Lemma evolves_refl P g : evolves P g g.
Proof.
  intros i. destruct (g !! i); [|exact I].
  split; [apply mesh_kept_refl|right; apply look_kept_refl].
Qed.

Lemma evolves_trans P g1 g2 g3 : evolves P g1 g2 -> evolves P g2 g3 -> evolves P g1 g3.
Proof.
  intros H12 H23 i. specialize (H12 i). specialize (H23 i).
  destruct (g1 !! i) as [m1|], (g2 !! i) as [m2|], (g3 !! i) as [m3|]; try tauto.
  destruct H12 as [(Ha & Hb & Hc & Hd & He) Hl12], H23 as [(Ha' & Hb' & Hc' & Hd' & He') Hl23].
  split; [repeat split; congruence|].
  destruct Hl12 as [HP|(Hx & Hy & Hz)]; [left; exact HP|].
  destruct Hl23 as [HP|(Hx' & Hy' & Hz')]; [left; exact HP|].
  right. repeat split; congruence.
Qed.

Lemma evolves_alter P f i g :
  (forall m, mesh_kept m (f m)) ->
  P i \/ (forall m, look_kept m (f m)) ->
  evolves P g (alter f i g).
Proof.
  intros Hk Hl j. destruct (decide (i = j)) as [->|Hne].
  - rewrite list_lookup_alter_eq. destruct (g !! j) as [m|]; simpl; [|exact I].
    split; [apply Hk|]. destruct Hl as [HP|Hl]; [left; exact HP|right; apply Hl].
  - rewrite list_lookup_alter_ne by exact Hne. apply evolves_refl.
Qed.

Lemma evolves_insert P i m m' g :
  g !! i = Some m -> mesh_kept m m' -> P i -> evolves P g (<[i := m']> g).
Proof.
  intros Hi Hk HP j. destruct (decide (i = j)) as [<-|Hne].
  - rewrite list_lookup_insert_eq by (eapply lookup_lt_Some, Hi). rewrite Hi.
    split; [exact Hk|left; exact HP].
  - rewrite list_lookup_insert_ne by exact Hne. apply evolves_refl.
Qed.

Lemma evolves_imap P (f : nat -> NodeMesh -> NodeMesh) g :
  (forall i m, mesh_kept m (f i m) /\ look_kept m (f i m)) ->
  evolves P g (imap f g).
Proof.
  intros Hf j. rewrite list_lookup_imap. destruct (g !! j) as [m|]; simpl; [|exact I].
  destruct (Hf j m) as [Hk Hl]. split; [exact Hk|right; exact Hl].
Qed.

Lemma evolves_forEach P f (es : list NodeEntry) g :
  (forall m, mesh_kept m (f m)) ->
  (forall e, e ∈ es -> P (mesh e)) ->
  evolves P g (fold_left (fun g e => alter f (mesh e) g) es g).
Proof.
  intros Hk. revert g. induction es as [|e es IH]; intros g HP; simpl.
  - apply evolves_refl.
  - eapply evolves_trans.
    + apply (evolves_alter P f (mesh e) g Hk). left. apply HP, list_elem_of_here.
    + apply IH. intros e' He'. apply HP, list_elem_of_further, He'.
Qed.

Lemma follows_well_formed (w w' : World) : well_formed w -> follows w w' -> well_formed w'.
Proof.
  intros [Hpool Hbase Hkeys Hmap Hrest Hlines Hdrag] [Fm Fn Fp Fl Fd].
  assert (Hmesh : forall i, is_nodeMap_mesh w' i <-> is_nodeMap_mesh w i).
  { intros i. unfold is_nodeMap_mesh. rewrite Fm. reflexivity. }
  split.
  - congruence.
  - intros i m' Hi. specialize (Fn i). rewrite Hi in Fn.
    destruct (nodeGroup w !! i) as [m|] eqn:Em; [|contradiction].
    destruct Fn as [(_ & Hc & Hb & _) _]. rewrite Hc, Hb. eapply Hbase, Em.
  - rewrite Fm. exact Hkeys.
  - rewrite Fm. intros k e Hin. destruct (Hmap k e Hin) as (m & Hm & Hid).
    specialize (Fn (mesh e)). rewrite Hm in Fn.
    destruct (nodeGroup w' !! mesh e) as [m'|]; [|contradiction].
    destruct Fn as [(Hid' & _) _]. exists m'. split; [reflexivity|congruence].
  - intros i m' Hi. specialize (Fn i). rewrite Hi in Fn.
    destruct (nodeGroup w !! i) as [m|] eqn:Em; [|contradiction].
    destruct Fn as [(_ & _ & Hb & _) [HP|(Hs & He & Hei)]].
    + left. apply Hmesh, HP.
    + destruct (Hrest i m Em) as [HP|(Rs & Re & Rei)]; [left; apply Hmesh, HP|].
      right. unfold at_rest. rewrite Hs, He, Hei, Hb. auto.
  - rewrite Fm. intros l' Hin.
    assert (Ht : (line_a l', line_b l') ∈ topology (edgeGroup w)).
    { rewrite <- Fl. unfold topology. apply (list_elem_of_fmap_2 (fun l => (line_a l, line_b l))), Hin. }
    apply list_elem_of_fmap in Ht as (l & Heq & Hl). injection Heq as -> ->.
    apply Hlines, Hl.
  - intros o Ho. apply Hmesh. destruct (Fd o Ho) as [Hold|Hnew]; [apply Hdrag, Hold|exact Hnew].
Qed.

End Evolution.

Section Handlers.
Context `{Host}.

Lemma spawnParticles_pool_only (w : World) origin c : pool_only w (spawnParticles w origin c).
Proof.
  split; try (unfold spawnParticles; destruct (first_idle (particlePool w)); reflexivity).
  apply spawnParticles_length.
Qed.

Lemma spawn_burst_pool_only (n : nat) (w : World) origin c :
  pool_only w (Nat.iter n (fun w' => spawnParticles w' origin c) w).
Proof.
  induction n as [|n IH]; simpl.
  - split; reflexivity.
  - destruct IH, (spawnParticles_pool_only
                    (Nat.iter n (fun w' => spawnParticles w' origin c) w) origin c).
    split; congruence.
Qed.

Lemma activate_mesh_kept m : mesh_kept m (activate_mesh m).
Proof. repeat split. Qed.

Lemma reset_mesh_kept m : mesh_kept m (reset_mesh m).
Proof. repeat split. Qed.

Lemma animate_mesh_kept dt m : mesh_kept m (animate_mesh dt m).
Proof.
  unfold animate_mesh. destruct (ud_pulse m) as [pulse|]; [|repeat split].
  destruct (Qgt_bool _ _); repeat split.
Qed.

Lemma move_mesh_kept p m : mesh_kept m (move_mesh p m) /\ look_kept m (move_mesh p m).
Proof. repeat split. Qed.

Lemma move_sprite_kept p m : mesh_kept m (move_sprite p m) /\ look_kept m (move_sprite p m).
Proof. repeat split. Qed.

Lemma breathe_kept e dt i m : mesh_kept m (breathe e dt i m) /\ look_kept m (breathe e dt i m).
Proof. repeat split. Qed.

Lemma onNodeActivate_follows (w : World) (nodeEntry : option NodeEntry) :
  (forall e, nodeEntry = Some e -> is_nodeMap_mesh w (mesh e)) ->
  follows w (snd (onNodeActivate w nodeEntry))
  /\ dragging (snd (onNodeActivate w nodeEntry)) = dragging w.
Proof.
  intros Hentry.
  assert (Hrefl : follows w w /\ dragging w = dragging w).
  { split; [|reflexivity]. split; auto. apply evolves_refl. }
  unfold onNodeActivate. destruct nodeEntry as [e|]; [|exact Hrefl].
  destruct (nodeGroup w !! mesh e) as [m|] eqn:Em; [|exact Hrefl].
  cbv zeta.
  set (w1 := set_nodeGroup w (<[mesh e := activate_mesh m]> (nodeGroup w))).
  pose proof (spawn_burst_pool_only 8 w1 (m_position m)
                (Some (color (style_of (ud_category m))))) as Hpo.
  set (w2 := Nat.iter 8 _ w1) in *.
  destruct Hpo as [_ _ _ Hn Hm Hl Hd _ Hlen]. clearbody w2.
  assert (Hev : evolves (is_nodeMap_mesh w) (nodeGroup w) (nodeGroup w2)).
  { rewrite Hn. simpl. eapply evolves_insert; [exact Em|apply activate_mesh_kept|].
    apply Hentry. reflexivity. }
  destruct (String.eqb (ud_id m) "Sun"); [|destruct (String.eqb (ud_id m) "Torch")];
    simpl; (split; [split; simpl|]); try (rewrite ?Hm, ?Hl, ?Hd, ?Hlen; reflexivity);
    try exact Hev; try (intros o Ho; left; rewrite <- Ho, Hd; reflexivity).
Qed.

Lemma onPointerDown_follows (w : World) (intersects : list Intersection) :
  event_ok w (PointerDown intersects) -> follows w (snd (onPointerDown w intersects)).
Proof.
  simpl. intros Hok. unfold onPointerDown. destruct intersects as [|hit rest].
  - simpl. split; simpl; auto; [apply evolves_refl|discriminate].
  - apply Forall_cons in Hok as [Hhit _]. cbv zeta.
    set (w1 := set_dragging w (Some (object hit))).
    destruct (object_position w1 (object hit)) as [pos|] eqn:Epos.
    + set (w2 := set_dragOffset w1 (Vector3.sub (point hit) pos)).
      destruct (onNodeActivate_follows w2 (entry_of_object w2 (object hit))) as [Hf Hd].
      { intros e He. unfold entry_of_object in He.
        destruct (object_id w2 (object hit)) as [k|]; [|discriminate].
        apply JSMap_get_value in He. exists e. split; [exact He|reflexivity]. }
      destruct Hf as [Fm Fn Fp Fl Fd]. split; auto.
      intros o Ho. right. rewrite Hd in Ho. simpl in Ho. injection Ho as <-. exact Hhit.
    + simpl. split; simpl; auto; [apply evolves_refl|].
      intros o [= <-]. right. exact Hhit.
Qed.

Lemma update_lines_topology (w : World) (k : option string) (lines : list Line) :
  topology (snd (update_lines w k lines)) = topology lines.
Proof.
  induction lines as [|l lines IH]; simpl; [reflexivity|].
  destruct (touches k l).
  - destruct (endpoint_position w (line_a l)), (endpoint_position w (line_b l));
      try reflexivity.
    destruct (update_lines w k lines) as [o rest]. simpl in *. congruence.
  - destruct (update_lines w k lines) as [o rest]. simpl in *. congruence.
Qed.

Lemma set_object_position_evolves P (w : World) o p :
  evolves P (nodeGroup w) (nodeGroup (set_object_position w o p)).
Proof.
  destruct o as [i|i]; simpl; apply evolves_alter.
  - intros m. apply move_mesh_kept.
  - right. intros m. apply move_mesh_kept.
  - intros m. apply move_sprite_kept.
  - right. intros m. apply move_sprite_kept.
Qed.

Lemma onPointerMove_follows (w : World) (origin dir : Vector3.t) :
  follows w (snd (onPointerMove w origin dir)).
Proof.
  assert (Hrefl : follows w w) by (split; auto; apply evolves_refl).
  unfold onPointerMove. destruct (dragging w) as [d|] eqn:Ed; [|exact Hrefl].
  destruct (object_position w d) as [pos|]; [|exact Hrefl].
  cbv zeta.
  set (p := Vector3.sub _ _).
  pose proof (update_lines_topology (set_object_position w d p)
                (object_id (set_object_position w d p) d)
                (edgeGroup (set_object_position w d p))) as Ht.
  destruct (update_lines _ _ _) as [o lines]. simpl in Ht.
  split; simpl.
  - destruct d; reflexivity.
  - apply set_object_position_evolves.
  - destruct d; reflexivity.
  - rewrite Ht. destruct d; reflexivity.
  - intros o' Ho'. left. destruct d; exact Ho'.
Qed.

Lemma nodeMap_forEach_evolves (f : NodeMesh -> NodeMesh) (w : World) :
  (forall m, mesh_kept m (f m)) ->
  evolves (is_nodeMap_mesh w) (nodeGroup w) (nodeGroup (nodeMap_forEach f w)).
Proof.
  intros Hk. simpl. apply evolves_forEach; [exact Hk|].
  intros e He. exists e. split; [exact He|reflexivity].
Qed.

Lemma reset_follows (w : World) : follows w (snd (reset w)).
Proof.
  split; simpl; auto.
  apply (nodeMap_forEach_evolves reset_mesh
           (set_lights (set_camera w (Vector3.make 0 30 80)) 0.8 0.0)).
  apply reset_mesh_kept.
Qed.

Lemma animate_follows (w : World) (dt : Q) (cam : Vector3.t) : follows w (snd (animate w dt cam)).
Proof.
  split; simpl; auto.
  - eapply evolves_trans.
    + apply (nodeMap_forEach_evolves (animate_mesh dt) (set_clock w (clock_elapsedTime w + dt))).
      intros m. apply animate_mesh_kept.
    + apply evolves_imap. intros i m. apply breathe_kept.
  - apply length_map.
Qed.

Lemma step_follows (w : World) (ev : Event) : event_ok w ev -> follows w (step w ev).
Proof.
  intros Hok. unfold step. destruct ev as [hits|origin dir| | |dt cam]; simpl.
  - apply onPointerDown_follows, Hok.
  - apply onPointerMove_follows.
  - split; simpl; auto; [apply evolves_refl|discriminate].
  - apply reset_follows.
  - apply animate_follows.
Qed.

(** The state the builder returns is well formed. *)
Lemma build_well_formed (nodes : list NodeRecord) (edges : list (string * string))
    (w : World) :
  build nodes edges = (Returned, w) -> well_formed w.
Proof.
  unfold build. intros Hb.
  pose proof (create_nodes_nodes_built nodes _ initial_world_nodes_built) as Hnb.
  set (w0 := create_nodes initial_world nodes) in *.
  pose proof (create_edges_frame edges w0) as Hf.
  destruct (create_edges w0 edges) as [[|e] w1]; [|discriminate].
  injection Hb as <-. destruct Hf as (Hg & Hm & Hp & Hd & _ & Hl).
  destruct Hnb as [Nbase Nkeys Nmap Nrest _ Nedges Npool Ndrag].
  split; simpl.
  - rewrite Hp, Npool. reflexivity.
  - rewrite Hg. exact Nbase.
  - rewrite Hm. exact Nkeys.
  - rewrite Hm, Hg. exact Nmap.
  - rewrite Hg. intros i m Hi. right. eapply Nrest, Hi.
  - rewrite Hm. intros l Hin. destruct (Hl l Hin) as [Hold|Hnew]; [|exact Hnew].
    rewrite Nedges in Hold. inversion Hold.
  - rewrite Hd, Ndrag. discriminate.
Qed.

(** Every state of a session is well formed. *)
Lemma reachable_well_formed (w0 w : World) :
  well_formed w0 -> reachable w0 w -> well_formed w.
Proof.
  intros Hw0 Hr. induction Hr as [|w ev Hr IH Hok]; [exact Hw0|].
  eapply follows_well_formed; [exact IH|apply step_follows, Hok].
Qed.

End Handlers.

(** ** The claims about the session *)

Section Session.
Context `{Host}.

(** C2. In every state of a session the pool holds the 200 particles it
    was built with, so at most 200 are alive; a call of [spawnParticles]
    leaves it at 200, and changes nothing at all when no particle is idle. *)
Theorem particle_pool_bounded (nodes : list NodeRecord) (edges : list (string * string))
    (w0 w : World) :
  build nodes edges = (Returned, w0) ->
  reachable w0 w ->
  length (particlePool w) = 200%nat
  /\ (alive_count (particlePool w) <= 200)%nat
  /\ (forall origin c,
        length (particlePool (spawnParticles w origin c)) = 200%nat
        /\ (alive_count (particlePool (spawnParticles w origin c)) <= 200)%nat)
  /\ ((forall i p, particlePool w !! i = Some p -> alive p = true) ->
      forall origin c, spawnParticles w origin c = w).
Proof.
  intros Hb Hr.
  pose proof (reachable_well_formed w0 w (build_well_formed _ _ _ Hb) Hr) as Hw.
  pose proof (wf_pool w Hw) as Hlen. change PARTICLE_MAX with 200%nat in Hlen.
  split; [exact Hlen|]. split; [rewrite <- Hlen; apply alive_count_le|]. split.
  - intros origin c. rewrite <- Hlen at 1 2. rewrite <- (spawnParticles_length w origin c).
    split; [reflexivity|apply alive_count_le].
  - intros Hall origin c. apply first_idle_None in Hall.
    unfold spawnParticles. rewrite Hall. reflexivity.
Qed.

(** C8. The drag state is one optional object. Pointer-up clears it
    whatever it was, and so does a pointer-down whose ray hits nothing;
    both handlers return. *)
Theorem dragging_cleared (w : World) :
  handle w PointerUp = (Returned, step w PointerUp)
  /\ dragging (step w PointerUp) = None
  /\ handle w (PointerDown []) = (Returned, step w (PointerDown []))
  /\ dragging (step w (PointerDown [])) = None.
Proof. repeat split. Qed.

(** In a session the object being dragged is a node mesh of [nodeMap] or
    the label of one. *)
Lemma dragging_is_marker (w0 w : World) (o : Object3D) :
  well_formed w0 -> reachable w0 w -> dragging w = Some o ->
  is_nodeMap_mesh w (object_index o).
Proof. intros Hw0 Hr. apply (wf_drag w (reachable_well_formed w0 w Hw0 Hr)). Qed.

Lemma onNodeActivate_effect (w : World) (e : NodeEntry) (m : NodeMesh) :
  nodeGroup w !! mesh e = Some m ->
  let w' := snd (onNodeActivate w (Some e)) in
  nodeGroup w' !! mesh e = Some (activate_mesh m)
  /\ sunLight_intensity w'
     = (if String.eqb (ud_id m) "Sun"
        then Math_min 2.2 (sunLight_intensity w + 0.9) else sunLight_intensity w)
  /\ torchLight_intensity w'
     = (if String.eqb (ud_id m) "Sun" then torchLight_intensity w
        else if String.eqb (ud_id m) "Torch"
             then Math_min 3.0 (torchLight_intensity w + 1.6) else torchLight_intensity w).
Proof.
  intros Em. unfold onNodeActivate. rewrite Em. cbv zeta.
  set (w1 := set_nodeGroup w (<[mesh e := activate_mesh m]> (nodeGroup w))).
  pose proof (spawn_burst_pool_only 8 w1 (m_position m)
                (Some (color (style_of (ud_category m))))) as Hpo.
  set (w2 := Nat.iter 8 _ w1) in *.
  destruct Hpo as [_ Hs Ht Hn _ _ _ _ _]. clearbody w2.
  assert (Hlook : nodeGroup w2 !! mesh e = Some (activate_mesh m)).
  { rewrite Hn. simpl. apply list_lookup_insert_eq. eapply lookup_lt_Some, Em. }
  destruct (String.eqb (ud_id m) "Sun"); [|destruct (String.eqb (ud_id m) "Torch")];
    simpl; rewrite ?Hs, ?Ht; auto.
Qed.

Lemma Math_min_between (a b lo : Q) :
  lo <= a -> lo <= b -> lo <= Math_min a b /\ Math_min a b <= a.
Proof.
  intros Ha Hb. split; [|apply Math_min_le_l].
  unfold Math_min. destruct (Qle_bool a b); assumption.
Qed.

(** In the module script an activation of the node "Sun", in whatever
    state, sets the sun light to the smaller of 2.2 and its intensity plus
    0.9: that is the
    intensity plus 0.9 when this does not pass 2.2, it is not less than
    the intensity was when that was at most 2.2, and it is never more than
    2.2, after any number of activations in a row. An activation of "Torch"
    does the same to the torch light with 1.6 and 3.0. *)
Theorem activation_raises_light (w : World) (e : NodeEntry) (m : NodeMesh) :
  nodeGroup w !! mesh e = Some m ->
  let activate := fun w' => snd (onNodeActivate w' (Some e)) in
  (ud_id m = "Sun"%string ->
     sunLight_intensity (activate w) = Math_min 2.2 (sunLight_intensity w + 0.9)
     /\ sunLight_intensity (activate w) <= 2.2
     /\ (sunLight_intensity w + 0.9 <= 2.2 ->
         sunLight_intensity (activate w) == sunLight_intensity w + 0.9)
     /\ (sunLight_intensity w <= 2.2 ->
         sunLight_intensity w <= sunLight_intensity (activate w))
     /\ forall n, sunLight_intensity (Nat.iter (S n) activate w) <= 2.2)
  /\ (ud_id m = "Torch"%string ->
     torchLight_intensity (activate w) = Math_min 3.0 (torchLight_intensity w + 1.6)
     /\ torchLight_intensity (activate w) <= 3.0
     /\ (torchLight_intensity w + 1.6 <= 3.0 ->
         torchLight_intensity (activate w) == torchLight_intensity w + 1.6)
     /\ (torchLight_intensity w <= 3.0 ->
         torchLight_intensity w <= torchLight_intensity (activate w))
     /\ forall n, torchLight_intensity (Nat.iter (S n) activate w) <= 3.0).
Proof.
  intros Em activate.
  assert (Hiter : forall n, exists m', nodeGroup (Nat.iter n activate w) !! mesh e = Some m'
                                       /\ ud_id m' = ud_id m).
  { induction n as [|n [m' [Hm' Hid]]]; simpl; [eauto|].
    destruct (onNodeActivate_effect _ e m' Hm') as (Hl & _).
    exists (activate_mesh m'). split; [exact Hl|exact Hid]. }
  split; intros Hid.
  - assert (Hone : forall w' m', nodeGroup w' !! mesh e = Some m' -> ud_id m' = ud_id m ->
             sunLight_intensity (activate w') = Math_min 2.2 (sunLight_intensity w' + 0.9)).
    { intros w' m' Hm' Hid'. destruct (onNodeActivate_effect w' e m' Hm') as (_ & Hs & _).
      unfold activate. rewrite Hs, Hid', Hid. reflexivity. }
    rewrite (Hone w m Em eq_refl). split; [reflexivity|]. split; [apply Math_min_le_l|].
    split; [apply Math_min_r|]. split.
    + intros Hle. apply Math_min_between; lra.
    + intros n. simpl. destruct (Hiter n) as (m' & Hm' & Hid').
      rewrite (Hone _ m' Hm' Hid'). apply Math_min_le_l.
  - assert (Hone : forall w' m', nodeGroup w' !! mesh e = Some m' -> ud_id m' = ud_id m ->
             torchLight_intensity (activate w') = Math_min 3.0 (torchLight_intensity w' + 1.6)).
    { intros w' m' Hm' Hid'. destruct (onNodeActivate_effect w' e m' Hm') as (_ & _ & Ht).
      unfold activate. rewrite Ht, Hid', Hid. reflexivity. }
    rewrite (Hone w m Em eq_refl). split; [reflexivity|]. split; [apply Math_min_le_l|].
    split; [apply Math_min_r|]. split.
    + intros Hle. apply Math_min_between; lra.
    + intros n. simpl. destruct (Hiter n) as (m' & Hm' & Hid').
      rewrite (Hone _ m' Hm' Hid'). apply Math_min_le_l.
Qed.

Lemma lerp_between (x y t lo hi : Q) :
  0 <= t -> t <= 1 -> lo <= x -> x <= hi -> lo <= y -> y <= hi ->
  lo <= MathUtils.lerp x y t /\ MathUtils.lerp x y t <= hi.
Proof.
  unfold MathUtils.lerp. intros Ht0 Ht1 Hx0 Hx1 Hy0 Hy1.
  assert (H1 : 0 <= (1 - t) * (x - lo)) by (apply Qmult_le_0_compat; lra).
  assert (H2 : 0 <= t * (y - lo)) by (apply Qmult_le_0_compat; lra).
  assert (H3 : 0 <= (1 - t) * (hi - x)) by (apply Qmult_le_0_compat; lra).
  assert (H4 : 0 <= t * (hi - y)) by (apply Qmult_le_0_compat; lra).
  split; nra.
Qed.

Lemma onNodeActivate_lights (w : World) (nodeEntry : option NodeEntry) :
  let w' := snd (onNodeActivate w nodeEntry) in
  (sunLight_intensity w' = sunLight_intensity w
   \/ sunLight_intensity w' = Math_min 2.2 (sunLight_intensity w + 0.9))
  /\ (torchLight_intensity w' = torchLight_intensity w
      \/ torchLight_intensity w' = Math_min 3.0 (torchLight_intensity w + 1.6)).
Proof.
  destruct nodeEntry as [e|]; [|simpl; auto].
  destruct (nodeGroup w !! mesh e) as [m|] eqn:Em.
  - destruct (onNodeActivate_effect w e m Em) as (_ & Hs & Ht). cbv zeta. rewrite Hs, Ht.
    destruct (String.eqb (ud_id m) "Sun"); [auto|].
    destruct (String.eqb (ud_id m) "Torch"); auto.
  - unfold onNodeActivate. rewrite Em. simpl. auto.
Qed.

Lemma onPointerMove_lights (w : World) (origin dir : Vector3.t) :
  sunLight_intensity (snd (onPointerMove w origin dir)) = sunLight_intensity w
  /\ torchLight_intensity (snd (onPointerMove w origin dir)) = torchLight_intensity w.
Proof.
  unfold onPointerMove. destruct (dragging w) as [d|]; [|split; reflexivity].
  destruct (object_position w d); [|split; reflexivity]. cbv zeta.
  destruct (update_lines _ _ _) as [o lines]. destruct d; split; reflexivity.
Qed.

Lemma onPointerDown_lights (w : World) (intersects : list Intersection) :
  let w' := snd (onPointerDown w intersects) in
  (sunLight_intensity w' = sunLight_intensity w
   \/ sunLight_intensity w' = Math_min 2.2 (sunLight_intensity w + 0.9))
  /\ (torchLight_intensity w' = torchLight_intensity w
      \/ torchLight_intensity w' = Math_min 3.0 (torchLight_intensity w + 1.6)).
Proof.
  unfold onPointerDown. destruct intersects as [|hit rest]; [simpl; auto|].
  cbv zeta. destruct (object_position _ (object hit)); [|simpl; auto].
  match goal with
  | |- context [onNodeActivate ?w0 ?en] => exact (onNodeActivate_lights w0 en)
  end.
Qed.

(** One event of a session with short frames keeps the sun light between
    0.8 and 2.2 and the torch light between 0 and 3.0. *)
Lemma lights_bounded_step (w : World) (ev : Event) :
  short_frame ev ->
  0.8 <= sunLight_intensity w /\ sunLight_intensity w <= 2.2 ->
  0 <= torchLight_intensity w /\ torchLight_intensity w <= 3.0 ->
  (0.8 <= sunLight_intensity (step w ev) /\ sunLight_intensity (step w ev) <= 2.2)
  /\ (0 <= torchLight_intensity (step w ev) /\ torchLight_intensity (step w ev) <= 3.0).
Proof.
  intros Hev Hsun Htorch. unfold step.
  destruct ev as [hits|origin dir| | |dt cam]; cbn [handle].
  - destruct (onPointerDown_lights w hits) as [Hs Ht]. cbv zeta in Hs, Ht. split.
    + destruct Hs as [-> | ->]; [exact Hsun|].
      destruct (Math_min_between 2.2 (sunLight_intensity w + 0.9) 0.8); [lra|lra|].
      split; assumption.
    + destruct Ht as [-> | ->]; [exact Htorch|].
      destruct (Math_min_between 3.0 (torchLight_intensity w + 1.6) 0); [lra|lra|].
      split; assumption.
  - destruct (onPointerMove_lights w origin dir) as [-> ->]. split; assumption.
  - split; assumption.
  - simpl. split; split; lra.
  - destruct Hev as [Hdt0 Hdt1]. simpl. split; apply lerp_between; lra.
Qed.

(** In a session whose frames are short the sun light stays between its
    resting value 0.8 and its ceiling 2.2, and the torch light between 0
    and 3.0, whatever is activated and however often. *)
Lemma lights_bounded (evs : list Event) (w : World) :
  Forall short_frame evs ->
  0.8 <= sunLight_intensity w /\ sunLight_intensity w <= 2.2 ->
  0 <= torchLight_intensity w /\ torchLight_intensity w <= 3.0 ->
  (0.8 <= sunLight_intensity (run w evs) /\ sunLight_intensity (run w evs) <= 2.2)
  /\ (0 <= torchLight_intensity (run w evs) /\ torchLight_intensity (run w evs) <= 3.0).
Proof.
  intros Hshort. revert w. induction Hshort as [|ev evs Hev Hshort IH]; intros w Hsun Htorch.
  - simpl. auto.
  - destruct (lights_bounded_step w ev Hev Hsun Htorch) as [Hs Ht].
    apply (IH (step w ev) Hs Ht).
Qed.

End Session.

Section ResetAndDrag.
Context `{Host}.

Lemma forEach_lookup (f : NodeMesh -> NodeMesh) (es : list NodeEntry)
    (g : list NodeMesh) (i : nat) :
  (forall m, f (f m) = f m) ->
  fold_left (fun g e => alter f (mesh e) g) es g !! i
  = if bool_decide (i ∈ mesh <$> es) then f <$> g !! i else g !! i.
Proof.
  intros Hidem. revert g. induction es as [|e es IH]; intros g.
  - reflexivity.
  - cbn [fold_left]. rewrite fmap_cons, IH. destruct (decide (mesh e = i)) as [<-|Hne].
    + rewrite list_lookup_alter_eq.
      rewrite (bool_decide_eq_true_2 (mesh e ∈ mesh e :: (mesh <$> es)))
        by apply list_elem_of_here.
      case_bool_decide; [|reflexivity].
      destruct (g !! mesh e); simpl; [rewrite Hidem|]; reflexivity.
    + rewrite list_lookup_alter_ne by exact Hne.
      destruct (decide (i ∈ mesh <$> es)) as [Hin|Hnin].
      * rewrite (bool_decide_eq_true_2 _ Hin).
        rewrite (bool_decide_eq_true_2 (i ∈ mesh e :: (mesh <$> es)))
          by apply list_elem_of_further, Hin.
        reflexivity.
      * rewrite (bool_decide_eq_false_2 _ Hnin).
        rewrite (bool_decide_eq_false_2 (i ∈ mesh e :: (mesh <$> es))); [reflexivity|].
        intros Hin. apply elem_of_cons in Hin as [->|Hin]; [congruence|contradiction].
Qed.

Lemma reset_mesh_idempotent (m : NodeMesh) : reset_mesh (reset_mesh m) = reset_mesh m.
Proof. reflexivity. Qed.

(** The base size of a style is not zero, so [baseScale || d] is
    [baseScale]. *)
Lemma style_size_truthy (cat : string) (d : Q) :
  num_or (size (style_of cat)) d = size (style_of cat).
Proof.
  unfold style_of, categoryStyle. cbn -[String.eqb].
  repeat (match goal with
          | |- context [String.eqb ?a ?b] => destruct (String.eqb a b); [reflexivity|]
          end).
  reflexivity.
Qed.

(** In a session of the module script, a click on the reset button puts
    the camera at (0, 30, 80), the sun light at 0.8 and the torch light at
    0, and leaves every node mesh of the scene with emissive colour black
    and emissive intensity 0, and, when its category is not an inherited
    name, at its base size (the size of the style of its category). *)
Theorem reset_restores (nodes : list NodeRecord) (edges : list (string * string))
    (w0 w : World) :
  build nodes edges = (Returned, w0) ->
  reachable w0 w ->
  handle w ResetClick = (Returned, step w ResetClick)
  /\ camera_position (step w ResetClick) = Vector3.make 0 30 80
  /\ sunLight_intensity (step w ResetClick) = 0.8
  /\ torchLight_intensity (step w ResetClick) == 0
  /\ length (nodeGroup (step w ResetClick)) = length (nodeGroup w)
  /\ forall i m, nodeGroup (step w ResetClick) !! i = Some m ->
       (plain_key (ud_category m) ->
        m_scale m = Vector3.setScalar (ud_baseScale m)
        /\ ud_baseScale m = size (style_of (ud_category m)))
       /\ m_emissive m = 0%Z
       /\ m_emissiveIntensity m == 0.
Proof.
  intros Hb Hr.
  pose proof (reachable_well_formed w0 w (build_well_formed _ _ _ Hb) Hr) as Hw.
  pose proof (follows_well_formed _ _ Hw (step_follows w ResetClick I)) as Hw'.
  split; [reflexivity|]. split; [reflexivity|]. split; [reflexivity|].
  split; [reflexivity|]. split.
  - unfold step. simpl. clear. generalize (nodeGroup w).
    induction (JSMap.values (nodeMap w)) as [|e es IH]; intros g; simpl; [reflexivity|].
    rewrite IH. apply length_alter.
  - intros i m' Hi. pose proof (wf_base _ Hw' i m' Hi) as Hbase.
    unfold step in Hi. simpl in Hi.
    rewrite (forEach_lookup reset_mesh _ _ i reset_mesh_idempotent) in Hi.
    destruct (nodeGroup w !! i) as [m|] eqn:Em;
      [|destruct (bool_decide _); discriminate].
    case_bool_decide as Hin.
    + injection Hi as <-. simpl. rewrite (wf_base _ Hw i m Em), style_size_truthy.
      split; [intros _; split; reflexivity|split; reflexivity].
    + injection Hi as <-. destruct (wf_rest _ Hw i m Em) as [(e & He & Hme)|(Hs & He & Hei)].
      * exfalso. apply Hin. rewrite <- Hme. apply (list_elem_of_fmap_2 mesh), He.
      * split; [intros _; split; assumption|split; assumption].
Qed.

Lemma touches_spec (k : string) (l : Line) :
  touches (Some k) l = true <-> line_a l = k \/ line_b l = k.
Proof.
  unfold touches. rewrite orb_true_iff, !String.eqb_eq. reflexivity.
Qed.

(** With every endpoint defined the edge loop of [onPointerMove] returns,
    and every line it touches has the positions of its two nodes. *)
Lemma update_lines_fresh (w : World) (k : option string) (lines : list Line) :
  (forall l, l ∈ lines -> is_Some (endpoint_position w (line_a l))
                          /\ is_Some (endpoint_position w (line_b l))) ->
  fst (update_lines w k lines) = Returned
  /\ forall l, l ∈ snd (update_lines w k lines) -> touches k l = true ->
       exists pa pb, endpoint_position w (line_a l) = Some pa
                     /\ endpoint_position w (line_b l) = Some pb
                     /\ line_geometry l = setFromPoints pa pb.
Proof.
  induction lines as [|l lines IH]; intros Hdef; simpl.
  - split; [reflexivity|]. intros l Hin. inversion Hin.
  - destruct IH as [IHo IHl].
    { intros l' Hl'. apply Hdef, list_elem_of_further, Hl'. }
    destruct (Hdef l (list_elem_of_here _ _)) as [[pa Hpa] [pb Hpb]].
    destruct (touches k l) eqn:Et.
    + rewrite Hpa, Hpb. destruct (update_lines w k lines) as [o rest]. simpl in *.
      split; [exact IHo|]. intros l' Hin Ht.
      apply elem_of_cons in Hin as [->|Hin]; [|apply IHl; assumption].
      cbn [line_a line_b line_geometry]. exists pa, pb. auto.
    + destruct (update_lines w k lines) as [o rest]. simpl in *.
      split; [exact IHo|]. intros l' Hin Ht.
      apply elem_of_cons in Hin as [->|Hin]; [congruence|apply IHl; assumption].
Qed.

Lemma well_formed_endpoint (w : World) (k : string) :
  well_formed w -> is_Some (JSMap.get (nodeMap w) k) -> is_Some (endpoint_position w k).
Proof.
  intros Hw [e He]. unfold endpoint_position. rewrite He.
  destruct (wf_map w Hw k e (JSMap_get_elem _ _ _ He)) as (m & Hm & _).
  rewrite Hm. simpl. eauto.
Qed.

(** A mesh that the ray can hit is the mesh that [nodeMap] holds for its
    own id. *)
Lemma nodeMap_mesh_entry (w : World) (i : nat) (m : NodeMesh) :
  well_formed w -> is_nodeMap_mesh w i -> nodeGroup w !! i = Some m ->
  exists e, JSMap.get (nodeMap w) (ud_id m) = Some e /\ mesh e = i.
Proof.
  intros Hw (e & He & Hme) Hm. exists e. split; [|exact Hme].
  apply JSMap_value_elem in He as [k Hk].
  destruct (wf_map w Hw k e Hk) as (m0 & Hm0 & Hid).
  rewrite Hme, Hm in Hm0. injection Hm0 as <-. rewrite Hid.
  apply JSMap_elem_get; [apply (wf_keys w Hw)|exact Hk].
Qed.

Lemma onPointerMove_node (w : World) (i : nat) (m : NodeMesh) (origin dir : Vector3.t) :
  dragging w = Some (NodeObj i) ->
  nodeGroup w !! i = Some m ->
  let P := Vector3.sub
             (Vector3.add
                (Vector3.multiplyScalar dir (distanceTo (m_position m) (camera_position w)))
                origin)
             (dragOffset w) in
  let w1 := set_object_position w (NodeObj i) P in
  onPointerMove w origin dir
  = (fst (update_lines w1 (Some (ud_id m)) (edgeGroup w)),
     set_edgeGroup w1 (snd (update_lines w1 (Some (ud_id m)) (edgeGroup w)))).
Proof.
  intros Hd Hm P w1. unfold onPointerMove, object_position. rewrite Hd, Hm.
  cbn [fmap option_fmap option_map]. fold P. fold w1.
  assert (Hid : object_id w1 (NodeObj i) = Some (ud_id m)).
  { unfold object_id, w1. cbn [set_object_position nodeGroup set_nodeGroup].
    rewrite list_lookup_alter_eq, Hm. reflexivity. }
  rewrite Hid. change (edgeGroup w1) with (edgeGroup w).
  destruct (update_lines w1 (Some (ud_id m)) (edgeGroup w)); reflexivity.
Qed.

(** C5. In a session, a pointer-move while node mesh [i] is dragged
    returns, moves the mesh to the point [P] that the ray gives, and
    leaves every line that has the id of the mesh as one of its two ids
    with, as the two points of its geometry, the current positions of the
    two nodes of its ids, each coordinate narrowed to a 32-bit float as the
    geometry stores it; [P] is the current position of the node of the
    dragged id. The ids of the lines are as before. So no line keeps a
    point of the position before the move; the points are the positions
    themselves only up to that narrowing. *)
Theorem drag_refreshes_edges (nodes : list NodeRecord) (edges : list (string * string))
    (w0 w : World) (i : nat) (m : NodeMesh) (origin dir : Vector3.t) :
  build nodes edges = (Returned, w0) ->
  reachable w0 w ->
  dragging w = Some (NodeObj i) ->
  nodeGroup w !! i = Some m ->
  let w' := step w (PointerMove origin dir) in
  let P := Vector3.sub
             (Vector3.add
                (Vector3.multiplyScalar dir (distanceTo (m_position m) (camera_position w)))
                origin)
             (dragOffset w) in
  handle w (PointerMove origin dir) = (Returned, w')
  /\ m_position <$> nodeGroup w' !! i = Some P
  /\ endpoint_position w' (ud_id m) = Some P
  /\ topology (edgeGroup w') = topology (edgeGroup w)
  /\ forall l, l ∈ edgeGroup w' ->
       line_a l = ud_id m \/ line_b l = ud_id m ->
       exists pa pb, endpoint_position w' (line_a l) = Some pa
                     /\ endpoint_position w' (line_b l) = Some pb
                     /\ line_geometry l = setFromPoints pa pb.
Proof.
  intros Hb Hr Hd Hm w' P.
  pose proof (reachable_well_formed w0 w (build_well_formed _ _ _ Hb) Hr) as Hw.
  pose proof (fo_lines _ _ (step_follows w (PointerMove origin dir) I)) as Htop.
  destruct (nodeMap_mesh_entry w i m Hw (wf_drag w Hw _ Hd) Hm) as (e & He & Hme).
  subst w'. unfold step, handle in *.
  rewrite (onPointerMove_node w i m origin dir Hd Hm) in *. fold P in Htop |- *.
  set (w1 := set_object_position w (NodeObj i) P) in *.
  assert (Hi : nodeGroup w1 !! i = Some (move_mesh P m)).
  { unfold w1. cbn [set_object_position nodeGroup set_nodeGroup].
    rewrite list_lookup_alter_eq, Hm. reflexivity. }
  assert (Hext : forall lines k, endpoint_position (set_edgeGroup w1 lines) k
                                 = endpoint_position w1 k) by reflexivity.
  assert (Hdef : forall k, is_Some (JSMap.get (nodeMap w) k) ->
                           is_Some (endpoint_position w1 k)).
  { intros k Hk. apply (well_formed_endpoint w k Hw) in Hk.
    unfold endpoint_position in *. change (nodeMap w1) with (nodeMap w).
    destruct (JSMap.get (nodeMap w) k) as [ek|]; [|exact Hk].
    unfold w1. cbn [set_object_position nodeGroup set_nodeGroup].
    destruct (decide (i = mesh ek)) as [->|Hne].
    - rewrite list_lookup_alter_eq. destruct (nodeGroup w !! mesh ek); [simpl; eauto|exact Hk].
    - rewrite list_lookup_alter_ne by exact Hne. exact Hk. }
  destruct (update_lines_fresh w1 (Some (ud_id m)) (edgeGroup w)) as [Ho Hl].
  { intros l Hin. destruct (wf_lines w Hw l Hin) as [Ha Hb']. split; apply Hdef; assumption. }
  destruct (update_lines w1 (Some (ud_id m)) (edgeGroup w)) as [o lines] eqn:Eu.
  cbn [fst snd] in *. subst o.
  split; [reflexivity|]. split; [cbn [nodeGroup set_edgeGroup]; rewrite Hi; reflexivity|].
  split.
  { rewrite Hext. unfold endpoint_position. change (nodeMap w1) with (nodeMap w).
    rewrite He, Hme, Hi. reflexivity. }
  split; [exact Htop|].
  intros l Hin Htouch. rewrite !Hext. apply Hl; [exact Hin|]. apply touches_spec, Htouch.
Qed.

(** C9. [makeLabelTexture] caches by the label string. A second call with
    the same string returns the texture of the first and leaves the state,
    the count of textures created included, as the first call left it; so
    does a later call, after calls with any other strings. In the scene
    that the builder makes, two node meshes with the same label have the
    same texture on their label sprites. *)
Theorem makeLabelTexture_cached (w : World) (text : string) :
  (makeLabelTexture (snd (makeLabelTexture w text)) text
   = (fst (makeLabelTexture w text), snd (makeLabelTexture w text)))
  /\ (forall others,
        let w2 := fold_left (fun w' s => snd (makeLabelTexture w' s)) others
                            (snd (makeLabelTexture w text)) in
        makeLabelTexture w2 text = (fst (makeLabelTexture w text), w2))
  /\ (forall nodes edges i j mi mj,
        nodeGroup (snd (build nodes edges)) !! i = Some mi ->
        nodeGroup (snd (build nodes edges)) !! j = Some mj ->
        ud_label mi = ud_label mj ->
        sprite_map (m_sprite mi) = sprite_map (m_sprite mj)).
Proof.
  assert (Hhit : forall w' t, labelCanvasCache w' !! text = Some t ->
                              makeLabelTexture w' text = (t, w')).
  { intros w' t Ht. unfold makeLabelTexture. rewrite Ht. reflexivity. }
  pose proof (makeLabelTexture_spec w text) as Hfirst.
  destruct (makeLabelTexture w text) as [t1 w1]. destruct Hfirst as (Hc1 & _). simpl.
  split; [apply Hhit, Hc1|]. split.
  - intros others. apply Hhit. revert w1 Hc1.
    induction others as [|s others IH]; intros w1 Hc1; simpl; [exact Hc1|].
    apply IH. pose proof (makeLabelTexture_spec w1 s) as Hs.
    destruct (makeLabelTexture w1 s) as [ts ws]. destruct Hs as (_ & Hkeep & _).
    simpl. apply Hkeep, Hc1.
  - intros nodes edges i j mi mj Hi Hj Hlab.
    pose proof (create_nodes_nodes_built nodes _ initial_world_nodes_built) as Hnb.
    pose proof (create_edges_frame edges (create_nodes initial_world nodes)) as Hf.
    unfold build in Hi, Hj.
    destruct (create_edges (create_nodes initial_world nodes) edges) as [[|err] wb];
      destruct Hf as (Hg & _); simpl in Hi, Hj; rewrite Hg in Hi, Hj;
      pose proof (nb_label _ Hnb i mi Hi) as Li; pose proof (nb_label _ Hnb j mj Hj) as Lj;
      rewrite Hlab in Li; congruence.
Qed.

End ResetAndDrag.

(** ** The CSV variant: dangling edges are skipped *)

Section CsvLoader.
Context {cell : Type} (truthy : cell -> bool) (to_key : cell -> string).

Local Abbreviation Scene := (@Csv.Scene cell).
Local Abbreviation NodeRow := (@Csv.NodeRow cell).
Local Abbreviation EdgeRow := (@Csv.EdgeRow cell).
Local Abbreviation add_node := (Csv.add_node truthy to_key).
Local Abbreviation add_edge := (Csv.add_edge truthy to_key).
Local Abbreviation edge_ok := (Csv.edge_ok truthy to_key).

Lemma csv_add_node_meshes_exist (s : Scene) (n : NodeRow) :
  Csv.meshes_exist s -> Csv.meshes_exist (add_node s n).
Proof.
  intros Hs. unfold Csv.add_node. destruct (negb (truthy (Csv.n_id n))); [exact Hs|].
  intros k i. simpl. rewrite length_app. simpl.
  destruct (decide (to_key (Csv.n_id n) = k)) as [<-|Hne].
  - rewrite lookup_insert_eq. intros [= <-]. lia.
  - rewrite lookup_insert_ne by exact Hne. intros Hk. specialize (Hs k i Hk). lia.
Qed.

Lemma csv_add_nodes_meshes_exist (nodeData : list NodeRow) (s : Scene) :
  Csv.meshes_exist s -> Csv.meshes_exist (fold_left add_node nodeData s).
Proof.
  revert s. induction nodeData as [|n nodeData IH]; intros s Hs; simpl; [exact Hs|].
  apply IH, csv_add_node_meshes_exist, Hs.
Qed.

(** One edge row: the node part of the scene is untouched, and a line is
    added exactly when the row has a source and a target that are both
    keys of [nodeMap]. *)
Lemma csv_add_edge_spec (s : Scene) (e : EdgeRow) :
  Csv.meshes_exist s ->
  Csv.nodeGroup (add_edge s e) = Csv.nodeGroup s
  /\ Csv.nodeMap (add_edge s e) = Csv.nodeMap s
  /\ length (Csv.edgeGroup (add_edge s e))
     = (length (Csv.edgeGroup s) + (if edge_ok s e then 1 else 0))%nat.
Proof.
  intros Hs. unfold Csv.add_edge, Csv.edge_ok.
  destruct (truthy (Csv.source e)), (truthy (Csv.target e)); simpl;
    try (repeat split; lia).
  destruct (Csv.nodeMap s !! to_key (Csv.source e)) as [i|] eqn:Ei;
    [|rewrite bool_decide_eq_false_2 by (intros [? ?]; discriminate);
      simpl; repeat split; lia].
  destruct (Csv.nodeMap s !! to_key (Csv.target e)) as [j|] eqn:Ej;
    [|rewrite (bool_decide_eq_false_2 (is_Some None)) by (intros [? ?]; discriminate);
      rewrite andb_false_r; repeat split; lia].
  rewrite !bool_decide_eq_true_2 by eauto. simpl.
  destruct (lookup_lt_is_Some_2 _ _ (Hs _ _ Ei)) as [a ->].
  destruct (lookup_lt_is_Some_2 _ _ (Hs _ _ Ej)) as [b ->].
  simpl. rewrite length_app. simpl. repeat split; lia.
Qed.

(** For ids that are not inherited names, the CSV loader makes one line
    for each edge row whose source and target are ids of loaded nodes,
    skips every other row, and always returns. *)
Lemma csv_load_edge_count (nodeData : list NodeRow) (edgeData : list EdgeRow) :
  Forall (fun n => plain_key (to_key (Csv.n_id n))) nodeData ->
  Forall (fun e => plain_key (to_key (Csv.source e))
                   /\ plain_key (to_key (Csv.target e))) edgeData ->
  let s0 := fold_left add_node nodeData (Csv.mkScene [] ∅ []) in
  length (Csv.edgeGroup (Csv.load truthy to_key nodeData edgeData))
  = length (filter (fun e => edge_ok s0 e = true) edgeData).
Proof.
  intros _ _ s0. unfold Csv.load. fold s0.
  assert (Hs0 : Csv.meshes_exist s0).
  { apply csv_add_nodes_meshes_exist. intros k i Hk. simpl in Hk. rewrite lookup_empty in Hk. discriminate. }
  assert (Hgen : forall s, Csv.meshes_exist s ->
            Csv.nodeMap s = Csv.nodeMap s0 ->
            length (Csv.edgeGroup (fold_left add_edge edgeData s))
            = (length (Csv.edgeGroup s)
               + length (filter (fun e => edge_ok s0 e = true) edgeData))%nat).
  { induction edgeData as [|e edgeData IH]; intros s Hs Hm; simpl; [lia|].
    destruct (csv_add_edge_spec s e Hs) as (Hg' & Hm' & Hlen).
    rewrite IH.
    - rewrite Hlen.
      assert (Hok : edge_ok s e = edge_ok s0 e) by (unfold Csv.edge_ok; rewrite Hm; reflexivity).
      rewrite Hok. destruct (edge_ok s0 e) eqn:E.
      + rewrite filter_cons_True by exact E. simpl. lia.
      + rewrite filter_cons_False by congruence. lia.
    - intros k i Hk. rewrite Hm' in Hk. rewrite Hg'. apply (Hs k i Hk).
    - congruence. }
  rewrite (Hgen s0 Hs0 eq_refl).
  assert (He0 : forall rows (s : Scene),
            Csv.edgeGroup (fold_left add_node rows s) = Csv.edgeGroup s).
  { induction rows as [|n rows IH]; intros s; simpl; [reflexivity|].
    rewrite IH. unfold Csv.add_node. destruct (negb (truthy (Csv.n_id n))); reflexivity. }
  unfold s0 at 1. rewrite He0. reflexivity.
Qed.

End CsvLoader.

(** ** The click and the reset of the first variant *)

Section FirstVariant.
Context {cell : Type} (is_string : cell -> string -> bool).

(** C3. In the first variant of the script a click on the sphere "Sun"
    sets the sun light to 2, whatever it was, and not to the smaller of 2.2
    and its intensity plus 0.9: from an intensity of at most 1, such as the
    resting 0.8, or of at least 2, such as the 2 of an earlier click, the 2
    is not what the rule gives (from 0.8 the rule gives 1.7), and a click
    on a light that is above 2 lowers it. A click on "Torch" does the same
    to the torch light, where the rule is the smaller of 3.0 and the
    intensity plus 1.6, which is not 2 from an intensity of at most 0.3,
    such as the resting 0, or of at least 0.5. *)
Theorem first_variant_click_sets_light (pg : @CsvView.Page cell) (i : nat)
    (rest : list nat) (m : @Csv.Mesh cell) :
  Csv.nodeGroup (CsvView.scene pg) !! i = Some m ->
  let pg' := CsvView.onPointerDown is_string pg (i :: rest) in
  (is_string (Csv.mesh_id m) "Sun" = true ->
     CsvView.sunLight pg' = 2
     /\ (CsvView.sunLight pg <= 1 \/ 2 <= CsvView.sunLight pg ->
         ~ CsvView.sunLight pg' == Math_min 2.2 (CsvView.sunLight pg + 0.9))
     /\ (2 < CsvView.sunLight pg -> CsvView.sunLight pg' < CsvView.sunLight pg))
  /\ (is_string (Csv.mesh_id m) "Torch" = true ->
     CsvView.torchLight pg' = 2
     /\ (CsvView.torchLight pg <= 0.3 \/ 0.5 <= CsvView.torchLight pg ->
         ~ CsvView.torchLight pg' == Math_min 3.0 (CsvView.torchLight pg + 1.6))
     /\ (2 < CsvView.torchLight pg -> CsvView.torchLight pg' < CsvView.torchLight pg)).
Proof.
  intros Hm pg'. subst pg'. unfold CsvView.onPointerDown. rewrite Hm.
  cbn [CsvView.sunLight CsvView.torchLight].
  split; intros ->.
  - split; [reflexivity|]. split; [|intros Hlt; exact Hlt].
    unfold Math_min. destruct (Qle_bool 2.2 (CsvView.sunLight pg + 0.9)) eqn:E.
    + intros _ Heq. lra.
    + apply Qle_bool_false in E. intros [Hle|Hge] Heq; lra.
  - split; [reflexivity|]. split; [|intros Hlt; exact Hlt].
    unfold Math_min. destruct (Qle_bool 3.0 (CsvView.torchLight pg + 1.6)) eqn:E.
    + intros _ Heq. lra.
    + apply Qle_bool_false in E. intros [Hle|Hge] Heq; lra.
Qed.

(** C4. In the first variant of the script the reset button puts the
    camera at (0, 30, 80), the sun light at 0.8 and the torch light at 0,
    and writes no sphere: the scales and the pending timers are as before.
    A sphere that was clicked is, after the reset, at the scale 3 of the
    click and not at the scale 1 it was made with. *)
Theorem first_variant_reset_keeps_scales (pg : @CsvView.Page cell) (i : nat)
    (rest : list nat) (m : @Csv.Mesh cell) :
  Csv.nodeGroup (CsvView.scene pg) !! i = Some m ->
  (i < length (CsvView.scales pg))%nat ->
  let pg' := CsvView.run is_string pg [CsvView.Click (i :: rest); CsvView.Reset] in
  CsvView.camera pg' = Vector3.make 0 30 80
  /\ CsvView.sunLight pg' = 0.8
  /\ CsvView.torchLight pg' = 0
  /\ CsvView.scales pg' !! i = Some (Vector3.make 3 3 3)
  /\ CsvView.scales pg' !! i <> Some (Vector3.setScalar 1)
  /\ CsvView.scales (CsvView.onReset pg) = CsvView.scales pg
  /\ CsvView.timers (CsvView.onReset pg) = CsvView.timers pg.
Proof.
  intros Hm Hi pg'. subst pg'. unfold CsvView.run. cbn [fold_left CsvView.step].
  unfold CsvView.onPointerDown. rewrite Hm.
  cbn [CsvView.onReset CsvView.camera CsvView.sunLight CsvView.torchLight
       CsvView.scales CsvView.timers CsvView.scene].
  rewrite list_lookup_insert_eq by exact Hi.
  split; [reflexivity|]. split; [reflexivity|]. split; [reflexivity|].
  split; [reflexivity|]. split; [discriminate|]. split; reflexivity.
Qed.

End FirstVariant.

(** ** The properties at work on the scene of the script *)

Lemma demo_build : @build demo_host nodes edges = (Returned, demo_world).
Proof. vm_compute. reflexivity. Qed.

(** The script builds its own scene: twelve meshes, twelve lines and the
    pool of 200 particles. *)
Example script_scene_builds :
  fst (@build demo_host nodes edges) = Returned
  /\ length (nodeGroup demo_world) = 12%nat
  /\ length (edgeGroup demo_world) = 12%nat
  /\ length (particlePool demo_world) = 200%nat.
Proof. vm_compute. repeat split. Qed.

(** With an edge to a node that does not exist it throws, and has then
    made no line and no particle. *)
Example dangling_build_throws :
  fst (@build demo_host dangling_nodes dangling_edges) = TypeError
  /\ edgeGroup (snd (@build demo_host dangling_nodes dangling_edges)) = []
  /\ particlePool (snd (@build demo_host dangling_nodes dangling_edges)) = [].
Proof. vm_compute. repeat split. Qed.

(** The CSV loader on the same kind of input: the row to "Moon" and the row
    without target are skipped, the row from "Sun" to "Torch" has its line. *)
Example csv_dangling_rows_skipped :
  length (Csv.edgeGroup (Csv.load cell_truthy cell_key csv_nodes csv_edges)) = 1%nat
  /\ length (Csv.nodeGroup (Csv.load cell_truthy cell_key csv_nodes csv_edges)) = 2%nat.
Proof. vm_compute. split; reflexivity. Qed.

(** Three activations of "Sun" in a row: 0.8, then 1.7, 2.2 and 2.2. *)
Example sun_three_activations :
  sunLight_intensity demo_world == 0.8
  /\ sunLight_intensity (demo_activate_sun demo_world) == 1.7
  /\ sunLight_intensity (demo_activate_sun (demo_activate_sun demo_world)) == 2.2
  /\ sunLight_intensity
       (demo_activate_sun (demo_activate_sun (demo_activate_sun demo_world))) == 2.2.
Proof. vm_compute. repeat split. Qed.

(** Frames are not always short. One activation of "Sun" brings the sun
    light to 1.7; two frames of ten seconds each then overshoot the resting
    value twice, to -3.7 and to 23.3. *)
Example long_frames_overshoot :
  sunLight_intensity
    (@run demo_host demo_world
          [demo_hit_sun; Frame 10 (Vector3.make 0 30 80); Frame 10 (Vector3.make 0 30 80)])
  == 23.3.
Proof. vm_compute. reflexivity. Qed.

(** A pointer-down on the label of "Sun": the sprite has no id, the handler
    throws on [nodeEntry.mesh], and the sprite stays in the drag state. *)
Example label_hit_throws :
  @handle demo_host demo_world
          (PointerDown [mkIntersection (LabelObj 1) (Vector3.make 50 44 (-20))])
  = (TypeError,
     set_dragOffset (set_dragging demo_world (Some (LabelObj 1)))
                    (Vector3.sub (Vector3.make 50 44 (-20)) (Vector3.make 0 (2.1 + 1.4) 0))).
Proof. vm_compute. reflexivity. Qed.

(** The pointer-down on "Sun" hits a mesh of [nodeMap]. *)
Lemma demo_sun_hit_ok : @event_ok demo_world demo_hit_sun.
Proof.
  constructor; [|constructor]. exists demo_sun_entry. split; [|reflexivity].
  apply list_elem_of_In. vm_compute. right. left. reflexivity.
Qed.

Lemma demo_dragging_reachable : @reachable demo_host demo_world demo_dragging_world.
Proof. apply reach_step; [apply reach_start|exact demo_sun_hit_ok]. Qed.

Lemma demo_random_range (k : nat) :
  0 <= @Math_random demo_host k /\ @Math_random demo_host k < 1.
Proof. simpl. split; lra. Qed.

(** The edge from "A" to the missing "B": the build throws. *)
Lemma build_throws_on_dangling_edge_witness :
  exists w, @build demo_host dangling_nodes dangling_edges = (TypeError, w)
            /\ (length (edgeGroup w) < length dangling_edges)%nat
            /\ particlePool w = [].
Proof.
  apply (build_throws_on_dangling_edge (H:=demo_host) dangling_nodes dangling_edges "A" "B").
  - apply list_elem_of_here.
  - right. simpl. intros Hin. apply list_elem_of_singleton in Hin. discriminate Hin.
Defined.

(** After the activation of "Sun" the pool still has its 200 particles. *)
Lemma particle_pool_bounded_witness :
  length (particlePool demo_dragging_world) = 200%nat
  /\ (alive_count (particlePool demo_dragging_world) <= 200)%nat
  /\ forall origin c,
       length (particlePool (@spawnParticles demo_host demo_dragging_world origin c))
       = 200%nat.
Proof.
  destruct (particle_pool_bounded (H:=demo_host) nodes edges
              demo_world demo_dragging_world) as (Hlen & Halive & Hspawn & _).
  - vm_compute. reflexivity.
  - apply reach_step; [apply reach_start|exact demo_sun_hit_ok].
  - split; [exact Hlen|]. split; [exact Halive|].
    intros origin c. apply (Hspawn origin c).
Defined.

(** The first activation of "Sun" brings the sun light from 0.8 to 1.7. *)
Lemma activation_raises_light_witness :
  sunLight_intensity (demo_activate_sun demo_world)
  = Math_min 2.2 (sunLight_intensity demo_world + 0.9)
  /\ sunLight_intensity (demo_activate_sun demo_world) <= 2.2
  /\ sunLight_intensity (demo_activate_sun demo_world) == 1.7
  /\ forall n, sunLight_intensity (Nat.iter (S n) demo_activate_sun demo_world) <= 2.2.
Proof.
  destruct (activation_raises_light (H:=demo_host) demo_world demo_sun_entry demo_sun_mesh)
    as [Hsun _].
  - vm_compute. reflexivity.
  - destruct (Hsun eq_refl) as (H1 & H2 & H3 & _ & H4).
    split; [exact H1|]. split; [exact H2|]. split; [|exact H4].
    unfold demo_activate_sun. rewrite H3; vm_compute; [reflexivity|discriminate].
Defined.

(** A reset after the activation of "Sun". *)
Lemma reset_restores_witness :
  camera_position (@step demo_host demo_dragging_world ResetClick) = Vector3.make 0 30 80
  /\ sunLight_intensity (@step demo_host demo_dragging_world ResetClick) = 0.8
  /\ torchLight_intensity (@step demo_host demo_dragging_world ResetClick) == 0
  /\ forall i m, nodeGroup (@step demo_host demo_dragging_world ResetClick) !! i = Some m ->
       plain_key (ud_category m) ->
       m_scale m = Vector3.setScalar (ud_baseScale m)
       /\ m_emissive m = 0%Z
       /\ m_emissiveIntensity m == 0.
Proof.
  destruct (reset_restores (H:=demo_host) nodes edges
              demo_world demo_dragging_world) as (_ & Hcam & Hsun & Htorch & _ & Hnodes).
  - vm_compute. reflexivity.
  - apply reach_step; [apply reach_start|exact demo_sun_hit_ok].
  - split; [exact Hcam|]. split; [exact Hsun|]. split; [exact Htorch|].
    intros i m Hi Hplain. destruct (Hnodes i m Hi) as (Hs & He & Hei).
    destruct (Hs Hplain) as [Hscale _]. auto.
Defined.

(** "Sun" dragged along the ray (1, 0, 0) from the camera: the line from
    "Material" to "Sun" follows. *)
Lemma drag_refreshes_edges_witness :
  m_position <$> nodeGroup demo_dragged_world !! 1%nat = Some (Vector3.make 1 29 80)
  /\ forall l, l ∈ edgeGroup demo_dragged_world ->
       line_a l = "Sun"%string \/ line_b l = "Sun"%string ->
       exists pa pb, endpoint_position demo_dragged_world (line_a l) = Some pa
                     /\ endpoint_position demo_dragged_world (line_b l) = Some pb
                     /\ line_geometry l = @setFromPoints demo_host pa pb.
Proof.
  destruct (drag_refreshes_edges (H:=demo_host) nodes edges
              demo_world demo_dragging_world 1 (activate_mesh demo_sun_mesh)
              (Vector3.make 0 30 80) (Vector3.make 1 0 0))
    as (_ & Hpos & _ & _ & Hlines).
  - vm_compute. reflexivity.
  - apply reach_step; [apply reach_start|exact demo_sun_hit_ok].
  - reflexivity.
  - vm_compute. reflexivity.
  - split; [unfold demo_dragged_world; rewrite Hpos; vm_compute; reflexivity|exact Hlines].
Defined.

(** A quarter of a second for the first particle of the burst. *)
Lemma animate_updates_particles_witness :
  exists p',
    particlePool (snd (@animate demo_host demo_dragging_world 0.25 (Vector3.make 0 30 80)))
      !! 0%nat = Some p'
    /\ life p' == 0.75
    /\ alive p' = true
    /\ Vector3.y (velocity p') == 3 * 0.98
    /\ p_opacity p' = life p' / 1.2.
Proof.
  destruct (animate_updates_particles (H:=demo_host) demo_dragging_world 0.25
              (Vector3.make 0 30 80) 0
              (@claim_particle demo_host 0 (Vector3.make 50 40 (-20)) 0xffd17a new_particle))
    as (p' & Hp' & _ & Halive).
  - vm_compute. reflexivity.
  - destruct (Halive eq_refl) as (Hlife & _ & Hmove).
    destruct Hmove as (Ha & _ & Hv & Ho & _); [vm_compute; reflexivity|].
    exists p'. split; [exact Hp'|]. split; [rewrite Hlife; vm_compute; reflexivity|].
    split; [exact Ha|]. split; [rewrite Hv; vm_compute; reflexivity|exact Ho].
Defined.

(** A spawn on the fresh pool claims slot 0. *)
Lemma spawnParticles_claims_first_idle_witness :
  exists p',
    particlePool (@spawnParticles demo_host demo_world (Vector3.make 1 2 3) (Some 0xff0000%Z))
      !! 0%nat = Some p'
    /\ alive p' = true
    /\ 0.7 <= life p' /\ life p' <= 1.3
    /\ p_position p' = Vector3.make 1 2 3
    /\ p_color p' = 0xff0000%Z
    /\ p_opacity p' == 1
    /\ visible p' = true.
Proof.
  destruct (spawnParticles_claims_first_idle (H:=demo_host) demo_random_range
              demo_world (Vector3.make 1 2 3) 0xff0000) as [Hclaim _].
  destruct (Hclaim 0%nat new_particle) as (p' & Hp' & Ha & Hl1 & Hl2 & _ & _ & _ & _ & _ & _ & _
                                           & Hpos & Hcol & Hop & Hvis & _).
  - vm_compute. reflexivity.
  - reflexivity.
  - intros j q Hj. lia.
  - exists p'. repeat split; assumption.
Defined.

(** With eight particles alive a spawn claims slot 8 and leaves slot 3. *)
Lemma spawnParticles_touches_one_slot_witness :
  particlePool (@spawnParticles demo_host demo_dragging_world (Vector3.make 1 2 3) None)
    !! 3%nat
  = particlePool demo_dragging_world !! 3%nat.
Proof.
  destruct (spawnParticles_touches_one_slot (H:=demo_host) demo_dragging_world
              (Vector3.make 1 2 3) None) as [Hframe _].
  apply Hframe. vm_compute. discriminate.
Defined.

(** The two nodes labelled "Same" share their texture. *)
Lemma makeLabelTexture_cached_witness :
  (fun m => sprite_map (m_sprite m)) <$> nodeGroup shared_label_world !! 0%nat
  = (fun m => sprite_map (m_sprite m)) <$> nodeGroup shared_label_world !! 1%nat.
Proof.
  destruct (makeLabelTexture_cached (H:=demo_host) initial_world "Same") as (_ & _ & Hshare).
  specialize (Hshare shared_label_nodes [] 0%nat 1%nat). fold shared_label_world in Hshare.
  destruct (nodeGroup shared_label_world !! 0%nat) as [mi|] eqn:Ei;
    [|vm_compute in Ei; discriminate].
  destruct (nodeGroup shared_label_world !! 1%nat) as [mj|] eqn:Ej;
    [|vm_compute in Ej; discriminate].
  simpl. f_equal. apply Hshare; [reflexivity|reflexivity|].
  vm_compute in Ei, Ej. injection Ei as <-. injection Ej as <-. reflexivity.
Defined.

(** The first variant with the sample rows loaded: a click on "Sun" takes
    the sun light from 0.8 to 2, where the rule of the specification gives
    1.7. *)
Lemma first_variant_click_sets_light_witness :
  CsvView.sunLight csv_page = 0.8
  /\ CsvView.sunLight (CsvView.onPointerDown cell_is csv_page [0%nat]) = 2
  /\ ~ CsvView.sunLight (CsvView.onPointerDown cell_is csv_page [0%nat])
        == Math_min 2.2 (CsvView.sunLight csv_page + 0.9)
  /\ Math_min 2.2 (CsvView.sunLight csv_page + 0.9) == 1.7.
Proof.
  pose proof (first_variant_click_sets_light cell_is csv_page 0 []
                (Csv.mkMesh 0xffd17a%Z (Some "50", Some "40", Some "-20")%string
                            (Some "Sun"%string))) as Hclick.
  cbv zeta in Hclick. destruct Hclick as [Hsun _]; [vm_compute; reflexivity|].
  destruct (Hsun eq_refl) as (Htwo & Hnot & _).
  split; [reflexivity|]. split; [exact Htwo|]. split.
  - apply Hnot. left. vm_compute. discriminate.
  - vm_compute. reflexivity.
Defined.

(** The same page: the sphere "Sun" is made with scale 1, and after a
    click and a reset it has scale 3. *)
Lemma first_variant_reset_keeps_scales_witness :
  CsvView.scales csv_page !! 0%nat = Some (Vector3.setScalar 1)
  /\ CsvView.scales (CsvView.run cell_is csv_page [CsvView.Click [0%nat]; CsvView.Reset])
       !! 0%nat = Some (Vector3.make 3 3 3)
  /\ CsvView.sunLight (CsvView.run cell_is csv_page [CsvView.Click [0%nat]; CsvView.Reset])
     = 0.8.
Proof.
  pose proof (first_variant_reset_keeps_scales cell_is csv_page 0 []
                (Csv.mkMesh 0xffd17a%Z (Some "50", Some "40", Some "-20")%string
                            (Some "Sun"%string))) as Hreset.
  cbv zeta in Hreset. destruct Hreset as (_ & Hsun & _ & Hscale & _).
  - vm_compute. reflexivity.
  - vm_compute. lia.
  - split; [reflexivity|]. split; [exact Hscale|exact Hsun].
Defined.

(** "Sun" dragged to (58.1, 29, 80): the line from "Material" to "Sun" has
    as its second point the x that a 32-bit float holds for 58.1, which is
    7615283 / 131072 and not 58.1. *)
Lemma drag_refreshes_edges_counterexample :
  exists l P,
    edgeGroup demo_fine_dragged_world !! 0%nat = Some l
    /\ line_a l = "Material"%string /\ line_b l = "Sun"%string
    /\ endpoint_position demo_fine_dragged_world "Sun" = Some P
    /\ vec_eq P (Vector3.make 58.1 29 80)
    /\ Vector3.x (snd (line_geometry l)) == 7615283 # 131072
    /\ ~ Vector3.x (snd (line_geometry l)) == Vector3.x P.
Proof.
  destruct (edgeGroup demo_fine_dragged_world !! 0%nat) as [l|] eqn:El;
    [|vm_compute in El; discriminate].
  destruct (endpoint_position demo_fine_dragged_world "Sun") as [P|] eqn:EP;
    [|vm_compute in EP; discriminate].
  exists l, P. vm_compute in El, EP. injection El as <-. injection EP as <-.
  split; [reflexivity|]. split; [reflexivity|]. split; [reflexivity|].
  split; [reflexivity|]. split; [vm_compute; repeat split|].
  split; [vm_compute; reflexivity|]. vm_compute. discriminate.
Defined.

(** * Further properties of the script *)

(** ** The scene builder, record by record *)

Section BuilderMore.
Context `{Host}.

Lemma initial_world_cache_inv : cache_inv initial_world.
Proof.
  split; simpl.
  - intros k t Hk. rewrite lookup_empty in Hk. discriminate.
  - intros k t Hk. rewrite lookup_empty in Hk. discriminate.
  - rewrite map_size_empty. reflexivity.
  - intros k1 k2 t1 t2 Hk. rewrite lookup_empty in Hk. discriminate.
Qed.

Lemma makeLabelTexture_cache_inv (w : World) (text : string) :
  cache_inv w ->
  let '(t, w') := makeLabelTexture w text in
  cache_inv w'
  /\ labelCanvasCache w' !! text = Some t
  /\ dom (labelCanvasCache w') = {[text]} ∪ dom (labelCanvasCache w)
  /\ nodeGroup w' = nodeGroup w /\ nodeMap w' = nodeMap w /\ randoms w' = randoms w.
Proof.
  intros [Htext Hfresh Hcount Hinj]. unfold makeLabelTexture.
  destruct (labelCanvasCache w !! text) as [t|] eqn:E.
  - split; [split; assumption|]. split; [exact E|]. split; [|auto].
    apply set_eq. intros k. rewrite elem_of_union, elem_of_singleton, !elem_of_dom.
    split; [auto|]. intros [->|Hk]; [eauto|exact Hk].
  - simpl. split; [|split; [apply lookup_insert_eq|split; [apply dom_insert_L|auto]]].
    split; simpl.
    + intros k t. destruct (decide (text = k)) as [<-|Hne].
      * rewrite lookup_insert_eq. intros [= <-]. reflexivity.
      * rewrite lookup_insert_ne by exact Hne. apply Htext.
    + intros k t. destruct (decide (text = k)) as [<-|Hne].
      * rewrite lookup_insert_eq. intros [= <-]. simpl. lia.
      * rewrite lookup_insert_ne by exact Hne. intros Hk. specialize (Hfresh k t Hk). lia.
    + rewrite map_size_insert_None by exact E. congruence.
    + intros k1 k2 t1 t2.
      destruct (decide (text = k1)) as [<-|Hne1], (decide (text = k2)) as [<-|Hne2];
        rewrite ?lookup_insert_eq, ?lookup_insert_ne by assumption.
      * reflexivity.
      * intros [= <-] Hk2 Huid. specialize (Hfresh k2 t2 Hk2). simpl in Huid. lia.
      * intros Hk1 [= <-] Huid. specialize (Hfresh k1 t1 Hk1). simpl in Huid. lia.
      * apply Hinj.
Qed.

(** One turn of the node loop: one mesh more, made of the record. *)
Lemma create_node_mesh (w : World) (n : NodeRecord) :
  cache_inv w ->
  exists m,
    nodeGroup (create_node w n) = nodeGroup w ++ [m]
    /\ mesh_of_record n m
    /\ cache_inv (create_node w n)
    /\ labelCanvasCache (create_node w n) !! label n = Some (sprite_map (m_sprite m))
    /\ dom (labelCanvasCache (create_node w n)) = {[label n]} ∪ dom (labelCanvasCache w)
    /\ nodeMap (create_node w n)
       = JSMap.set (nodeMap w) (id n) (mkNodeEntry (length (nodeGroup w)) n).
Proof.
  intros Hci. unfold create_node.
  assert (Hpos : exists pos w1,
             node_position w n = (pos, w1)
             /\ cache_inv w1 /\ labelCanvasCache w1 = labelCanvasCache w
             /\ nodeGroup w1 = nodeGroup w /\ nodeMap w1 = nodeMap w
             /\ (forall p, position n = Some p -> pos = p)
             /\ (position n = None ->
                 exists r, pos = Vector3.make ((Math_random r - 0.5) * 40)
                                              ((Math_random (r + 1) - 0.5) * 20)
                                              ((Math_random (r + 2) - 0.5) * 40))).
  { unfold node_position. destruct (position n) as [p|] eqn:Ep.
    - exists p, w. repeat split; try apply Hci; [congruence|discriminate].
    - eexists _, _. split; [reflexivity|]. destruct Hci. repeat split; try assumption.
      + discriminate.
      + intros _. eexists. reflexivity. }
  destruct Hpos as (pos & w1 & -> & Hci1 & Hc1 & Hg1 & Hm1 & Hgiven & Hrandom).
  pose proof (makeLabelTexture_cache_inv w1 (label n) Hci1) as Ht.
  destruct (makeLabelTexture w1 (label n)) as [tex w2].
  destruct Ht as (Hci2 & Hlook & Hdom & Hg2 & Hm2 & _).
  eexists. split; [simpl; rewrite Hg2, Hg1; reflexivity|].
  split; [|split; [destruct Hci2; split; assumption|split; [exact Hlook|split]]].
  - unfold mesh_of_record. simpl. repeat split; try assumption.
    apply (ci_text _ Hci2 _ _ Hlook).
  - simpl. rewrite Hdom, Hc1. reflexivity.
  - simpl. rewrite Hm2, Hm1, Hg2, Hg1. reflexivity.
Qed.

(** The node loop: the meshes it adds are those of the records, in order. *)
Lemma create_nodes_meshes (nodes : list NodeRecord) (w : World) :
  cache_inv w ->
  exists ms,
    nodeGroup (create_nodes w nodes) = nodeGroup w ++ ms
    /\ Forall2 mesh_of_record nodes ms
    /\ cache_inv (create_nodes w nodes)
    /\ dom (labelCanvasCache (create_nodes w nodes))
       = list_to_set (label <$> nodes) ∪ dom (labelCanvasCache w).
Proof.
  revert w. induction nodes as [|n rest IH]; intros w Hci; simpl.
  - exists []. rewrite app_nil_r. split; [reflexivity|]. split; [constructor|].
    split; [exact Hci|]. simpl. rewrite (left_id_L ∅ (∪)). reflexivity.
  - destruct (create_node_mesh w n Hci) as (m & Hg & Hm & Hci' & _ & Hdom & _).
    destruct (IH (create_node w n) Hci') as (ms & Hg' & Hms & Hci'' & Hdom').
    exists (m :: ms). split; [rewrite Hg', Hg, <- app_assoc; reflexivity|].
    split; [constructor; assumption|]. split; [exact Hci''|].
    rewrite Hdom', Hdom. simpl.
    rewrite (assoc_L (∪)), (comm_L (∪) (list_to_set (label <$> rest))). reflexivity.
Qed.

(** The edge loop and the pool leave the node part of the state alone. *)
Lemma create_edges_keeps (edges : list (string * string)) (w : World) :
  let w' := snd (create_edges w edges) in
  nodeGroup w' = nodeGroup w /\ nodeMap w' = nodeMap w
  /\ labelCanvasCache w' = labelCanvasCache w /\ textures w' = textures w.
Proof.
  revert w. induction edges as [|[a b] rest IH]; intros w; simpl; [auto|].
  destruct (endpoint_position w a); [|simpl; auto].
  destruct (endpoint_position w b); [|simpl; auto].
  apply (IH (set_edgeGroup w _)).
Qed.

Lemma build_keeps_nodes (nodes : list NodeRecord) (edges : list (string * string)) :
  let w0 := create_nodes initial_world nodes in
  let w := snd (build nodes edges) in
  nodeGroup w = nodeGroup w0 /\ nodeMap w = nodeMap w0
  /\ labelCanvasCache w = labelCanvasCache w0 /\ textures w = textures w0.
Proof.
  intros w0 w. subst w. unfold build. fold w0.
  pose proof (create_edges_keeps edges w0) as Hk.
  destruct (create_edges w0 edges) as [[|e] w1]; simpl in *; exact Hk.
Qed.

End BuilderMore.

Section BuilderExtras.
Context `{Host}.

Lemma create_edges_lines (edges : list (string * string)) (w w' : World) :
  create_edges w edges = (Returned, w') ->
  topology (edgeGroup w') = topology (edgeGroup w) ++ edges
  /\ forall l, l ∈ edgeGroup w' ->
       l ∈ edgeGroup w
       \/ exists pa pb, endpoint_position w (line_a l) = Some pa
                        /\ endpoint_position w (line_b l) = Some pb
                        /\ line_geometry l = setFromPoints pa pb.
Proof.
  revert w. induction edges as [|[a b] rest IH]; intros w; simpl.
  - intros [= <-]. rewrite app_nil_r. auto.
  - destruct (endpoint_position w a) as [pa|] eqn:Ea; [|discriminate].
    destruct (endpoint_position w b) as [pb|] eqn:Eb; [|discriminate].
    intros Hrest. destruct (IH _ Hrest) as [Htop Hl]. simpl in Htop. split.
    + rewrite Htop. unfold topology. rewrite fmap_app, <- app_assoc. reflexivity.
    + intros l Hin. destruct (Hl l Hin) as [Hold|Hnew]; [|right; exact Hnew].
      simpl in Hold. apply elem_of_app in Hold as [Hold|Hold]; [left; exact Hold|].
      apply list_elem_of_singleton in Hold as ->. right. simpl. eauto.
Qed.

Lemma build_returns_topology (nodes : list NodeRecord) (edges : list (string * string)) :
  fst (build nodes edges) = Returned ->
  topology (edgeGroup (snd (build nodes edges))) = edges.
Proof.
  pose proof (create_nodes_nodes_built nodes _ initial_world_nodes_built) as Hnb.
  unfold build.
  destruct (create_edges (create_nodes initial_world nodes) edges) as [[|e] w1] eqn:E;
    [|discriminate].
  intros _. simpl. destruct (create_edges_lines _ _ _ E) as [Htop _].
  rewrite (nb_edges _ Hnb) in Htop. exact Htop.
Qed.

(** X1. The build returns exactly when both ids of every edge record are
    ids of node records. It has then made one line for each edge record,
    in the order of the records, with the ids of the record and, as the two
    points of its geometry, the positions of the two nodes, each coordinate
    narrowed to a 32-bit float as the geometry stores it. *)
Theorem build_returns_iff_edges_resolve (nodes : list NodeRecord)
    (edges : list (string * string)) :
  (fst (build nodes edges) = Returned <-> Forall (edge_resolves nodes) edges)
  /\ (fst (build nodes edges) = Returned ->
      topology (edgeGroup (snd (build nodes edges))) = edges
      /\ forall l, l ∈ edgeGroup (snd (build nodes edges)) ->
           exists pa pb,
             endpoint_position (snd (build nodes edges)) (line_a l) = Some pa
             /\ endpoint_position (snd (build nodes edges)) (line_b l) = Some pb
             /\ line_geometry l = setFromPoints pa pb).
Proof.
  pose proof (create_nodes_nodes_built nodes _ initial_world_nodes_built) as Hnb.
  assert (Hret : forall w, build nodes edges = (Returned, w) ->
            exists w1, create_edges (create_nodes initial_world nodes) edges = (Returned, w1)
                       /\ w = create_particles w1).
  { unfold build. intros w Hb.
    destruct (create_edges (create_nodes initial_world nodes) edges) as [[|e] w1];
      [|discriminate].
    injection Hb as <-. eauto. }
  split; [split|].
  - intros Hb. destruct (build nodes edges) as [o w] eqn:E. simpl in Hb. subst o.
    apply (build_returned_edge_count nodes edges w E).
  - intros Hall. unfold build.
    destruct (create_edges_returned edges (create_nodes initial_world nodes)) as (w' & -> & _);
      [|reflexivity].
    eapply Forall_impl; [exact Hall|]. intros [a b] [Ha Hb].
    split; simpl in *; apply built_endpoint_iff; assumption.
  - intros Hb. destruct (build nodes edges) as [o w] eqn:E. simpl in Hb. subst o.
    destruct (Hret w eq_refl) as (w1 & Hw1 & ->). simpl.
    destruct (create_edges_lines _ _ _ Hw1) as [Htop Hl].
    rewrite (nb_edges _ Hnb) in Htop. split; [exact Htop|].
    pose proof (create_edges_frame edges (create_nodes initial_world nodes)) as Hf.
    rewrite Hw1 in Hf. destruct Hf as (Hg & Hm & _).
    intros l Hin. destruct (Hl l Hin) as [Hold|(pa & pb & Ha & Hb & Hgeo)].
    + rewrite (nb_edges _ Hnb) in Hold. inversion Hold.
    + exists pa, pb. split; [|split; [|exact Hgeo]].
      * rewrite <- Ha. apply endpoint_position_ext; assumption.
      * rewrite <- Hb. apply endpoint_position_ext; assumption.
Qed.

(** X2. The node loop makes one mesh for each node record, in the order of
    the records: mesh [i] has the id, label and category of record [i],
    and, when the category is not an inherited name, the size and colour of
    the style of its category (the default style for a category without a
    style), no highlight, no pulse, the label sprite above it, and the
    position of the record when the record has one. *)
Theorem build_one_mesh_per_record (nodes : list NodeRecord)
    (edges : list (string * string)) :
  length (nodeGroup (snd (build nodes edges))) = length nodes
  /\ forall i n, nodes !! i = Some n ->
       exists m, nodeGroup (snd (build nodes edges)) !! i = Some m
                 /\ ud_id m = id n /\ ud_label m = label n
                 /\ ud_category m = category n
                 /\ (plain_key (category n) -> mesh_of_record n m).
Proof.
  destruct (build_keeps_nodes nodes edges) as (-> & _).
  destruct (create_nodes_meshes nodes initial_world initial_world_cache_inv)
    as (ms & -> & Hms & _).
  simpl. split; [symmetry; apply (Forall2_length _ _ _ Hms)|].
  intros i n Hn. destruct (Forall2_lookup_l _ _ _ _ _ Hms Hn) as (m & Hm & Hnm).
  exists m. destruct Hnm as (Nid & Nlab & Ncat & Nrest).
  split; [exact Hm|]. split; [exact Nid|]. split; [exact Nlab|]. split; [exact Ncat|].
  intros _. split; [exact Nid|]. split; [exact Nlab|]. split; [exact Ncat|exact Nrest].
Qed.

Lemma create_nodes_get_other (nodes : list NodeRecord) (w : World) (k : string) :
  k ∉ id <$> nodes ->
  JSMap.get (nodeMap (create_nodes w nodes)) k = JSMap.get (nodeMap w) k.
Proof.
  revert w. induction nodes as [|n rest IH]; intros w Hk; simpl; [reflexivity|].
  simpl in Hk. apply not_elem_of_cons in Hk as [Hne Hk].
  rewrite (IH _ Hk). destruct (create_node_spec w n) as (_ & _ & _ & -> & _).
  apply JSMap_get_set_ne. exact Hne.
Qed.

Lemma create_nodes_get_last (nodes : list NodeRecord) (w : World) (i : nat) (n : NodeRecord) :
  nodes !! i = Some n ->
  (forall j n', (i < j)%nat -> nodes !! j = Some n' -> id n' <> id n) ->
  JSMap.get (nodeMap (create_nodes w nodes)) (id n)
  = Some (mkNodeEntry (length (nodeGroup w) + i) n).
Proof.
  revert w i. induction nodes as [|n0 rest IH]; intros w i Hi Hlast; [discriminate|].
  simpl. destruct (create_node_spec w n0) as (pos & tex & Hg & Hm & _). simpl in Hg.
  destruct i as [|i]; simpl in Hi.
  - injection Hi as ->. rewrite create_nodes_get_other.
    + rewrite Hm, JSMap_get_set_eq, Nat.add_0_r. reflexivity.
    + intros Hin. apply list_elem_of_fmap in Hin as (n' & Hid & Hin).
      apply list_elem_of_lookup in Hin as [j Hj].
      apply (Hlast (S j) n'); [lia|exact Hj|congruence].
  - rewrite (IH (create_node w n0) i Hi).
    + rewrite Hg, length_app. simpl. do 2 f_equal. lia.
    + intros j n' Hj Hn'. apply (Hlast (S j) n'); [lia|exact Hn'].
Qed.

(** X3. After the build [nodeMap] holds, for an id, the mesh of the last
    node record with that id, and nothing for an id that no record has:
    [nodeMap.set] of a later record with the same id takes the place of
    the earlier one, whose mesh stays in [nodeGroup] without an entry. *)
Theorem nodeMap_holds_last_record (nodes : list NodeRecord)
    (edges : list (string * string)) :
  (forall i n, nodes !! i = Some n ->
     (forall j n', (i < j)%nat -> nodes !! j = Some n' -> id n' <> id n) ->
     JSMap.get (nodeMap (snd (build nodes edges))) (id n) = Some (mkNodeEntry i n))
  /\ (forall i n j n', nodes !! i = Some n -> nodes !! j = Some n' ->
        (i < j)%nat -> id n' = id n ->
        forall e, JSMap.get (nodeMap (snd (build nodes edges))) (id n) = Some e ->
                  mesh e <> i)
  /\ (forall k, k ∉ id <$> nodes ->
        JSMap.get (nodeMap (snd (build nodes edges))) k = None).
Proof.
  destruct (build_keeps_nodes nodes edges) as (_ & -> & _).
  assert (Hlast : forall i n, nodes !! i = Some n ->
            (forall j n', (i < j)%nat -> nodes !! j = Some n' -> id n' <> id n) ->
            JSMap.get (nodeMap (create_nodes initial_world nodes)) (id n)
            = Some (mkNodeEntry i n)).
  { intros i n Hi Hl. rewrite (create_nodes_get_last nodes initial_world i n Hi Hl).
    reflexivity. }
  split; [exact Hlast|]. split.
  - intros i n j n' Hi Hj Hij Hid e He.
    (* the last record with this id is at an index after [i] *)
    assert (Hex : exists j0 n0, (i < j0)%nat /\ nodes !! j0 = Some n0 /\ id n0 = id n
                    /\ forall j1 n1, (j0 < j1)%nat -> nodes !! j1 = Some n1 -> id n1 <> id n0).
    { clear He e Hlast. revert i j n n' Hi Hj Hij Hid.
      induction nodes as [|x rest IH] using rev_ind; intros i j n n' Hi Hj Hij Hid;
        [discriminate|].
      apply lookup_snoc_Some in Hj as [[Hjlt Hj]|[-> <-]].
      - apply lookup_snoc_Some in Hi as [[_ Hi]|[-> _]]; [|lia].
        destruct (decide (id x = id n)) as [Hx|Hx].
        + exists (length rest), x. split; [eapply Nat.lt_trans; [exact Hij|exact Hjlt]|].
          split; [apply list_lookup_middle; reflexivity|]. split; [exact Hx|].
          intros j1 n1 Hj1 Hn1. apply lookup_lt_Some in Hn1. rewrite length_app in Hn1.
          simpl in Hn1. lia.
        + destruct (IH i j n n' Hi Hj Hij Hid) as (j0 & n0 & Hlt & Hn0 & Hid0 & Hl0).
          exists j0, n0. split; [exact Hlt|]. split.
          * rewrite lookup_app_l; [exact Hn0|]. eapply lookup_lt_Some, Hn0.
          * split; [exact Hid0|]. intros j1 n1 Hj1 Hn1.
            apply lookup_snoc_Some in Hn1 as [[_ Hn1]|[_ <-]]; [eapply Hl0; eassumption|].
            congruence.
      - exists (length rest), x. apply lookup_snoc_Some in Hi as [[Hilt Hi]|[-> _]]; [|lia].
        split; [exact Hilt|]. split; [apply list_lookup_middle; reflexivity|].
        split; [exact Hid|]. intros j1 n1 Hj1 Hn1. apply lookup_lt_Some in Hn1.
        rewrite length_app in Hn1. simpl in Hn1. lia. }
    destruct Hex as (j0 & n0 & Hlt & Hn0 & Hid0 & Hl0).
    rewrite <- Hid0, (Hlast j0 n0 Hn0 Hl0) in He. injection He as <-. simpl. lia.
  - intros k Hk. rewrite create_nodes_get_other by exact Hk. reflexivity.
Qed.

(** X4. When [Math.random()] returns values of [0, 1), the mesh of a node
    record without position is placed at random within 20 of the origin
    along x and z and within 10 along y. *)
Theorem random_position_in_box
    (Hrand : forall k, 0 <= Math_random k /\ Math_random k < 1)
    (nodes : list NodeRecord) (edges : list (string * string))
    (i : nat) (n : NodeRecord) (m : NodeMesh) :
  nodes !! i = Some n ->
  position n = None ->
  nodeGroup (snd (build nodes edges)) !! i = Some m ->
  (-20 <= Vector3.x (m_position m) /\ Vector3.x (m_position m) < 20)
  /\ (-10 <= Vector3.y (m_position m) /\ Vector3.y (m_position m) < 10)
  /\ (-20 <= Vector3.z (m_position m) /\ Vector3.z (m_position m) < 20).
Proof.
  intros Hn Hpos Hm.
  destruct (build_keeps_nodes nodes edges) as (Hg & _). rewrite Hg in Hm.
  destruct (create_nodes_meshes nodes initial_world initial_world_cache_inv)
    as (ms & Hms' & Hms & _).
  rewrite Hms' in Hm. simpl in Hm.
  destruct (Forall2_lookup_l _ _ _ _ _ Hms Hn) as (m' & Hm' & Hnm).
  rewrite Hm in Hm'. injection Hm' as <-.
  destruct Hnm as (_ & _ & _ & _ & _ & _ & _ & _ & _ & _ & _ & _ & _ & Hr).
  destruct (Hr Hpos) as [r ->]. simpl.
  pose proof (Hrand r) as [? ?]. pose proof (Hrand (r + 1)%nat) as [? ?].
  pose proof (Hrand (r + 2)%nat) as [? ?]. repeat split; lra.
Qed.

(** X5. The build makes one label texture for each distinct label string:
    the count of textures made is the number of distinct labels, and two
    node meshes have the same texture object on their label sprites
    exactly when their labels are the same string. *)
Theorem labels_one_texture_each (nodes : list NodeRecord)
    (edges : list (string * string)) :
  textures (snd (build nodes edges))
  = base.size (list_to_set (label <$> nodes) : gset string)
  /\ forall i j mi mj,
       nodeGroup (snd (build nodes edges)) !! i = Some mi ->
       nodeGroup (snd (build nodes edges)) !! j = Some mj ->
       (tex_uid (sprite_map (m_sprite mi)) = tex_uid (sprite_map (m_sprite mj))
        <-> ud_label mi = ud_label mj).
Proof.
  destruct (build_keeps_nodes nodes edges) as (Hg & _ & Hc & Ht).
  rewrite Hg, Ht.
  destruct (create_nodes_meshes nodes initial_world initial_world_cache_inv)
    as (ms & Hms' & Hms & Hci & Hdom).
  pose proof (create_nodes_nodes_built nodes _ initial_world_nodes_built) as Hnb.
  split.
  - rewrite (ci_count _ Hci), <- size_dom, Hdom. simpl.
    rewrite dom_empty_L, (right_id_L ∅ (∪)). reflexivity.
  - intros i j mi mj Hi Hj.
    pose proof (nb_label _ Hnb i mi Hi) as Li. pose proof (nb_label _ Hnb j mj Hj) as Lj.
    split.
    + intros Huid. apply (ci_inj _ Hci _ _ _ _ Li Lj Huid).
    + intros Hlab. rewrite Hlab in Li. congruence.
Qed.

End BuilderExtras.

(** ** Activation and the pointer handlers *)

Section ActivationExtras.
Context `{Host}.

Lemma alive_count_cons (p : Particle) (pool : list Particle) :
  alive_count (p :: pool) = ((if alive p then 1 else 0) + alive_count pool)%nat.
Proof.
  unfold alive_count. destruct (alive p) eqn:E.
  - rewrite filter_cons_True by exact E. reflexivity.
  - rewrite filter_cons_False by congruence. reflexivity.
Qed.

Lemma alive_count_claim (f : Particle -> Particle) (pool : list Particle) (i : nat) :
  (forall p, alive (f p) = true) ->
  first_idle pool = Some i ->
  alive_count (alter f i pool) = S (alive_count pool).
Proof.
  intros Hf. revert i. induction pool as [|p rest IH]; intros i; simpl; [discriminate|].
  destruct (alive p) eqn:Ep.
  - destruct (first_idle rest) as [k|]; [|discriminate]. intros [= <-].
    change (alter f (S k) (p :: rest)) with (p :: alter f k rest).
    rewrite !alive_count_cons, Ep, (IH k eq_refl). lia.
  - intros [= <-]. change (alter f 0%nat (p :: rest)) with (f p :: rest).
    rewrite !alive_count_cons, Ep, Hf. lia.
Qed.

Lemma alive_count_full (pool : list Particle) :
  first_idle pool = None -> alive_count pool = length pool.
Proof.
  induction pool as [|p rest IH]; simpl; [reflexivity|].
  destruct (alive p) eqn:Ep; [|discriminate].
  destruct (first_idle rest); [discriminate|]. intros _.
  rewrite alive_count_cons, Ep, IH by reflexivity. reflexivity.
Qed.

(** One call of [spawnParticles] makes one idle particle alive, if there
    is one. *)
Lemma spawnParticles_alive_count (w : World) origin c :
  alive_count (particlePool (spawnParticles w origin c))
  = Nat.min (length (particlePool w)) (S (alive_count (particlePool w))).
Proof.
  unfold spawnParticles. destruct (first_idle (particlePool w)) as [i|] eqn:E; simpl.
  - pose proof (alive_count_claim (claim_particle (randoms w) origin (default 0xffffff%Z c))
                  (particlePool w) i (fun _ => eq_refl) E) as Hc.
    pose proof (alive_count_le (alter (claim_particle (randoms w) origin
                  (default 0xffffff%Z c)) i (particlePool w))) as Hle.
    rewrite length_alter in Hle. lia.
  - rewrite (alive_count_full _ E). lia.
Qed.

(** A particle after a call is the particle before it, or an idle one
    claimed at [origin] with the colour [c]. *)
Lemma spawnParticles_slots (w : World) origin (c : Z) (j : nat) (q : Particle) :
  particlePool (spawnParticles w origin (Some c)) !! j = Some q ->
  particlePool w !! j = Some q
  \/ exists q0 r, particlePool w !! j = Some q0 /\ alive q0 = false
                  /\ q = claim_particle r origin c q0.
Proof.
  unfold spawnParticles. destruct (first_idle (particlePool w)) as [i|] eqn:E; simpl; [|auto].
  apply first_idle_spec in E as [(p & Hp & Hidle) _].
  destruct (decide (i = j)) as [<-|Hne].
  - rewrite list_lookup_alter_eq, Hp. intros [= <-]. right. eauto.
  - rewrite list_lookup_alter_ne by exact Hne. auto.
Qed.

Lemma spawn_burst (n : nat) (w : World) origin (c : Z) :
  let w' := Nat.iter n (fun w0 => spawnParticles w0 origin (Some c)) w in
  alive_count (particlePool w')
  = Nat.min (length (particlePool w)) (alive_count (particlePool w) + n)
  /\ forall j q, particlePool w' !! j = Some q ->
       particlePool w !! j = Some q
       \/ exists q0 r, particlePool w !! j = Some q0 /\ alive q0 = false
                       /\ q = claim_particle r origin c q0.
Proof.
  induction n as [|n [IHc IHs]]; simpl.
  - split; [pose proof (alive_count_le (particlePool w)); lia|auto].
  - split.
    + rewrite spawnParticles_alive_count, IHc, spawnParticles_iter_length. lia.
    + intros j q Hq. apply spawnParticles_slots in Hq as [Hq|(q0 & r & Hq0 & Hidle & ->)].
      * apply IHs, Hq.
      * destruct (IHs j q0 Hq0) as [Hold|(q1 & r1 & _ & _ & ->)]; [right; eauto|].
        discriminate Hidle.
Qed.

(** X6. An activation spawns a burst of eight particles, cut short by the
    pool: the particles alive after it are eight more than before, or the
    whole pool when fewer than eight were idle. Every particle that it
    changed was idle and is now alive at the position of the activated
    mesh, in the colour of its category. *)
Theorem activation_burst (w : World) (e : NodeEntry) (m : NodeMesh) :
  nodeGroup w !! mesh e = Some m ->
  let w' := snd (onNodeActivate w (Some e)) in
  alive_count (particlePool w')
  = Nat.min (length (particlePool w)) (alive_count (particlePool w) + 8)
  /\ length (particlePool w') = length (particlePool w)
  /\ forall j q, particlePool w' !! j = Some q ->
       particlePool w !! j = Some q
       \/ exists q0, particlePool w !! j = Some q0 /\ alive q0 = false
                     /\ alive q = true /\ visible q = true
                     /\ p_position q = m_position m
                     /\ p_color q = color (style_of (ud_category m))
                     /\ p_opacity q == 1.
Proof.
  intros Em. unfold onNodeActivate. rewrite Em. cbv zeta.
  set (w1 := set_nodeGroup w (<[mesh e := activate_mesh m]> (nodeGroup w))).
  pose proof (spawn_burst 8 w1 (m_position m) (color (style_of (ud_category m)))) as Hb.
  pose proof (spawnParticles_iter_length 8 w1 (m_position m)
                (Some (color (style_of (ud_category m))))) as Hlen.
  cbv zeta in Hb. set (w2 := Nat.iter 8 _ w1) in *. clearbody w2.
  change (particlePool w1) with (particlePool w) in *.
  assert (Hpool : forall w3, particlePool w3 = particlePool w2 ->
            alive_count (particlePool w3)
            = Nat.min (length (particlePool w)) (alive_count (particlePool w) + 8)
            /\ length (particlePool w3) = length (particlePool w)
            /\ forall j q, particlePool w3 !! j = Some q ->
                 particlePool w !! j = Some q
                 \/ exists q0, particlePool w !! j = Some q0 /\ alive q0 = false
                     /\ alive q = true /\ visible q = true
                     /\ p_position q = m_position m
                     /\ p_color q = color (style_of (ud_category m))
                     /\ p_opacity q == 1).
  { intros w3 ->. destruct Hb as [Hc Hs]. split; [exact Hc|]. split; [exact Hlen|].
    intros j q Hq. destruct (Hs j q Hq) as [Hold|(q0 & r & Hq0 & Hidle & ->)]; [auto|].
    right. exists q0. simpl. repeat split; assumption || reflexivity. }
  destruct (String.eqb (ud_id m) "Sun"); [|destruct (String.eqb (ud_id m) "Torch")];
    apply Hpool; reflexivity.
Qed.

End ActivationExtras.

Section PointerExtras.
Context `{Host}.

(** What an activation leaves alone, whatever it is given. *)
Lemma onNodeActivate_keeps (w : World) (nodeEntry : option NodeEntry) :
  let w' := snd (onNodeActivate w nodeEntry) in
  dragging w' = dragging w /\ dragOffset w' = dragOffset w
  /\ camera_position w' = camera_position w
  /\ edgeGroup w' = edgeGroup w /\ nodeMap w' = nodeMap w
  /\ (forall j, m_position <$> nodeGroup w' !! j = m_position <$> nodeGroup w !! j)
  /\ (forall e m, nodeEntry = Some e -> nodeGroup w !! mesh e = Some m ->
        fst (onNodeActivate w nodeEntry) = Returned
        /\ nodeGroup w' = <[mesh e := activate_mesh m]> (nodeGroup w)).
Proof.
  unfold onNodeActivate. destruct nodeEntry as [e|].
  2:{ simpl. repeat split; try reflexivity; discriminate. }
  destruct (nodeGroup w !! mesh e) as [m|] eqn:Em.
  2:{ simpl. repeat split; try reflexivity; congruence. }
  cbv zeta.
  set (w1 := set_nodeGroup w (<[mesh e := activate_mesh m]> (nodeGroup w))).
  pose proof (spawn_burst_pool_only 8 w1 (m_position m)
                (Some (color (style_of (ud_category m))))) as Hpo.
  set (w2 := Nat.iter 8 _ w1) in *. clearbody w2.
  destruct Hpo as [Hcam _ _ Hn Hm Hl Hd Ho _].
  assert (Hpos : forall j, m_position <$> nodeGroup w2 !! j = m_position <$> nodeGroup w !! j).
  { intros j. rewrite Hn. simpl. destruct (decide (mesh e = j)) as [<-|Hne].
    - rewrite list_lookup_insert_eq by (eapply lookup_lt_Some, Em). rewrite Em. reflexivity.
    - rewrite list_lookup_insert_ne by exact Hne. reflexivity. }
  destruct (String.eqb (ud_id m) "Sun"); [|destruct (String.eqb (ud_id m) "Torch")];
    simpl; rewrite ?Hcam, ?Hm, ?Hl, ?Hd, ?Ho;
    (split; [reflexivity|]; split; [reflexivity|]; split; [reflexivity|];
     split; [reflexivity|]; split; [reflexivity|]; split; [exact Hpos|];
     intros e' m' [= <-] Hm'; rewrite Em in Hm'; injection Hm' as <-;
     split; [reflexivity|exact Hn]).
Qed.

(** X7. In a session, a pointer-down whose nearest hit is the sphere of a
    node returns, takes that mesh as the one dragged with the offset from
    its position to the hit point, and activates that same mesh, the one
    [nodeMap] holds for its id: it gets the pulse and the highlight, no
    other mesh and no line is changed. *)
Theorem pointer_down_activates_hit_node (nodes : list NodeRecord)
    (edges : list (string * string)) (w0 w : World)
    (i : nat) (m : NodeMesh) (p : Vector3.t) (rest : list Intersection) :
  build nodes edges = (Returned, w0) ->
  reachable w0 w ->
  is_nodeMap_mesh w i ->
  nodeGroup w !! i = Some m ->
  let ev := PointerDown (mkIntersection (NodeObj i) p :: rest) in
  handle w ev = (Returned, step w ev)
  /\ dragging (step w ev) = Some (NodeObj i)
  /\ dragOffset (step w ev) = Vector3.sub p (m_position m)
  /\ nodeGroup (step w ev) !! i = Some (activate_mesh m)
  /\ (forall j, j <> i -> nodeGroup (step w ev) !! j = nodeGroup w !! j)
  /\ edgeGroup (step w ev) = edgeGroup w.
Proof.
  intros Hb Hr Hmesh Hm ev.
  pose proof (reachable_well_formed w0 w (build_well_formed _ _ _ Hb) Hr) as Hw.
  destruct (nodeMap_mesh_entry w i m Hw Hmesh Hm) as (e & He & Hme).
  subst ev. unfold step, handle, onPointerDown. cbn [object].
  set (w1 := set_dragging w (Some (NodeObj i))).
  assert (Hpos : object_position w1 (NodeObj i) = Some (m_position m)).
  { unfold object_position. change (nodeGroup w1) with (nodeGroup w). rewrite Hm. reflexivity. }
  rewrite Hpos. cbv zeta. cbn [point].
  set (w2 := set_dragOffset w1 (Vector3.sub p (m_position m))).
  assert (Hentry : entry_of_object w2 (NodeObj i) = Some e).
  { unfold entry_of_object, object_id. change (nodeGroup w2) with (nodeGroup w).
    rewrite Hm. exact He. }
  rewrite Hentry.
  destruct (onNodeActivate_keeps w2 (Some e)) as (Hd & Ho & _ & Hl & _ & _ & Hact).
  destruct (Hact e m eq_refl) as [Hret Hg].
  { change (nodeGroup w2) with (nodeGroup w). rewrite Hme. exact Hm. }
  cbv zeta in *.
  destruct (onNodeActivate w2 (Some e)) as [o w3]. simpl in *. subst o.
  split; [reflexivity|]. split; [exact Hd|]. split; [exact Ho|].
  rewrite Hg, Hme. split; [|split; [|exact Hl]].
  - apply list_lookup_insert_eq. eapply lookup_lt_Some, Hm.
  - intros j Hj. apply list_lookup_insert_ne. congruence.
Qed.

Lemma update_lines_no_id (w : World) (lines : list Line) :
  update_lines w None lines = (Returned, lines).
Proof.
  induction lines as [|l rest IH]; simpl; [reflexivity|]. rewrite IH. reflexivity.
Qed.

(** X8. A pointer-down whose nearest hit is the label sprite of a node
    throws: the sprite has no id, [nodeMap.get] gives nothing and
    [onNodeActivate] reads [.mesh] of it. The sprite is by then the one
    dragged. A pointer-move that follows returns, moves the sprite within
    its mesh and changes no line; the drag ends with the pointer-up. *)
Theorem label_hit_throws_and_drags_sprite (w : World) (i : nat) (m : NodeMesh)
    (p : Vector3.t) (rest : list Intersection) (origin dir : Vector3.t) :
  nodeGroup w !! i = Some m ->
  let down := PointerDown (mkIntersection (LabelObj i) p :: rest) in
  let w1 := set_dragOffset (set_dragging w (Some (LabelObj i)))
                           (Vector3.sub p (sprite_position (m_sprite m))) in
  let P := Vector3.sub
             (Vector3.add
                (Vector3.multiplyScalar dir
                   (distanceTo (sprite_position (m_sprite m)) (camera_position w)))
                origin)
             (Vector3.sub p (sprite_position (m_sprite m))) in
  handle w down = (TypeError, w1)
  /\ handle w1 (PointerMove origin dir)
     = (Returned, set_nodeGroup w1 (alter (move_sprite P) i (nodeGroup w)))
  /\ dragging (step (step w1 (PointerMove origin dir)) PointerUp) = None.
Proof.
  intros Hm down w1 P. split; [|split; [|reflexivity]].
  - subst down. unfold handle, onPointerDown. cbn [object point].
    unfold object_position. cbn [nodeGroup set_dragging]. rewrite Hm. reflexivity.
  - unfold handle, onPointerMove. cbn [dragging w1 set_dragOffset set_dragging].
    unfold object_position. cbn [nodeGroup w1 set_dragOffset set_dragging]. rewrite Hm.
    cbn [fmap option_fmap option_map]. cbv zeta.
    cbn [camera_position dragOffset w1 set_dragOffset set_dragging]. fold P.
    unfold object_id. rewrite update_lines_no_id. reflexivity.
Qed.

Lemma update_lines_untouched (w : World) (k : option string) (lines : list Line)
    (n : nat) (l : Line) :
  lines !! n = Some l -> touches k l = false ->
  snd (update_lines w k lines) !! n = Some l.
Proof.
  revert n. induction lines as [|l0 rest IH]; intros n Hn Ht; [discriminate|].
  simpl. destruct n as [|n]; simpl in Hn.
  - injection Hn as ->. rewrite Ht. destruct (update_lines w k rest). reflexivity.
  - specialize (IH n Hn Ht). destruct (touches k l0).
    + destruct (endpoint_position w (line_a l0)), (endpoint_position w (line_b l0));
        try exact Hn; destruct (update_lines w k rest); exact IH.
    + destruct (update_lines w k rest). exact IH.
Qed.

(** X9. A pointer-move while a node mesh is dragged writes the position
    of that mesh and the geometry of the lines with its id, and nothing
    else: the mesh keeps its scale, highlight, pulse and label, every
    other mesh and every line without its id is as before, and so are the
    particles, the lights, the camera and the drag state. Without a
    dragged object the handler changes nothing. *)
Theorem drag_moves_only_dragged (w : World) (i : nat) (m : NodeMesh)
    (origin dir : Vector3.t) :
  (dragging w = None -> handle w (PointerMove origin dir) = (Returned, w))
  /\ (dragging w = Some (NodeObj i) -> nodeGroup w !! i = Some m ->
      let w' := step w (PointerMove origin dir) in
      (exists P, nodeGroup w' !! i = Some (move_mesh P m))
      /\ (forall j, j <> i -> nodeGroup w' !! j = nodeGroup w !! j)
      /\ (forall n l, edgeGroup w !! n = Some l ->
            line_a l <> ud_id m -> line_b l <> ud_id m ->
            edgeGroup w' !! n = Some l)
      /\ particlePool w' = particlePool w
      /\ sunLight_intensity w' = sunLight_intensity w
      /\ torchLight_intensity w' = torchLight_intensity w
      /\ camera_position w' = camera_position w
      /\ dragging w' = dragging w /\ dragOffset w' = dragOffset w).
Proof.
  split.
  - intros Hd. unfold handle, onPointerMove. rewrite Hd. reflexivity.
  - intros Hd Hm w'. subst w'. unfold step, handle.
    rewrite (onPointerMove_node w i m origin dir Hd Hm). cbv zeta.
    set (P := Vector3.sub _ _).
    set (w1 := set_object_position w (NodeObj i) P).
    cbn [snd nodeGroup edgeGroup particlePool sunLight_intensity torchLight_intensity
         camera_position dragging dragOffset set_edgeGroup].
    split; [exists P; unfold w1; cbn [set_object_position nodeGroup set_nodeGroup];
            rewrite list_lookup_alter_eq, Hm; reflexivity|].
    split; [intros j Hj; unfold w1; cbn [set_object_position nodeGroup set_nodeGroup];
            apply list_lookup_alter_ne; congruence|].
    split; [|repeat split].
    intros n l Hn Ha Hb. apply update_lines_untouched; [exact Hn|].
    unfold touches. apply orb_false_iff. split; apply String.eqb_neq; assumption.
Qed.



End PointerExtras.

(** ** Frames *)

Section FrameExtras.
Context `{Host}.

Lemma Qsum_nonneg (dts : list Q) : Forall (fun dt => 0 <= dt) dts -> 0 <= Qsum dts.
Proof.
  induction 1 as [|d rest Hd _ IH]; simpl; [lra|]. lra.
Qed.

Lemma age_particle_idle (dts : list Q) (p : Particle) :
  alive p = false -> age_particle dts p = p.
Proof.
  intros Hidle. induction dts as [|d rest IH]; [reflexivity|].
  unfold age_particle in *. simpl. unfold update_particle at 2. rewrite Hidle. exact IH.
Qed.

(** A particle over a run of frames: it only fades. *)
Lemma age_particle_fades (dts : list Q) (p : Particle) :
  Forall (fun dt => 0 <= dt) dts ->
  (alive (age_particle dts p) = true ->
   alive p = true
   /\ life (age_particle dts p) <= life p
   /\ p_color (age_particle dts p) = p_color p
   /\ p_scale (age_particle dts p) = p_scale p
   /\ visible (age_particle dts p) = visible p)
  /\ (alive p = true -> alive (age_particle dts p) = false ->
      visible (age_particle dts p) = false).
Proof.
  intros Hdts. revert p. induction Hdts as [|d rest Hd Hrest IH]; intros p.
  - simpl. split; [intros Ha; repeat split; [exact Ha|lra]|congruence].
  - change (age_particle (d :: rest) p) with (age_particle rest (update_particle d p)).
    destruct (alive p) eqn:Halive.
    2:{ assert (Hp1 : update_particle d p = p)
          by (unfold update_particle; rewrite Halive; reflexivity).
        rewrite Hp1, age_particle_idle by exact Halive.
        split; [congruence|discriminate]. }
    destruct (Qle_bool (life p - d) 0) eqn:E.
    + assert (Hp1 : update_particle d p
                    = mkParticle false (life p - d) (velocity p) (p_position p) (p_scale p)
                                 (p_color p) (p_opacity p) false).
      { unfold update_particle. rewrite Halive, E. reflexivity. }
      rewrite Hp1, age_particle_idle by reflexivity. simpl.
      split; [discriminate|reflexivity].
    + assert (Hp1 : update_particle d p
                    = mkParticle true (life p - d)
                                 (Vector3.multiplyScalar (velocity p) 0.98)
                                 (Vector3.addScaledVector (p_position p) (velocity p) d)
                                 (p_scale p) (p_color p)
                                 (Math_max 0 ((life p - d) / 1.2)) (visible p)).
      { unfold update_particle. rewrite Halive, E. reflexivity. }
      rewrite Hp1.
      match goal with
      | |- context [age_particle rest ?q] => destruct (IH q) as (Hup & Hdown); set (p1 := q) in *
      end.
      simpl in Hup, Hdown. split.
      * intros Ha. destruct (Hup Ha) as (_ & Hl & Hc & Hs & Hv).
        split; [reflexivity|]. split; [lra|]. auto.
      * intros _. apply Hdown. reflexivity.
Qed.

Lemma frames_pool (fs : list (Q * Vector3.t)) (w : World) (i : nat) :
  particlePool (run w (frames fs)) !! i = age_particle fs.*1 <$> particlePool w !! i.
Proof.
  revert w. induction fs as [|[dt cam] rest IH]; intros w.
  - simpl. destruct (particlePool w !! i); reflexivity.
  - change (run w (frames ((dt, cam) :: rest)))
      with (run (step w (Frame dt cam)) (frames rest)).
    rewrite IH. unfold step. cbn [handle]. rewrite update_particle_lookup.
    destruct (particlePool w !! i); reflexivity.
Qed.

(** X11. Frames alone only let particles fade. Over a run of frames with
    elapsed times that are not negative, a particle that is not alive is
    left exactly as it is, so no frame brings a particle to life; a
    particle that is alive after the run was alive before it, has a life
    that is not greater than before, and has the colour, the size and the
    visibility it had; and a particle that stopped being alive in the run
    is invisible. *)
Theorem particles_only_fade (w : World) (fs : list (Q * Vector3.t))
    (i : nat) (p : Particle) :
  Forall (fun dt => 0 <= dt) fs.*1 ->
  particlePool w !! i = Some p ->
  exists p',
    particlePool (run w (frames fs)) !! i = Some p'
    /\ (alive p = false -> p' = p)
    /\ (alive p' = true ->
        alive p = true
        /\ life p' <= life p
        /\ p_color p' = p_color p
        /\ p_scale p' = p_scale p
        /\ visible p' = visible p)
    /\ (alive p = true -> alive p' = false -> visible p' = false).
Proof.
  intros Hdts Hp. exists (age_particle fs.*1 p).
  split; [rewrite frames_pool, Hp; reflexivity|].
  split; [apply age_particle_idle|]. apply (age_particle_fades fs.*1 p Hdts).
Qed.

End FrameExtras.

Section NodeAnimation.
Context `{Host}.

Lemma is_nodeMap_mesh_elem (w : World) (i : nat) :
  is_nodeMap_mesh w i <-> i ∈ mesh <$> JSMap.values (nodeMap w).
Proof.
  unfold is_nodeMap_mesh. rewrite list_elem_of_fmap. split.
  - intros (e & He & <-). eauto.
  - intros (e & -> & He). eauto.
Qed.

(** No two entries of [nodeMap] hold one mesh. *)
Lemma values_mesh_NoDup (w : World) :
  well_formed w -> NoDup (mesh <$> JSMap.values (nodeMap w)).
Proof.
  intros Hw. unfold JSMap.values. rewrite <- list_fmap_compose.
  apply NoDup_fmap_2_strong.
  - intros [k1 e1] [k2 e2] H1 H2 Hmesh. simpl in Hmesh.
    destruct (wf_map w Hw k1 e1 H1) as (m1 & Hm1 & Hid1).
    destruct (wf_map w Hw k2 e2 H2) as (m2 & Hm2 & Hid2).
    rewrite Hmesh, Hm2 in Hm1. injection Hm1 as <-.
    assert (k1 = k2) as -> by congruence.
    pose proof (JSMap_elem_get _ _ _ (wf_keys w Hw) H1) as G1.
    pose proof (JSMap_elem_get _ _ _ (wf_keys w Hw) H2) as G2.
    congruence.
  - apply (NoDup_fmap_1 fst). exact (wf_keys w Hw).
Qed.

Lemma forEach_lookup_once (f : NodeMesh -> NodeMesh) (es : list NodeEntry)
    (g : list NodeMesh) (i : nat) :
  NoDup (mesh <$> es) ->
  fold_left (fun g e => alter f (mesh e) g) es g !! i
  = if bool_decide (i ∈ mesh <$> es) then f <$> g !! i else g !! i.
Proof.
  revert g. induction es as [|e es IH]; intros g Hnd; [reflexivity|].
  rewrite fmap_cons in Hnd. apply NoDup_cons in Hnd as [Hnew Hnd].
  cbn [fold_left]. rewrite fmap_cons, (IH _ Hnd).
  destruct (decide (mesh e = i)) as [<-|Hne].
  - rewrite (bool_decide_eq_false_2 _ Hnew), list_lookup_alter_eq.
    rewrite (bool_decide_eq_true_2 (mesh e ∈ mesh e :: (mesh <$> es)))
      by apply list_elem_of_here.
    reflexivity.
  - rewrite list_lookup_alter_ne by exact Hne.
    destruct (decide (i ∈ mesh <$> es)) as [Hin|Hnin].
    + rewrite (bool_decide_eq_true_2 _ Hin).
      rewrite (bool_decide_eq_true_2 (i ∈ mesh e :: (mesh <$> es)))
        by apply list_elem_of_further, Hin.
      reflexivity.
    + rewrite (bool_decide_eq_false_2 _ Hnin).
      rewrite (bool_decide_eq_false_2 (i ∈ mesh e :: (mesh <$> es))); [reflexivity|].
      intros Hin. apply elem_of_cons in Hin as [->|Hin]; [congruence|contradiction].
Qed.

(** A frame applies the animation step once to each mesh of [nodeMap]. *)
Lemma frame_lookup (w : World) (dt : Q) (cam : Vector3.t) (i : nat) :
  well_formed w ->
  nodeGroup (step w (Frame dt cam)) !! i = frame_mesh w dt i <$> nodeGroup w !! i.
Proof.
  intros Hw. unfold step. cbn [handle]. unfold animate. cbv zeta.
  cbn [snd nodeGroup set_camera set_nodeGroup]. rewrite list_lookup_imap.
  cbn [nodeGroup set_lights set_particles clock_elapsedTime nodeMap_forEach set_nodeGroup
       set_clock nodeMap].
  rewrite (forEach_lookup_once _ _ _ i (values_mesh_NoDup w Hw)).
  unfold frame_mesh. destruct (nodeGroup w !! i) as [m|]; [|destruct (bool_decide _); reflexivity].
  destruct (bool_decide _); reflexivity.
Qed.

Lemma animate_mesh_pulse (dt : Q) (m : NodeMesh) :
  ud_pulse (animate_mesh dt m) = age_pulse dt (ud_pulse m)
  /\ ud_baseScale (animate_mesh dt m) = ud_baseScale m
  /\ m_position (animate_mesh dt m) = m_position m.
Proof.
  unfold animate_mesh, age_pulse. destruct (ud_pulse m) as [pulse|]; [|repeat split].
  cbv zeta. destruct (Qgt_bool _ _); repeat split.
Qed.

(** X12. In a session a frame runs the animation step exactly once on
    every mesh that [nodeMap] holds, whatever ids are doubled, and then
    moves every mesh of the scene, held or not, along y by
    sin(elapsedTime * 0.3 + index) * 0.08 * dt: the pulse of a held mesh
    is advanced by [dt] or ended, a mesh that is not held changes in
    nothing but that y. The lines and the drag state are not touched, so
    a line keeps the positions its nodes had. *)
Theorem frame_animates_each_mesh_once (nodes : list NodeRecord)
    (edges : list (string * string)) (w0 w : World) (dt : Q) (cam : Vector3.t) :
  build nodes edges = (Returned, w0) ->
  reachable w0 w ->
  let w' := step w (Frame dt cam) in
  let wave := fun (i : nat) =>
    Math_sin ((clock_elapsedTime w + dt) * 0.3 + inject_Z (Z.of_nat i)) * 0.08 in
  (forall i m, nodeGroup w !! i = Some m ->
     exists m', nodeGroup w' !! i = Some m'
       /\ m_position m' = Vector3.make (Vector3.x (m_position m))
                                       (Vector3.y (m_position m) + wave i * dt)
                                       (Vector3.z (m_position m))
       /\ (is_nodeMap_mesh w i ->
           m' = breathe (clock_elapsedTime w + dt) dt i (animate_mesh dt m)
           /\ ud_pulse m' = age_pulse dt (ud_pulse m))
       /\ (~ is_nodeMap_mesh w i ->
           m' = breathe (clock_elapsedTime w + dt) dt i m))
  /\ edgeGroup w' = edgeGroup w
  /\ dragging w' = dragging w
  /\ clock_elapsedTime w' = clock_elapsedTime w + dt
  /\ camera_position w' = cam.
Proof.
  intros Hb Hr w' wave.
  pose proof (reachable_well_formed w0 w (build_well_formed _ _ _ Hb) Hr) as Hw.
  split; [|repeat split]. intros i m Hm.
  exists (frame_mesh w dt i m). split; [subst w'; rewrite (frame_lookup w dt cam i Hw), Hm; reflexivity|].
  unfold frame_mesh. split; [|split].
  - case_bool_decide; [|reflexivity]. unfold breathe, move_mesh. cbn [m_position].
    destruct (animate_mesh_pulse dt m) as (_ & _ & ->). reflexivity.
  - intros Hin. apply is_nodeMap_mesh_elem in Hin. rewrite (bool_decide_eq_true_2 _ Hin).
    split; [reflexivity|]. unfold breathe, move_mesh. cbn [ud_pulse].
    apply animate_mesh_pulse.
  - intros Hnin. rewrite bool_decide_eq_false_2; [reflexivity|].
    intros Hin. apply Hnin, is_nodeMap_mesh_elem, Hin.
Qed.

Lemma age_pulse_fold (dts : list Q) (o : option Pulse) :
  Forall (fun dt => 0 <= dt) dts ->
  let o' := fold_left (fun o dt => age_pulse dt o) dts o in
  (o = None -> o' = None)
  /\ forall pulse', o' = Some pulse' ->
       exists pulse, o = Some pulse
                     /\ pulse_t pulse <= pulse_t pulse'
                     /\ pulse_duration pulse' = pulse_duration pulse
                     /\ pulse_peak pulse' = pulse_peak pulse.
Proof.
  intros Hdts. revert o. induction Hdts as [|d rest Hd Hrest IH]; intros o; simpl.
  - split; [auto|]. intros pulse' ->. exists pulse'. repeat split. lra.
  - destruct (IH (age_pulse d o)) as [Hnone Hsome]. split.
    + intros ->. apply Hnone. reflexivity.
    + intros pulse' Hp'. destruct (Hsome pulse' Hp') as (pulse1 & H1 & Ht & Hdur & Hpeak).
      destruct o as [pulse|]; [|discriminate]. exists pulse. split; [reflexivity|].
      unfold age_pulse in H1. destruct (Qgt_bool _ _); [discriminate|].
      injection H1 as <-. simpl in Ht, Hdur, Hpeak. repeat split; [lra|assumption|assumption].
Qed.

Lemma frames_reachable (fs : list (Q * Vector3.t)) (w : World) :
  well_formed w -> well_formed (run w (frames fs))
  /\ nodeMap (run w (frames fs)) = nodeMap w.
Proof.
  revert w. induction fs as [|[dt cam] rest IH]; intros w Hw; [auto|].
  change (run w (frames ((dt, cam) :: rest))) with (run (step w (Frame dt cam)) (frames rest)).
  pose proof (step_follows w (Frame dt cam) I) as Hf.
  destruct (IH _ (follows_well_formed _ _ Hw Hf)) as [Hw' Hm].
  split; [exact Hw'|]. rewrite Hm. apply (fo_map _ _ Hf).
Qed.

(** The pulse of a held mesh over a run of frames. *)
Lemma frames_mesh (fs : list (Q * Vector3.t)) (w : World) (i : nat) (m : NodeMesh) :
  well_formed w -> is_nodeMap_mesh w i -> nodeGroup w !! i = Some m ->
  exists m',
    nodeGroup (run w (frames fs)) !! i = Some m'
    /\ ud_pulse m' = fold_left (fun o dt => age_pulse dt o) fs.*1 (ud_pulse m).
Proof.
  revert w m. induction fs as [|[dt cam] rest IH]; intros w m Hw Hin Hm.
  - exists m. split; [exact Hm|reflexivity].
  - change (run w (frames ((dt, cam) :: rest)))
      with (run (step w (Frame dt cam)) (frames rest)).
    pose proof (step_follows w (Frame dt cam) I) as Hf.
    pose proof (follows_well_formed _ _ Hw Hf) as Hw1.
    assert (Hin1 : is_nodeMap_mesh (step w (Frame dt cam)) i).
    { unfold is_nodeMap_mesh in *. rewrite (fo_map _ _ Hf). exact Hin. }
    assert (Hm1 : nodeGroup (step w (Frame dt cam)) !! i
                  = Some (breathe (clock_elapsedTime w + dt) dt i (animate_mesh dt m))).
    { rewrite (frame_lookup w dt cam i Hw), Hm. unfold frame_mesh.
      rewrite bool_decide_eq_true_2 by (apply is_nodeMap_mesh_elem, Hin). reflexivity. }
    destruct (IH _ _ Hw1 Hin1 Hm1) as (m' & Hm' & Hpulse).
    destruct (animate_mesh_pulse dt m) as (Hp & _).
    exists m'. split; [exact Hm'|].
    rewrite Hpulse. cbn [fmap list_fmap fst fold_left breathe move_mesh ud_pulse].
    rewrite Hp. reflexivity.
Qed.

(** X13. In a session, frames alone only age a pulse. Over a run of
    frames with elapsed times that are not negative, a mesh that [nodeMap]
    holds and that has no pulse gets none; and a pulse that the mesh has
    after the run is the pulse it had before, with the duration and the
    peak it had and a time that is not less than before. *)
Theorem pulse_only_ages (nodes : list NodeRecord) (edges : list (string * string))
    (w0 w : World) (fs : list (Q * Vector3.t)) (i : nat) (m : NodeMesh) :
  build nodes edges = (Returned, w0) ->
  reachable w0 w ->
  Forall (fun dt => 0 <= dt) fs.*1 ->
  is_nodeMap_mesh w i ->
  nodeGroup w !! i = Some m ->
  exists m',
    nodeGroup (run w (frames fs)) !! i = Some m'
    /\ (ud_pulse m = None -> ud_pulse m' = None)
    /\ forall pulse', ud_pulse m' = Some pulse' ->
         exists pulse, ud_pulse m = Some pulse
                       /\ pulse_t pulse <= pulse_t pulse'
                       /\ pulse_duration pulse' = pulse_duration pulse
                       /\ pulse_peak pulse' = pulse_peak pulse.
Proof.
  intros Hb Hr Hdts Hin Hm.
  pose proof (reachable_well_formed w0 w (build_well_formed _ _ _ Hb) Hr) as Hw.
  destruct (frames_mesh fs w i m Hw Hin Hm) as (m' & Hm' & Hpulse).
  exists m'. split; [exact Hm'|]. rewrite Hpulse.
  apply (age_pulse_fold fs.*1 (ud_pulse m) Hdts).
Qed.

End NodeAnimation.

(** ** What a session keeps *)

Section SessionExtras.
Context `{Host}.

Lemma follows_trans (w1 w2 w3 : World) : follows w1 w2 -> follows w2 w3 -> follows w1 w3.
Proof.
  intros [Fm Fn Fp Fl Fd] [Gm Gn Gp Gl Gd].
  assert (Hmesh : forall i, is_nodeMap_mesh w2 i <-> is_nodeMap_mesh w1 i).
  { intros i. unfold is_nodeMap_mesh. rewrite Fm. reflexivity. }
  split; try congruence.
  - eapply evolves_trans; [exact Fn|].
    intros i. specialize (Gn i).
    destruct (nodeGroup w2 !! i), (nodeGroup w3 !! i); try exact Gn.
    destruct Gn as [Hk [HP|Hl]]; (split; [exact Hk|]); [left; apply Hmesh, HP|right; exact Hl].
  - intros o Ho. destruct (Gd o Ho) as [Hold|Hnew]; [apply Fd, Hold|right; apply Hmesh, Hnew].
Qed.

Lemma reachable_follows (w0 w : World) : reachable w0 w -> follows w0 w.
Proof.
  induction 1 as [|w ev Hr IH Hok].
  - split; auto. apply evolves_refl.
  - eapply follows_trans; [exact IH|apply step_follows, Hok].
Qed.

(** X15. A session neither adds nor removes anything of the scene: in
    every state [nodeMap] is the one the builder made, the lines have the
    ids they were made with, and every mesh is there at its index with the
    id, label, category and label text it was made with. When its
    category is not an inherited name, its base size is the size of the
    style of its category and, if [nodeMap] does not hold it, it keeps the
    scale and highlight it was made with. *)
Theorem session_keeps_identity (nodes : list NodeRecord) (edges : list (string * string))
    (w0 w : World) :
  build nodes edges = (Returned, w0) ->
  reachable w0 w ->
  nodeMap w = nodeMap w0
  /\ topology (edgeGroup w) = edges
  /\ length (nodeGroup w) = length nodes
  /\ forall i n, nodes !! i = Some n ->
       exists m, nodeGroup w !! i = Some m
         /\ ud_id m = id n /\ ud_label m = label n /\ ud_category m = category n
         /\ tex_text (sprite_map (m_sprite m)) = label n
         /\ (plain_key (category n) ->
             ud_baseScale m = size (style_of (category n))
             /\ (~ is_nodeMap_mesh w i -> at_rest m)).
Proof.
  intros Hb Hr. destruct (reachable_follows w0 w Hr) as [Fm Fn _ Fl _].
  pose proof (reachable_well_formed w0 w (build_well_formed _ _ _ Hb) Hr) as Hw.
  assert (Hw0 : w0 = snd (build nodes edges)) by (rewrite Hb; reflexivity).
  destruct (build_keeps_nodes nodes edges) as (Hg & _). rewrite <- Hw0 in Hg.
  destruct (create_nodes_meshes nodes initial_world initial_world_cache_inv)
    as (ms & Hms' & Hms & _).
  rewrite Hms' in Hg. simpl in Hg.
  split; [exact Fm|]. split; [|split].
  - rewrite Fl, Hw0. apply (build_returns_topology nodes edges). rewrite Hb. reflexivity.
  - pose proof (Forall2_length _ _ _ Hms) as Hlen. rewrite Hlen, <- Hg.
    apply Nat.le_antisymm.
    + destruct (decide (length (nodeGroup w) <= length (nodeGroup w0))%nat); [assumption|].
      exfalso. specialize (Fn (length (nodeGroup w0))).
      rewrite (proj2 (lookup_ge_None _ _)) in Fn by lia.
      destruct (lookup_lt_is_Some_2 (nodeGroup w) (length (nodeGroup w0))) as [x Hx]; [lia|].
      rewrite Hx in Fn. exact Fn.
    + destruct (decide (length (nodeGroup w0) <= length (nodeGroup w))%nat); [assumption|].
      exfalso. specialize (Fn (length (nodeGroup w))).
      destruct (lookup_lt_is_Some_2 (nodeGroup w0) (length (nodeGroup w))) as [x Hx]; [lia|].
      rewrite Hx, (proj2 (lookup_ge_None _ _)) in Fn by lia. exact Fn.
  - intros i n Hn. destruct (Forall2_lookup_l _ _ _ _ _ Hms Hn) as (m0 & Hm0 & Hnm).
    rewrite <- Hg in Hm0. specialize (Fn i). rewrite Hm0 in Fn.
    destruct (nodeGroup w !! i) as [m|] eqn:Em; [|contradiction].
    destruct Fn as [(Hid & Hcat & Hbase & Hlab & Htex) _].
    destruct Hnm as (Nid & Nlab & Ncat & Nbase & _ & _ & _ & _ & _ & _ & _ & Ntex & _).
    exists m. split; [reflexivity|]. do 4 (split; [congruence|]).
    intros _. split; [congruence|].
    intros Hnot. destruct (wf_rest w Hw i m Em) as [Hin|Hrest]; [contradiction|exact Hrest].
Qed.

End SessionExtras.

Section LightsAndLook.
Context `{Host}.

Lemma create_node_lights (w : World) (n : NodeRecord) :
  sunLight_intensity (create_node w n) = sunLight_intensity w
  /\ torchLight_intensity (create_node w n) = torchLight_intensity w.
Proof.
  unfold create_node, node_position, makeLabelTexture.
  destruct (position n); simpl; destruct (labelCanvasCache _ !! label n); split; reflexivity.
Qed.

Lemma build_lights (nodes : list NodeRecord) (edges : list (string * string)) :
  sunLight_intensity (snd (build nodes edges)) = 0.8
  /\ torchLight_intensity (snd (build nodes edges)) = 0.0.
Proof.
  assert (Hn : forall ns w, sunLight_intensity (create_nodes w ns) = sunLight_intensity w
                            /\ torchLight_intensity (create_nodes w ns) = torchLight_intensity w).
  { induction ns as [|n ns IH]; intros w; simpl; [auto|].
    destruct (IH (create_node w n)) as [-> ->]. apply create_node_lights. }
  assert (He : forall es w, sunLight_intensity (snd (create_edges w es)) = sunLight_intensity w
                 /\ torchLight_intensity (snd (create_edges w es)) = torchLight_intensity w).
  { induction es as [|[a b] es IH]; intros w; simpl; [auto|].
    destruct (endpoint_position w a); [|auto]. destruct (endpoint_position w b); [|auto].
    apply (IH (set_edgeGroup w _)). }
  unfold build. specialize (He edges (create_nodes initial_world nodes)).
  destruct (create_edges (create_nodes initial_world nodes) edges) as [[|e] w1];
    simpl in *; destruct He as [-> ->]; apply (Hn nodes initial_world).
Qed.

(** X16. In a session of the built scene whose frames are short (elapsed
    time from 0 to 5/6 of a second) the sun light is never above the 2.2
    and the torch light never above the 3.0 at which an activation stops,
    and the torch light is never negative, whatever is clicked, dragged or
    reset in between. *)
Theorem session_lights_bounded (nodes : list NodeRecord) (edges : list (string * string))
    (w0 : World) (evs : list Event) :
  build nodes edges = (Returned, w0) ->
  Forall short_frame evs ->
  sunLight_intensity (run w0 evs) <= 2.2
  /\ 0 <= torchLight_intensity (run w0 evs)
  /\ torchLight_intensity (run w0 evs) <= 3.0.
Proof.
  intros Hb Hshort. destruct (build_lights nodes edges) as [Hs Ht]. rewrite Hb in Hs, Ht.
  simpl in Hs, Ht.
  destruct (lights_bounded evs w0 Hshort) as ((_ & Hsun) & Htorch0 & Htorch1);
    [rewrite Hs; split; lra|rewrite Ht; split; lra|].
  split; [exact Hsun|]. split; [exact Htorch0|exact Htorch1].
Qed.

Lemma Math_max_range (a b : Q) :
  a <= b -> 0 <= b -> 0 <= Math_max 0 a /\ Math_max 0 a <= b.
Proof.
  intros Hab Hb. unfold Math_max. destruct (Qle_bool 0 a) eqn:E.
  - apply Qle_bool_iff in E. split; assumption.
  - split; [lra|exact Hb].
Qed.

Lemma activate_mesh_look (m : NodeMesh) : look_ok m -> look_ok (activate_mesh m).
Proof.
  intros (H0 & H1 & He & Hc & Hp). unfold look_ok. simpl.
  split; [lra|]. split; [lra|]. split; [right; reflexivity|]. split; [exact Hc|].
  split; [reflexivity|]. split; [reflexivity|]. lra.
Qed.

Lemma reset_mesh_look (m : NodeMesh) : look_ok m -> look_ok (reset_mesh m).
Proof.
  intros (H0 & H1 & He & Hc & Hp). unfold look_ok. simpl.
  split; [lra|]. split; [lra|]. split; [left; reflexivity|]. split; [exact Hc|exact Hp].
Qed.

Lemma animate_mesh_look (dt : Q) (m : NodeMesh) :
  0 <= dt -> look_ok m -> look_ok (animate_mesh dt m).
Proof.
  intros Hdt (H0 & H1 & He & Hc & Hp). unfold animate_mesh.
  destruct (ud_pulse m) as [pulse|] eqn:Epulse.
  - cbv zeta. destruct Hp as (Hdur & Hpeak & Ht).
    destruct (Math_max_range (m_emissiveIntensity m - dt * 1.2) 0.9) as [M0 M1]; [lra|lra|].
    unfold Qgt_bool.
    destruct (Qle_bool (pulse_t pulse + dt) (pulse_duration pulse + 0.2)) eqn:E;
      cbn [negb]; unfold look_ok;
      cbn [m_emissiveIntensity m_emissive m_color ud_category ud_pulse ud_baseScale
           pulse_duration pulse_peak pulse_t].
    + split; [exact M0|]. split; [exact M1|]. split; [exact He|]. split; [exact Hc|].
      split; [exact Hdur|]. split; [exact Hpeak|]. apply Qle_bool_iff, E.
    + split; [exact M0|]. split; [exact M1|]. split; [exact He|]. split; [exact Hc|exact I].
  - cbv zeta.
    destruct (Math_max_range (m_emissiveIntensity m - dt * 0.2) 0.9) as [M0 M1]; [lra|lra|].
    unfold look_ok.
    cbn [m_emissiveIntensity m_emissive m_color ud_category ud_pulse ud_baseScale].
    split; [exact M0|]. split; [exact M1|].
    split; [|split; [exact Hc|exact I]].
    destruct (Qeq_bool _ 0); [left; reflexivity|exact He].
Qed.

Lemma move_look (f : NodeMesh -> NodeMesh) (m : NodeMesh) :
  (mesh_kept m (f m) /\ look_kept m (f m)) -> ud_pulse (f m) = ud_pulse m ->
  m_color (f m) = m_color m -> look_ok m -> look_ok (f m).
Proof.
  intros [(_ & Hcat & Hbase & _) (_ & He & Hei)] Hp Hcol (H0 & H1 & Hem & Hc & Hpu).
  unfold look_ok. rewrite Hei, He, Hcat, Hcol, Hp, Hbase. auto.
Qed.

Lemma forEach_Forall (P : NodeMesh -> Prop) (f : NodeMesh -> NodeMesh)
    (es : list NodeEntry) (g : list NodeMesh) :
  (forall m, P m -> P (f m)) -> Forall P g ->
  Forall P (fold_left (fun g e => alter f (mesh e) g) es g).
Proof.
  intros Hf. revert g. induction es as [|e es IH]; intros g Hg; simpl; [exact Hg|].
  apply IH, Forall_alter; [exact Hg|]. intros m _. apply Hf.
Qed.

Lemma onNodeActivate_nodeGroup (w : World) (nodeEntry : option NodeEntry) :
  nodeGroup (snd (onNodeActivate w nodeEntry))
  = match nodeEntry with
    | Some e => match nodeGroup w !! mesh e with
                | Some m => <[mesh e := activate_mesh m]> (nodeGroup w)
                | None => nodeGroup w
                end
    | None => nodeGroup w
    end.
Proof.
  destruct nodeEntry as [e|]; [|reflexivity].
  destruct (nodeGroup w !! mesh e) as [m|] eqn:Em.
  - destruct (onNodeActivate_keeps w (Some e)) as (_ & _ & _ & _ & _ & _ & Hact).
    apply (Hact e m eq_refl Em).
  - unfold onNodeActivate. rewrite Em. reflexivity.
Qed.

Lemma step_look (w : World) (ev : Event) :
  forward_frame ev -> Forall look_ok (nodeGroup w) -> Forall look_ok (nodeGroup (step w ev)).
Proof.
  intros Hev Hg. unfold step. destruct ev as [hits|origin dir| | |dt cam]; cbn [handle].
  - unfold onPointerDown. destruct hits as [|hit rest]; [exact Hg|]. cbv zeta.
    destruct (object_position _ (object hit)); [|exact Hg].
    rewrite onNodeActivate_nodeGroup.
    destruct (entry_of_object _ (object hit)) as [e|]; [|exact Hg].
    cbn [nodeGroup set_dragOffset set_dragging].
    destruct (nodeGroup w !! mesh e) as [m|] eqn:Em; [|exact Hg].
    apply Forall_insert; [exact Hg|]. apply activate_mesh_look.
    apply (Forall_lookup_1 _ _ _ _ Hg Em).
  - unfold onPointerMove. destruct (dragging w) as [d|]; [|exact Hg].
    destruct (object_position w d); [|exact Hg]. cbv zeta.
    destruct (update_lines _ _ _) as [o lines]. cbn [snd nodeGroup set_edgeGroup].
    destruct d as [i|i]; cbn [set_object_position nodeGroup set_nodeGroup];
      (apply Forall_alter; [exact Hg|]); intros m _; apply move_look; try reflexivity.
    + apply move_mesh_kept.
    + apply move_sprite_kept.
  - exact Hg.
  - simpl. apply forEach_Forall; [apply reset_mesh_look|exact Hg].
  - simpl in Hev. unfold animate. cbv zeta. cbn [snd nodeGroup set_camera set_nodeGroup].
    apply Forall_lookup_2. intros i m'. rewrite list_lookup_imap.
    cbn [nodeGroup set_lights set_particles nodeMap_forEach set_nodeGroup].
    intros Hi. apply fmap_Some in Hi as (m & Hm & ->).
    apply move_look; try reflexivity; [apply breathe_kept|].
    eapply Forall_lookup_1; [|exact Hm]. apply forEach_Forall; [|exact Hg].
    intros m0. apply animate_mesh_look, Hev.
Qed.

(** X17. In a session of the built scene whose frames have elapsed times
    that are not negative, every mesh has, in every state, an emissive
    intensity between 0 and the 0.9 an activation sets, as emissive colour
    black or the colour of its category, as material colour the colour of
    its category, and a pulse, if any, of duration 0.6 with the peak 1.6
    times its base size (1.0 for a base size of 0) and a time of at most
    0.8. *)
Theorem session_look_bounded (nodes : list NodeRecord) (edges : list (string * string))
    (w0 : World) (evs : list Event) (i : nat) (m : NodeMesh) :
  build nodes edges = (Returned, w0) ->
  Forall forward_frame evs ->
  nodeGroup (run w0 evs) !! i = Some m ->
  0 <= m_emissiveIntensity m /\ m_emissiveIntensity m <= 0.9
  /\ (m_emissive m = 0%Z \/ m_emissive m = color (style_of (ud_category m)))
  /\ m_color m = color (style_of (ud_category m))
  /\ forall pulse, ud_pulse m = Some pulse ->
       pulse_duration pulse = 0.6
       /\ pulse_peak pulse = num_or (ud_baseScale m) 1.0 * 1.6
       /\ pulse_t pulse <= 0.8.
Proof.
  intros Hb Hevs Hm.
  assert (Hw0 : Forall look_ok (nodeGroup w0)).
  { assert (E : w0 = snd (build nodes edges)) by (rewrite Hb; reflexivity).
    destruct (build_keeps_nodes nodes edges) as (Hg & _). rewrite <- E in Hg. rewrite Hg.
    destruct (create_nodes_meshes nodes initial_world initial_world_cache_inv)
      as (ms & -> & Hms & _). simpl.
    clear -Hms. induction Hms as [|n m0 ns ms Hnm _ IH]; constructor; [|exact IH].
    destruct Hnm as (_ & _ & Hcat & _ & _ & Hcol & Hem & Hei & Hp & _).
    unfold look_ok. rewrite Hei, Hem, Hcol, Hp, Hcat.
    split; [lra|]. split; [lra|]. auto. }
  assert (Hall : Forall look_ok (nodeGroup (run w0 evs))).
  { clear Hm Hb. revert w0 Hw0. induction Hevs as [|ev evs Hev _ IH]; intros w0 Hw0.
    - exact Hw0.
    - simpl. apply (IH (step w0 ev)). apply step_look; assumption. }
  destruct (Forall_lookup_1 _ _ _ _ Hall Hm) as (H0 & H1 & He & Hc & Hp).
  split; [exact H0|]. split; [exact H1|]. split; [exact He|]. split; [exact Hc|].
  intros pulse Hpulse. rewrite Hpulse in Hp. destruct Hp as (Hdur & Hpeak & Ht).
  split; [exact Hdur|]. split; [exact Hpeak|]. rewrite Hdur in Ht. lra.
Qed.

End LightsAndLook.

Section ResetExtras.
Context `{Host}.

Lemma forEach_idempotent (f : NodeMesh -> NodeMesh) (es : list NodeEntry)
    (g : list NodeMesh) :
  (forall m, f (f m) = f m) ->
  fold_left (fun g e => alter f (mesh e) g) es
    (fold_left (fun g e => alter f (mesh e) g) es g)
  = fold_left (fun g e => alter f (mesh e) g) es g.
Proof.
  intros Hf. apply list_eq. intros i. rewrite !forEach_lookup by exact Hf.
  case_bool_decide; [|reflexivity].
  destruct (g !! i); simpl; [rewrite Hf|]; reflexivity.
Qed.

Lemma forEach_projection {A : Type} (proj : NodeMesh -> A) (f : NodeMesh -> NodeMesh)
    (es : list NodeEntry) (g : list NodeMesh) (i : nat) :
  (forall m, proj (f m) = proj m) ->
  proj <$> (fold_left (fun g e => alter f (mesh e) g) es g !! i) = proj <$> (g !! i).
Proof.
  intros Hp. revert g. induction es as [|e es IH]; intros g; simpl; [reflexivity|].
  rewrite IH. destruct (decide (mesh e = i)) as [<-|Hne].
  - rewrite list_lookup_alter_eq. destruct (g !! mesh e); simpl; [rewrite Hp|]; reflexivity.
  - rewrite list_lookup_alter_ne by exact Hne. reflexivity.
Qed.

(** X18. A click on the reset button is idempotent: a second click in a row
    changes nothing.  A reset does not end what is going on in the scene:
    it keeps the particle pool, the edges, the node map and the object being
    dragged, and on every mesh the position, the colour, the label sprite
    and the pulse that an activation started. *)
Theorem reset_idempotent_and_local (w : World) :
  step (step w ResetClick) ResetClick = step w ResetClick
  /\ particlePool (step w ResetClick) = particlePool w
  /\ edgeGroup (step w ResetClick) = edgeGroup w
  /\ nodeMap (step w ResetClick) = nodeMap w
  /\ dragging (step w ResetClick) = dragging w
  /\ dragOffset (step w ResetClick) = dragOffset w
  /\ forall i,
       (fun m => (m_position m, m_color m, m_sprite m, ud_pulse m))
         <$> (nodeGroup (step w ResetClick) !! i)
       = (fun m => (m_position m, m_color m, m_sprite m, ud_pulse m))
         <$> (nodeGroup w !! i).
Proof.
  split; [|split; [reflexivity|split; [reflexivity|split; [reflexivity|
           split; [reflexivity|split; [reflexivity|]]]]]].
  - unfold step. cbn [handle reset snd]. unfold nodeMap_forEach.
    destruct w; cbn. f_equal. apply forEach_idempotent, reset_mesh_idempotent.
  - intros i. unfold step. cbn [handle reset snd]. unfold nodeMap_forEach.
    cbn [nodeGroup set_nodeGroup set_lights set_camera nodeMap].
    apply (forEach_projection (fun m => (m_position m, m_color m, m_sprite m, ud_pulse m))).
    reflexivity.
Qed.

End ResetExtras.

Section PointerCoordinates.


End PointerCoordinates.

(** * Further properties of the CSV variant *)

Section CsvExtras.
Context {cell : Type} (truthy : cell -> bool) (to_key : cell -> string).

Local Abbreviation Scene := (@Csv.Scene cell).
Local Abbreviation NodeRow := (@Csv.NodeRow cell).
Local Abbreviation EdgeRow := (@Csv.EdgeRow cell).
Local Abbreviation add_node := (Csv.add_node truthy to_key).
Local Abbreviation add_edge := (Csv.add_edge truthy to_key).
Local Abbreviation edge_ok := (Csv.edge_ok truthy to_key).
Local Abbreviation load := (Csv.load truthy to_key).

Lemma csv_add_node_last_index (s : Scene) (n : NodeRow) :
  csv_last_index to_key s -> csv_last_index to_key (add_node s n).
Proof.
  intros Hs. unfold Csv.add_node. destruct (negb (truthy (Csv.n_id n))); [exact Hs|].
  cbv zeta. set (m0 := Csv.mkMesh _ _ _).
  assert (Hk0 : to_key (Csv.mesh_id m0) = to_key (Csv.n_id n)) by reflexivity.
  clearbody m0. intros k i. cbn [Csv.nodeMap Csv.nodeGroup].
  destruct (decide (to_key (Csv.n_id n) = k)) as [Ek|Hne].
  - rewrite <- Ek. rewrite lookup_insert_eq. split.
    + intros [= <-]. split.
      * exists m0. split; [|exact Hk0]. apply list_lookup_middle. reflexivity.
      * intros j m' Hj Hm'. apply lookup_lt_Some in Hm'. rewrite length_app in Hm'.
        simpl in Hm'. lia.
    + intros [(m & Hm & Hkm) Hlast].
      destruct (decide (i = length (Csv.nodeGroup s))) as [->|Hi]; [reflexivity|].
      exfalso. pose proof (lookup_lt_Some _ _ _ Hm) as Hlt. rewrite length_app in Hlt.
      simpl in Hlt.
      apply (Hlast (length (Csv.nodeGroup s)) m0); [lia| |exact Hk0].
      apply list_lookup_middle. reflexivity.
  - rewrite lookup_insert_ne by exact Hne. rewrite (Hs k i). split.
    + intros [(m & Hm & Hkm) Hlast]. split.
      * exists m. split; [|exact Hkm]. rewrite lookup_app_l; [exact Hm|].
        apply (lookup_lt_Some _ _ _ Hm).
      * intros j m' Hj Hm'.
        destruct (decide (j < length (Csv.nodeGroup s))%nat) as [Hlt|Hge].
        -- rewrite lookup_app_l in Hm' by exact Hlt. apply (Hlast j m' Hj Hm').
        -- pose proof (lookup_lt_Some _ _ _ Hm') as Hlt. rewrite length_app in Hlt.
           simpl in Hlt. assert (j = length (Csv.nodeGroup s)) as -> by lia.
           rewrite list_lookup_middle in Hm' by reflexivity. injection Hm' as <-.
           rewrite Hk0. exact Hne.
    + intros [(m & Hm & Hkm) Hlast].
      assert (Hlt : (i < length (Csv.nodeGroup s))%nat).
      { pose proof (lookup_lt_Some _ _ _ Hm) as Hlt. rewrite length_app in Hlt.
        simpl in Hlt. destruct (decide (i = length (Csv.nodeGroup s))) as [->|Hi]; [|lia].
        rewrite list_lookup_middle in Hm by reflexivity. injection Hm as <-.
        rewrite Hk0 in Hkm. contradiction. }
      rewrite lookup_app_l in Hm by exact Hlt. split.
      * exists m. split; assumption.
      * intros j m' Hj Hm'. apply (Hlast j m' Hj). rewrite lookup_app_l; [exact Hm'|].
        apply (lookup_lt_Some _ _ _ Hm').
Qed.

Lemma csv_add_nodes_group (rows : list NodeRow) (s : Scene) :
  Csv.nodeGroup (fold_left add_node rows s)
  = Csv.nodeGroup s
    ++ ((fun n => Csv.mkMesh
                    (default 0xffffff%Z
                       (own_property Csv.categoryStyle (to_key (Csv.n_category n))))
                    (Csv.n_x n, Csv.n_y n, Csv.n_z n) (Csv.n_id n))
          <$> filter (fun n => truthy (Csv.n_id n) = true) rows).
Proof.
  revert s. induction rows as [|n rows IH]; intros s; simpl.
  - rewrite app_nil_r. reflexivity.
  - rewrite IH. unfold Csv.add_node. destruct (truthy (Csv.n_id n)) eqn:E; simpl.
    + rewrite filter_cons_True by exact E. rewrite fmap_cons, <- app_assoc. reflexivity.
    + rewrite filter_cons_False by congruence. reflexivity.
Qed.

Lemma csv_add_nodes_last_index (rows : list NodeRow) (s : Scene) :
  csv_last_index to_key s -> csv_last_index to_key (fold_left add_node rows s).
Proof.
  revert s. induction rows as [|n rows IH]; intros s Hs; simpl; [exact Hs|].
  apply IH, csv_add_node_last_index, Hs.
Qed.

Lemma csv_empty_last_index : csv_last_index to_key (Csv.mkScene [] ∅ []).
Proof.
  intros k i. simpl. rewrite lookup_empty. split; [discriminate|].
  intros [(m & Hm & _) _]. rewrite lookup_nil in Hm. discriminate.
Qed.

Lemma csv_empty_meshes_exist : Csv.meshes_exist (@Csv.mkScene cell [] ∅ []).
Proof. intros k i Hk. simpl in Hk. rewrite lookup_empty in Hk. discriminate. Qed.

Lemma csv_add_edges_nodes (edgeData : list EdgeRow) (s : Scene) :
  Csv.meshes_exist s ->
  Csv.nodeGroup (fold_left add_edge edgeData s) = Csv.nodeGroup s
  /\ Csv.nodeMap (fold_left add_edge edgeData s) = Csv.nodeMap s.
Proof.
  revert s. induction edgeData as [|e edgeData IH]; intros s Hs; simpl; [auto|].
  destruct (csv_add_edge_spec truthy to_key s e Hs) as (Hg & Hm & _).
  destruct (IH (add_edge s e)) as [-> ->]; [|auto].
  intros k i Hk. rewrite Hm in Hk. rewrite Hg. apply (Hs k i Hk).
Qed.

(** X20. The node loader of the CSV variant makes one sphere for each row
    with an id, in the order of the file, at the coordinates of the row and
    in the colour of its category (white for a category without a style),
    and skips the rows without id; [nodeMap] holds under a key the last
    sphere made for that key, so that of two rows with one id the second
    wins.  The edge rows change none of this. *)
Theorem csv_nodes_loaded (nodeData : list NodeRow) (edgeData : list EdgeRow) :
  Forall (fun n => plain_key (to_key (Csv.n_id n))
                   /\ plain_key (to_key (Csv.n_category n))) nodeData ->
  Csv.nodeGroup (load nodeData edgeData)
  = ((fun n => Csv.mkMesh
                 (default 0xffffff%Z
                    (own_property Csv.categoryStyle (to_key (Csv.n_category n))))
                 (Csv.n_x n, Csv.n_y n, Csv.n_z n) (Csv.n_id n))
       <$> filter (fun n => truthy (Csv.n_id n) = true) nodeData)
  /\ forall k i,
       Csv.nodeMap (load nodeData edgeData) !! k = Some i
       <-> (exists m, Csv.nodeGroup (load nodeData edgeData) !! i = Some m
                      /\ to_key (Csv.mesh_id m) = k)
           /\ (forall j m', (i < j)%nat ->
                 Csv.nodeGroup (load nodeData edgeData) !! j = Some m' ->
                 to_key (Csv.mesh_id m') <> k).
Proof.
  intros _. unfold Csv.load.
  set (s0 := fold_left add_node nodeData (Csv.mkScene [] ∅ [])).
  assert (Hs0 : Csv.meshes_exist s0)
    by apply csv_add_nodes_meshes_exist, csv_empty_meshes_exist.
  destruct (csv_add_edges_nodes edgeData s0 Hs0) as [-> ->].
  split.
  - unfold s0. rewrite csv_add_nodes_group. reflexivity.
  - apply (csv_add_nodes_last_index nodeData _ csv_empty_last_index).
Qed.

Lemma csv_add_edges_lines (g : list (@Csv.Mesh cell)) (mp : gmap string nat)
    (edgeData : list EdgeRow) (s : Scene) :
  Csv.meshes_exist s -> Csv.nodeGroup s = g -> Csv.nodeMap s = mp ->
  exists lines,
    Csv.edgeGroup (fold_left add_edge edgeData s) = Csv.edgeGroup s ++ lines
    /\ Forall2 (fun e l =>
                  exists i j a b,
                    mp !! to_key (Csv.source e) = Some i
                    /\ mp !! to_key (Csv.target e) = Some j
                    /\ g !! i = Some a /\ g !! j = Some b
                    /\ l = (Csv.mesh_position a, Csv.mesh_position b))
               (filter (fun e => edge_ok s e = true) edgeData) lines.
Proof.
  revert s. induction edgeData as [|e edgeData IH]; intros s Hs Hg Hm.
  - exists []. simpl. rewrite app_nil_r. split; [reflexivity|constructor].
  - cbn [fold_left].
    destruct (csv_add_edge_spec truthy to_key s e Hs) as (Hg' & Hm' & _).
    destruct (IH (add_edge s e)) as (lines & Hl & Hf).
    { intros k i Hk. rewrite Hm' in Hk. rewrite Hg'. apply (Hs k i Hk). }
    { congruence. }
    { congruence. }
    assert (Hsame : filter (fun e0 => edge_ok (add_edge s e) e0 = true) edgeData
                    = filter (fun e0 => edge_ok s e0 = true) edgeData).
    { apply list_filter_iff. intros e0. unfold Csv.edge_ok. rewrite Hm'. reflexivity. }
    rewrite Hsame in Hf. rewrite Hl. clear Hl Hsame IH.
    unfold Csv.add_edge, Csv.edge_ok in *.
    destruct (truthy (Csv.source e)) eqn:Es, (truthy (Csv.target e)) eqn:Et;
      cbn [negb orb andb];
      try (rewrite filter_cons_False by (rewrite ?Es, ?Et; cbn; congruence);
           exists lines; split; [reflexivity|exact Hf]).
    destruct (Csv.nodeMap s !! to_key (Csv.source e)) as [i|] eqn:Ei.
    2:{ rewrite filter_cons_False.
        - exists lines. split; [reflexivity|exact Hf].
        - rewrite Es, Et, Ei. intros Hx. apply andb_true_iff in Hx as [Hx _].
          apply andb_true_iff in Hx as [_ Hx]. apply bool_decide_eq_true in Hx.
          destruct Hx; discriminate. }
    destruct (Csv.nodeMap s !! to_key (Csv.target e)) as [j|] eqn:Ej.
    2:{ rewrite filter_cons_False.
        - exists lines. split; [reflexivity|exact Hf].
        - rewrite Es, Et, Ej. intros Hx. apply andb_true_iff in Hx as [_ Hx].
          apply bool_decide_eq_true in Hx. destruct Hx; discriminate. }
    destruct (lookup_lt_is_Some_2 _ _ (Hs _ _ Ei)) as [a Ha].
    destruct (lookup_lt_is_Some_2 _ _ (Hs _ _ Ej)) as [b Hb].
    rewrite Ha, Hb. cbn [Csv.edgeGroup]. rewrite <- app_assoc.
    rewrite filter_cons_True.
    + exists ((Csv.mesh_position a, Csv.mesh_position b) :: lines).
      split; [reflexivity|]. constructor; [|exact Hf].
      exists i, j, a, b. rewrite <- Hm, <- Hg. auto.
    + rewrite Es, Et, Ei, Ej. apply andb_true_intro. split; [apply andb_true_intro; split|].
      * reflexivity.
      * apply bool_decide_eq_true_2. eauto.
      * apply bool_decide_eq_true_2. eauto.
Qed.

(** X21. The edge loader of the CSV variant makes, in the order of the
    file, one line for each edge row that has a source and a target which
    are both ids of loaded nodes, from the position of the sphere that
    [nodeMap] holds for the source to that of the target; every other row
    is skipped and the loader goes on with the next one. *)
Theorem csv_edges_loaded (nodeData : list NodeRow) (edgeData : list EdgeRow) :
  Forall (fun n => plain_key (to_key (Csv.n_id n))) nodeData ->
  Forall (fun e => plain_key (to_key (Csv.source e))
                   /\ plain_key (to_key (Csv.target e))) edgeData ->
  Forall2 (fun e l =>
             exists i j a b,
               Csv.nodeMap (load nodeData edgeData) !! to_key (Csv.source e) = Some i
               /\ Csv.nodeMap (load nodeData edgeData) !! to_key (Csv.target e) = Some j
               /\ Csv.nodeGroup (load nodeData edgeData) !! i = Some a
               /\ Csv.nodeGroup (load nodeData edgeData) !! j = Some b
               /\ l = (Csv.mesh_position a, Csv.mesh_position b))
          (filter (fun e => edge_ok (load nodeData edgeData) e = true) edgeData)
          (Csv.edgeGroup (load nodeData edgeData)).
Proof.
  intros _ _. unfold Csv.load.
  set (s0 := fold_left add_node nodeData (Csv.mkScene [] ∅ [])).
  assert (Hs0 : Csv.meshes_exist s0)
    by apply csv_add_nodes_meshes_exist, csv_empty_meshes_exist.
  destruct (csv_add_edges_nodes edgeData s0 Hs0) as [Hg Hm].
  destruct (csv_add_edges_lines (Csv.nodeGroup s0) (Csv.nodeMap s0) edgeData s0 Hs0
              eq_refl eq_refl) as (lines & Hl & Hf).
  assert (He0 : forall rows (s : Scene),
            Csv.edgeGroup (fold_left add_node rows s) = Csv.edgeGroup s).
  { induction rows as [|n rows IH]; intros s; simpl; [reflexivity|].
    rewrite IH. unfold Csv.add_node. destruct (negb (truthy (Csv.n_id n))); reflexivity. }
  assert (Hs0e : Csv.edgeGroup s0 = []) by (unfold s0; rewrite He0; reflexivity).
  rewrite Hl, Hs0e. cbn [app]. rewrite Hg, Hm.
  assert (Hsame : filter (fun e => edge_ok (fold_left add_edge edgeData s0) e = true) edgeData
                  = filter (fun e => edge_ok s0 e = true) edgeData).
  { apply list_filter_iff. intros e. unfold Csv.edge_ok. rewrite Hm. reflexivity. }
  rewrite Hsame. exact Hf.
Qed.

End CsvExtras.

Section CsvPage.
Context {cell : Type} (is_string : cell -> string -> bool).

Local Abbreviation step := (CsvView.step is_string).
Local Abbreviation run := (CsvView.run is_string).

Lemma csv_run_snoc (pg : @CsvView.Page cell) (evs : list CsvView.Event)
    (ev : CsvView.Event) :
  run pg (evs ++ [ev]) = step (run pg evs) ev.
Proof. unfold CsvView.run. rewrite fold_left_app. reflexivity. Qed.

Lemma clicked_snoc (i : nat) (evs : list CsvView.Event) (ev : CsvView.Event) :
  CsvView.clicked i (evs ++ [ev])
  <-> CsvView.clicked i evs \/ exists rest, ev = CsvView.Click (i :: rest).
Proof.
  unfold CsvView.clicked. split.
  - intros [rest Hin]. apply elem_of_app in Hin as [Hin|Hin].
    + left. exists rest. exact Hin.
    + right. exists rest. apply list_elem_of_singleton in Hin. congruence.
  - intros [[rest Hin]|[rest ->]]; exists rest; apply elem_of_app.
    + left. exact Hin.
    + right. apply list_elem_of_singleton. reflexivity.
Qed.

(** X22. In the CSV variant, after any sequence of clicks, timer
    expirations and resets: the sun light is 0.8 or 2 and the torch light 0
    or 2; a timer is pending only for a sphere that was clicked; and a
    sphere has scale 1 only if it was never clicked, scale 2 or 3 only if
    it was, and scale 3 only while a timer is pending for it.  So a clicked
    sphere never gets its first size back, not even by a reset. *)
Theorem csv_click_settles (s : @Csv.Scene cell) (evs : list CsvView.Event) :
  CsvView.scene (run (CsvView.loaded s) evs) = s
  /\ length (CsvView.scales (run (CsvView.loaded s) evs)) = length (Csv.nodeGroup s)
  /\ (CsvView.sunLight (run (CsvView.loaded s) evs) = 0.8
      \/ CsvView.sunLight (run (CsvView.loaded s) evs) = 2)
  /\ (CsvView.torchLight (run (CsvView.loaded s) evs) = 0
      \/ CsvView.torchLight (run (CsvView.loaded s) evs) = 2)
  /\ (forall i, i ∈ CsvView.timers (run (CsvView.loaded s) evs) -> CsvView.clicked i evs)
  /\ forall i v, CsvView.scales (run (CsvView.loaded s) evs) !! i = Some v ->
       (v = Vector3.setScalar 1 /\ ~ CsvView.clicked i evs)
       \/ (v = Vector3.make 2 2 2 /\ CsvView.clicked i evs)
       \/ (v = Vector3.make 3 3 3 /\ CsvView.clicked i evs
           /\ i ∈ CsvView.timers (run (CsvView.loaded s) evs)).
Proof.
  induction evs as [|ev evs IH] using rev_ind.
  - cbn. split; [reflexivity|]. split; [apply length_replicate|].
    split; [left; reflexivity|]. split; [left; reflexivity|].
    split; [intros i Hi; inversion Hi|].
    intros i v Hv. apply lookup_replicate in Hv as [-> _]. left. split; [reflexivity|].
    intros [rest Hin]. inversion Hin.
  - rewrite csv_run_snoc. set (pg := run (CsvView.loaded s) evs) in *.
    destruct IH as (Hsc & Hlen & Hsun & Htorch & Htim & Hscale).
    assert (Hkeep : forall i v, CsvView.scales pg !! i = Some v ->
              (forall rest, ev <> CsvView.Click (i :: rest)) ->
              (v = Vector3.setScalar 1 /\ ~ CsvView.clicked i (evs ++ [ev]))
              \/ (v = Vector3.make 2 2 2 /\ CsvView.clicked i (evs ++ [ev]))
              \/ (v = Vector3.make 3 3 3 /\ CsvView.clicked i (evs ++ [ev])
                  /\ i ∈ CsvView.timers pg)).
    { intros i v Hv Hev. destruct (Hscale i v Hv) as [[-> Hn]|[[-> Hc]|(-> & Hc & Hin)]].
      - left. split; [reflexivity|]. rewrite clicked_snoc. intros [Hc|[rest ->]].
        + exact (Hn Hc).
        + exact (Hev rest eq_refl).
      - right. left. split; [reflexivity|]. apply clicked_snoc. left. exact Hc.
      - right. right. split; [reflexivity|]. split; [|exact Hin].
        apply clicked_snoc. left. exact Hc. }
    destruct ev as [hits| |]; cbn [CsvView.step].
    + unfold CsvView.onPointerDown. destruct hits as [|h rest].
      { split; [exact Hsc|]. split; [exact Hlen|]. split; [exact Hsun|].
        split; [exact Htorch|]. split.
        - intros i Hi. apply clicked_snoc. left. apply Htim, Hi.
        - intros i v Hv. apply (Hkeep i v Hv). discriminate. }
      destruct (Csv.nodeGroup (CsvView.scene pg) !! h) as [m|] eqn:Eh.
      * cbn [CsvView.scene CsvView.scales CsvView.sunLight CsvView.torchLight
             CsvView.timers].
        split; [exact Hsc|]. split; [rewrite length_insert; exact Hlen|].
        split; [destruct (is_string _ "Sun"); [right; reflexivity|exact Hsun]|].
        split; [destruct (is_string _ "Torch"); [right; reflexivity|exact Htorch]|].
        split.
        -- intros i Hi. apply clicked_snoc. apply elem_of_app in Hi as [Hi|Hi].
           ++ left. apply Htim, Hi.
           ++ right. exists rest. apply list_elem_of_singleton in Hi. congruence.
        -- intros i v Hv. apply list_lookup_insert_Some in Hv as [(<- & <- & _)|[Hne Hv]].
           ++ right. right. split; [reflexivity|]. split.
              ** apply clicked_snoc. right. exists rest. reflexivity.
              ** apply elem_of_app. right. apply list_elem_of_singleton. reflexivity.
           ++ destruct (Hkeep i v Hv) as [L|[L|(L1 & L2 & L3)]]; [congruence|auto|auto|].
              right. right. split; [exact L1|]. split; [exact L2|].
              apply elem_of_app. left. exact L3.
      * split; [exact Hsc|]. split; [exact Hlen|]. split; [exact Hsun|].
        split; [exact Htorch|]. split.
        -- intros i Hi. apply clicked_snoc. left. apply Htim, Hi.
        -- intros i v Hv. apply (Hkeep i v Hv). intros rest' [= <- _].
           rewrite Hsc in Eh. apply lookup_lt_Some in Hv. rewrite Hlen in Hv.
           apply lookup_ge_None in Eh. lia.
    + unfold CsvView.onTimeout. destruct (CsvView.timers pg) as [|j rest] eqn:Et.
      { rewrite Et. split; [exact Hsc|]. split; [exact Hlen|]. split; [exact Hsun|].
        split; [exact Htorch|]. split.
        - intros i Hi. inversion Hi.
        - intros i v Hv. apply (Hkeep i v Hv). discriminate. }
      cbn [CsvView.scene CsvView.scales CsvView.sunLight CsvView.torchLight CsvView.timers].
      split; [exact Hsc|]. split; [rewrite length_insert; exact Hlen|].
      split; [exact Hsun|]. split; [exact Htorch|]. split.
      * intros i Hi. apply clicked_snoc. left. apply Htim. apply elem_of_cons. right. exact Hi.
      * intros i v Hv. apply list_lookup_insert_Some in Hv as [(<- & <- & _)|[Hne Hv]].
        -- right. left. split; [reflexivity|]. apply clicked_snoc. left.
           apply Htim. apply list_elem_of_here.
        -- destruct (Hkeep i v Hv) as [L|[L|(L1 & L2 & L3)]]; [discriminate|auto|auto|].
           right. right. split; [exact L1|]. split; [exact L2|].
           apply elem_of_cons in L3 as [L3|L3]; [congruence|exact L3].
    + cbn [CsvView.onReset CsvView.scene CsvView.scales CsvView.sunLight
           CsvView.torchLight CsvView.timers].
      split; [exact Hsc|]. split; [exact Hlen|]. split; [left; reflexivity|].
      split; [left; reflexivity|]. split.
      * intros i Hi. apply clicked_snoc. left. apply Htim, Hi.
      * intros i v Hv. apply (Hkeep i v Hv). discriminate.
Qed.

End CsvPage.

(** * Further invariants of a session *)

Section SessionInvariants.
Context `{Host}.

(** X23. In every state of a session of the built scene, the base size of
    a mesh whose category is not an inherited name is the size of the style
    of its category, between 1.6 and 2.4 and so never 0: for such a mesh
    the fallback values of [baseScale || 1.0] in the activation and of
    [baseScale || 1.6] in the reset are never used. *)
Theorem baseScale_fallbacks_unused (nodes : list NodeRecord)
    (edges : list (string * string)) (w0 w : World) (i : nat) (m : NodeMesh) :
  build nodes edges = (Returned, w0) ->
  reachable w0 w ->
  nodeGroup w !! i = Some m ->
  plain_key (ud_category m) ->
  ud_baseScale m = size (style_of (ud_category m))
  /\ 1.6 <= ud_baseScale m /\ ud_baseScale m <= 2.4
  /\ forall d, num_or (ud_baseScale m) d = ud_baseScale m.
Proof.
  intros Hb Hr Hm _.
  pose proof (reachable_well_formed w0 w (build_well_formed _ _ _ Hb) Hr) as Hw.
  pose proof (wf_base w Hw i m Hm) as Hbase.
  split; [exact Hbase|]. rewrite Hbase. split; [|split].
  - unfold style_of, categoryStyle. cbn -[String.eqb].
    repeat (match goal with
            | |- context [String.eqb ?a ?b] =>
                destruct (String.eqb a b); [vm_compute; discriminate|]
            end).
    vm_compute; discriminate.
  - unfold style_of, categoryStyle. cbn -[String.eqb].
    repeat (match goal with
            | |- context [String.eqb ?a ?b] =>
                destruct (String.eqb a b); [vm_compute; discriminate|]
            end).
    vm_compute; discriminate.
  - intros d. apply style_size_truthy.
Qed.

Lemma frame_lights (w : World) (dt : Q) (cam : Vector3.t) :
  sunLight_intensity (step w (Frame dt cam))
  = MathUtils.lerp (sunLight_intensity w) 0.8 (dt * 0.6)
  /\ torchLight_intensity (step w (Frame dt cam))
     = MathUtils.lerp (torchLight_intensity w) 0.0 (dt * 1.2).
Proof. split; reflexivity. Qed.

(** X24. Frames alone never raise the torch light. Over a run of frames
    with elapsed times from 0 to 5/6 of a second, a torch light that is not
    negative stays not negative and is not above what it was. *)
Theorem frames_fade_torch (w : World) (fs : list (Q * Vector3.t)) :
  Forall (fun dt => 0 <= dt /\ dt * 1.2 <= 1) fs.*1 ->
  0 <= torchLight_intensity w ->
  0 <= torchLight_intensity (run w (frames fs))
  /\ torchLight_intensity (run w (frames fs)) <= torchLight_intensity w.
Proof.
  revert w. induction fs as [|[dt cam] rest IH]; intros w Hall H0.
  - cbn. split; lra.
  - change (run w (frames ((dt, cam) :: rest)))
      with (run (step w (Frame dt cam)) (frames rest)).
    cbn [fmap list_fmap fst] in Hall. apply Forall_cons in Hall as [[Hdt0 Hdt1] Hall].
    destruct (frame_lights w dt cam) as [_ Et].
    assert (P1 : 0 <= (1 - dt * 1.2) * torchLight_intensity w)
      by (apply Qmult_le_0_compat; lra).
    assert (P2 : 0 <= (dt * 1.2) * torchLight_intensity w)
      by (apply Qmult_le_0_compat; lra).
    destruct (IH (step w (Frame dt cam)) Hall) as [A B].
    + rewrite Et. unfold MathUtils.lerp. lra.
    + rewrite Et in B. unfold MathUtils.lerp in B. split; [exact A|lra].
Qed.

Lemma build_pool (nodes : list NodeRecord) (edges : list (string * string)) (w : World) :
  build nodes edges = (Returned, w) ->
  particlePool w = replicate PARTICLE_MAX new_particle.
Proof.
  unfold build. intros Hb.
  pose proof (create_nodes_nodes_built nodes _ initial_world_nodes_built) as Hnb.
  set (w0 := create_nodes initial_world nodes) in *.
  pose proof (create_edges_frame edges w0) as Hf.
  destruct (create_edges w0 edges) as [[|e] w1]; [|discriminate].
  injection Hb as <-. destruct Hf as (_ & _ & Hp & _).
  simpl. rewrite Hp, (nb_pool _ Hnb). reflexivity.
Qed.

Lemma claim_particle_ok (r : nat) (origin : Vector3.t) (c : Z) (p : Particle) :
  (forall k, 0 <= Math_random k /\ Math_random k < 1) ->
  particle_ok (claim_particle r origin c p).
Proof.
  intros Hrand. destruct (Hrand r) as [R0 R1]. unfold particle_ok. simpl.
  split; [reflexivity|]. split; [intros _; split; lra|lra].
Qed.

Lemma update_particle_ok (dt : Q) (p : Particle) :
  0 <= dt -> particle_ok p -> particle_ok (update_particle dt p).
Proof.
  intros Hdt (Hv & Hl & Ho). unfold update_particle.
  destruct (alive p) eqn:Ea; cbn [negb].
  2:{ unfold particle_ok. rewrite Ea. auto. }
  destruct (Hl eq_refl) as [L0 L1].
  destruct (Qle_bool (life p - dt) 0) eqn:E; unfold particle_ok; simpl.
  - split; [reflexivity|]. split; [discriminate|exact Ho].
  - split; [exact Hv|]. split.
    + intros _. split; [|lra].
      destruct (Qlt_le_dec 0 (life p - dt)) as [Hlt|Hle]; [exact Hlt|].
      apply Qle_bool_iff in Hle. congruence.
    + unfold Math_max. destruct (Qle_bool 0 _) eqn:E0; [apply Qle_bool_iff, E0|lra].
Qed.

Lemma step_particles_ok (w : World) (ev : Event) :
  (forall k, 0 <= Math_random k /\ Math_random k < 1) ->
  forward_frame ev ->
  Forall particle_ok (particlePool w) -> Forall particle_ok (particlePool (step w ev)).
Proof.
  intros Hrand Hev Hp. unfold step. destruct ev as [hits|origin dir| | |dt cam]; cbn [handle].
  - unfold onPointerDown. destruct hits as [|hit rest]; [exact Hp|]. cbv zeta.
    destruct (object_position _ (object hit)); [|exact Hp].
    set (w2 := set_dragOffset _ _).
    assert (Hp2 : Forall particle_ok (particlePool w2)) by exact Hp. clearbody w2.
    unfold onNodeActivate. destruct (entry_of_object w2 (object hit)) as [e|]; [|exact Hp2].
    destruct (nodeGroup w2 !! mesh e) as [m|]; [|exact Hp2]. cbv zeta.
    pose proof (spawn_burst 8 (set_nodeGroup w2 (<[mesh e := activate_mesh m]> (nodeGroup w2)))
                  (m_position m) (color (style_of (ud_category m)))) as Hburst.
    cbv zeta in Hburst. destruct Hburst as [_ Hslots].
    set (w3 := Nat.iter 8 _ _) in *. clearbody w3.
    assert (Hp3 : Forall particle_ok (particlePool w3)).
    { apply Forall_lookup_2. intros j q Hq.
      destruct (Hslots j q Hq) as [Hold|(q0 & r & _ & _ & ->)].
      - apply (Forall_lookup_1 _ _ _ _ Hp2 Hold).
      - apply claim_particle_ok, Hrand. }
    destruct (String.eqb (ud_id m) "Sun"); [exact Hp3|].
    destruct (String.eqb (ud_id m) "Torch"); exact Hp3.
  - unfold onPointerMove. destruct (dragging w) as [d|]; [|exact Hp].
    destruct (object_position w d); [|exact Hp]. cbv zeta.
    destruct (update_lines _ _ _) as [o lines]. destruct d; exact Hp.
  - exact Hp.
  - exact Hp.
  - simpl in Hev. apply Forall_lookup_2. intros j q.
    rewrite (update_particle_lookup w dt cam j). intros Hq.
    apply fmap_Some in Hq as (q0 & Hq0 & ->).
    apply update_particle_ok; [exact Hev|]. apply (Forall_lookup_1 _ _ _ _ Hp Hq0).
Qed.

(** X25. With [Math.random()] in [0, 1), in a session of the built scene
    whose frames have elapsed times that are not negative, every particle
    of the pool is drawn exactly when it is alive, an alive particle has a
    life above 0 and of at most 1.3, and no opacity is negative. *)
Theorem session_particles_consistent
    (Hrand : forall k, 0 <= Math_random k /\ Math_random k < 1)
    (nodes : list NodeRecord) (edges : list (string * string))
    (w0 : World) (evs : list Event) (i : nat) (p : Particle) :
  build nodes edges = (Returned, w0) ->
  Forall forward_frame evs ->
  particlePool (run w0 evs) !! i = Some p ->
  visible p = alive p
  /\ (alive p = true -> 0 < life p /\ life p <= 1.3)
  /\ 0 <= p_opacity p.
Proof.
  intros Hb Hevs Hp.
  assert (H0 : Forall particle_ok (particlePool w0)).
  { rewrite (build_pool _ _ _ Hb). apply Forall_replicate.
    unfold particle_ok, new_particle. simpl. split; [reflexivity|].
    split; [discriminate|lra]. }
  assert (Hall : Forall particle_ok (particlePool (run w0 evs))).
  { clear Hp Hb. revert w0 H0. induction Hevs as [|ev evs Hev _ IH]; intros w0 H0.
    - exact H0.
    - simpl. apply (IH (step w0 ev)). apply step_particles_ok; assumption. }
  exact (Forall_lookup_1 _ _ _ _ Hall Hp).
Qed.

End SessionInvariants.

(** * The further properties at work *)

(** A record without position, with [Math.random()] always 0.5, lands in
    the middle of the box. *)
Lemma random_position_in_box_witness :
  exists m, nodeGroup (snd (@build demo_host unplaced_nodes [])) !! 0%nat = Some m
            /\ -20 <= Vector3.x (m_position m) /\ Vector3.x (m_position m) < 20.
Proof.
  destruct (nodeGroup (snd (@build demo_host unplaced_nodes [])) !! 0%nat) as [m|] eqn:Em;
    [|vm_compute in Em; discriminate].
  exists m. split; [reflexivity|].
  destruct (random_position_in_box (H:=demo_host) demo_random_range unplaced_nodes [] 0
              (mkNodeRecord "A" "A" "core" None) m) as ([Hx1 Hx2] & _).
  - reflexivity.
  - reflexivity.
  - exact Em.
  - split; assumption.
Defined.

(** The first activation of "Sun" leaves eight particles alive. *)
Lemma activation_burst_witness :
  alive_count (particlePool (demo_activate_sun demo_world)) = 8%nat.
Proof.
  pose proof (activation_burst (H:=demo_host) demo_world demo_sun_entry demo_sun_mesh)
    as Hburst.
  cbv zeta in Hburst. destruct Hburst as (Hcount & _).
  - vm_compute. reflexivity.
  - unfold demo_activate_sun. rewrite Hcount. vm_compute. reflexivity.
Defined.

(** A pointer-down on the sphere of "Sun" in the scene of the script. *)
Lemma pointer_down_activates_hit_node_witness :
  dragging demo_dragging_world = Some (NodeObj 1)
  /\ nodeGroup demo_dragging_world !! 1%nat = Some (activate_mesh demo_sun_mesh)
  /\ edgeGroup demo_dragging_world = edgeGroup demo_world.
Proof.
  pose proof (pointer_down_activates_hit_node (H:=demo_host) nodes edges
                demo_world demo_world 1 demo_sun_mesh (Vector3.make 50 41 (-20)) [])
    as Hdown.
  cbv zeta in Hdown. destruct Hdown as (_ & Hd & _ & Hm & _ & He).
  - vm_compute. reflexivity.
  - apply reach_start.
  - exists demo_sun_entry. split; [|reflexivity].
    apply list_elem_of_In. vm_compute. right. left. reflexivity.
  - vm_compute. reflexivity.
  - split; [exact Hd|]. split; [exact Hm|exact He].
Defined.

(** A pointer-down on the label of "Sun" throws, and the pointer-up after
    a move of the pointer ends the drag of the label. *)
Lemma label_hit_throws_and_drags_sprite_witness :
  fst (@handle demo_host demo_world
         (PointerDown [mkIntersection (LabelObj 1) (Vector3.make 50 44 (-20))]))
  = TypeError
  /\ dragging
       (@step demo_host
          (@step demo_host
             (set_dragOffset (set_dragging demo_world (Some (LabelObj 1)))
                (Vector3.sub (Vector3.make 50 44 (-20))
                             (sprite_position (m_sprite demo_sun_mesh))))
             (PointerMove (Vector3.make 0 30 80) (Vector3.make 1 0 0)))
          PointerUp) = None.
Proof.
  pose proof (label_hit_throws_and_drags_sprite (H:=demo_host) demo_world 1 demo_sun_mesh
                (Vector3.make 50 44 (-20)) [] (Vector3.make 0 30 80) (Vector3.make 1 0 0))
    as Hlabel.
  cbv zeta in Hlabel. destruct Hlabel as (Hthrow & _ & Hup).
  - vm_compute. reflexivity.
  - split; [rewrite Hthrow; reflexivity|exact Hup].
Defined.


(** The first particle of a burst after two frames of a quarter of a
    second: its life has not grown. *)
Lemma particles_only_fade_witness :
  exists p',
    particlePool (@run demo_host demo_dragging_world (frames demo_frames)) !! 0%nat = Some p'
    /\ alive p' = true
    /\ life p' <= life demo_first_particle
    /\ p_color p' = p_color demo_first_particle.
Proof.
  destruct (particles_only_fade (H:=demo_host) demo_dragging_world demo_frames 0
              demo_first_particle) as (p' & Hp' & _ & Halive & _).
  - repeat constructor; vm_compute; discriminate.
  - vm_compute. reflexivity.
  - assert (Ha : alive p' = true).
    { vm_compute in Hp'. injection Hp' as <-. reflexivity. }
    destruct (Halive Ha) as (_ & Hl & Hc & _).
    exists p'. split; [exact Hp'|]. split; [exact Ha|]. split; [exact Hl|exact Hc].
Defined.

(** A frame of a quarter of a second while "Sun" is dragged. *)
Lemma frame_animates_each_mesh_once_witness :
  edgeGroup (@step demo_host demo_dragging_world (Frame 0.25 (Vector3.make 1 2 3)))
  = edgeGroup demo_dragging_world
  /\ dragging (@step demo_host demo_dragging_world (Frame 0.25 (Vector3.make 1 2 3)))
     = Some (NodeObj 1)
  /\ camera_position (@step demo_host demo_dragging_world (Frame 0.25 (Vector3.make 1 2 3)))
     = Vector3.make 1 2 3.
Proof.
  pose proof (frame_animates_each_mesh_once (H:=demo_host) nodes edges demo_world
                demo_dragging_world 0.25 (Vector3.make 1 2 3)) as Hframe.
  cbv zeta in Hframe. destruct Hframe as (_ & He & Hd & _ & Hc).
  - vm_compute. reflexivity.
  - exact demo_dragging_reachable.
  - split; [exact He|]. split; [rewrite Hd; vm_compute; reflexivity|exact Hc].
Defined.

(** The pulse of "Sun" after two frames of a quarter of a second: the
    pulse of the activation, with its duration of 0.6. *)
Lemma pulse_only_ages_witness :
  exists m' pulse',
    nodeGroup (@run demo_host demo_dragging_world (frames demo_frames)) !! 1%nat = Some m'
    /\ ud_pulse m' = Some pulse'
    /\ 0 <= pulse_t pulse'
    /\ pulse_duration pulse' = 0.6.
Proof.
  destruct (pulse_only_ages (H:=demo_host) nodes edges demo_world demo_dragging_world
              demo_frames 1 (activate_mesh demo_sun_mesh))
    as (m' & Hm' & _ & Hpulse).
  - vm_compute. reflexivity.
  - exact demo_dragging_reachable.
  - repeat constructor; vm_compute; discriminate.
  - exists demo_sun_entry. split; [|reflexivity].
    apply list_elem_of_In. vm_compute. right. left. reflexivity.
  - vm_compute. reflexivity.
  - destruct (ud_pulse m') as [pulse'|] eqn:Ep.
    2:{ exfalso. vm_compute in Hm'. injection Hm' as <-. discriminate Ep. }
    destruct (Hpulse pulse' eq_refl) as (pulse & Hp & Ht & Hdur & _).
    injection Hp as <-. simpl in Ht, Hdur.
    exists m', pulse'. split; [exact Hm'|]. split; [exact Ep|]. split; [exact Ht|exact Hdur].
Defined.

(** The scene of the script while "Sun" is dragged. *)
Lemma session_keeps_identity_witness :
  nodeMap demo_dragging_world = nodeMap demo_world
  /\ topology (edgeGroup demo_dragging_world) = edges
  /\ length (nodeGroup demo_dragging_world) = 12%nat.
Proof.
  destruct (session_keeps_identity (H:=demo_host) nodes edges demo_world
              demo_dragging_world) as (Hm & Ht & Hl & _).
  - vm_compute. reflexivity.
  - exact demo_dragging_reachable.
  - split; [exact Hm|]. split; [exact Ht|exact Hl].
Defined.

Lemma demo_session_short : Forall short_frame demo_session.
Proof.
  repeat constructor; vm_compute; discriminate.
Qed.

(** A pointer-down on "Sun", a frame and a reset. *)
Lemma session_lights_bounded_witness :
  sunLight_intensity (@run demo_host demo_world demo_session) <= 2.2
  /\ torchLight_intensity (@run demo_host demo_world demo_session) <= 3.0.
Proof.
  destruct (session_lights_bounded (H:=demo_host) nodes edges demo_world demo_session)
    as (Hsun & _ & Htorch).
  - vm_compute. reflexivity.
  - exact demo_session_short.
  - split; [exact Hsun|exact Htorch].
Defined.

(** Two frames after an activation of "Torch": the torch light, at 1.6,
    has not risen. *)
Lemma frames_fade_torch_witness :
  torchLight_intensity demo_torch_world == 1.6
  /\ 0 <= torchLight_intensity (@run demo_host demo_torch_world (frames demo_frames))
  /\ torchLight_intensity (@run demo_host demo_torch_world (frames demo_frames))
     <= torchLight_intensity demo_torch_world.
Proof.
  split; [vm_compute; reflexivity|].
  apply (frames_fade_torch (H:=demo_host) demo_torch_world demo_frames).
  - repeat constructor; vm_compute; discriminate.
  - vm_compute. discriminate.
Defined.

Lemma session_look_bounded_witness :
  exists m, nodeGroup (@run demo_host demo_world demo_session) !! 1%nat = Some m
            /\ 0 <= m_emissiveIntensity m /\ m_emissiveIntensity m <= 0.9.
Proof.
  destruct (nodeGroup (@run demo_host demo_world demo_session) !! 1%nat) as [m|] eqn:Em;
    [|vm_compute in Em; discriminate].
  exists m. split; [reflexivity|].
  destruct (session_look_bounded (H:=demo_host) nodes edges demo_world demo_session 1 m)
    as (H0 & H1 & _).
  - vm_compute. reflexivity.
  - repeat constructor; vm_compute; discriminate.
  - exact Em.
  - split; assumption.
Defined.


Lemma csv_rows_plain :
  Forall (fun n => plain_key (cell_key (Csv.n_id n))
                   /\ plain_key (cell_key (Csv.n_category n))) csv_nodes
  /\ Forall (fun e => plain_key (cell_key (Csv.source e))
                      /\ plain_key (cell_key (Csv.target e))) csv_edges.
Proof.
  split; repeat (apply Forall_cons; split; [split|]); try apply Forall_nil;
    unfold plain_key; apply (bool_decide_unpack _); vm_compute; exact I.
Qed.

(** Three node rows, one without id: two spheres, "Torch" the second. *)
Lemma csv_nodes_loaded_witness :
  length (Csv.nodeGroup (Csv.load cell_truthy cell_key csv_nodes csv_edges)) = 2%nat
  /\ Csv.nodeMap (Csv.load cell_truthy cell_key csv_nodes csv_edges) !! "Torch"%string
     = Some 1%nat.
Proof.
  destruct (csv_nodes_loaded cell_truthy cell_key csv_nodes csv_edges (proj1 csv_rows_plain))
    as [Hg Hm].
  split.
  - rewrite Hg. vm_compute. reflexivity.
  - apply Hm. split.
    + eexists. split; [rewrite Hg; vm_compute; reflexivity|reflexivity].
    + intros j m' Hj Hm'. apply lookup_lt_Some in Hm'. rewrite Hg in Hm'.
      vm_compute in Hm'. lia.
Defined.

(** Three edge rows, one to a node that is not loaded and one without
    target: one line. *)
Lemma csv_edges_loaded_witness :
  length (Csv.edgeGroup (Csv.load cell_truthy cell_key csv_nodes csv_edges)) = 1%nat.
Proof.
  pose proof (csv_edges_loaded cell_truthy cell_key csv_nodes csv_edges
                (Forall_impl _ _ _ (proj1 csv_rows_plain) (fun n Hn => proj1 Hn))
                (proj2 csv_rows_plain)) as Hlines.
  rewrite <- (Forall2_length _ _ _ Hlines). vm_compute. reflexivity.
Defined.

(** "Sun" while it is dragged: its base size is the 2.1 of a light. *)
Lemma baseScale_fallbacks_unused_witness :
  ud_baseScale (activate_mesh demo_sun_mesh) = size (style_of "light")
  /\ forall d, num_or (ud_baseScale (activate_mesh demo_sun_mesh)) d
               = ud_baseScale (activate_mesh demo_sun_mesh).
Proof.
  destruct (baseScale_fallbacks_unused (H:=demo_host) nodes edges demo_world
              demo_dragging_world 1 (activate_mesh demo_sun_mesh))
    as (Hbase & _ & _ & Hor).
  - vm_compute. reflexivity.
  - exact demo_dragging_reachable.
  - vm_compute. reflexivity.
  - unfold plain_key. apply (bool_decide_unpack _). vm_compute. exact I.
  - split; [exact Hbase|exact Hor].
Defined.

(** The first particle of the pool after a pointer-down on "Sun", a frame
    and a reset. *)
Lemma session_particles_consistent_witness :
  exists p, particlePool (@run demo_host demo_world demo_session) !! 0%nat = Some p
            /\ visible p = alive p
            /\ 0 <= p_opacity p.
Proof.
  destruct (particlePool (@run demo_host demo_world demo_session) !! 0%nat) as [p|] eqn:Ep;
    [|vm_compute in Ep; discriminate].
  exists p. split; [reflexivity|].
  destruct (session_particles_consistent (H:=demo_host) demo_random_range nodes edges
              demo_world demo_session 0 p) as (Hv & _ & Ho).
  - vm_compute. reflexivity.
  - repeat constructor; vm_compute; discriminate.
  - exact Ep.
  - split; [exact Hv|exact Ho].
Defined.
